(** * SAR change detection and object detection: a verified model

    A shallow embedding of the numeric core of [src/App/src/lib/analysis.ts]
    and [src/App/src/lib/objectDetection.ts], followed by the properties the
    specification states about it.

    Conventions of the embedding.
    - A [Uint8Array] / [Uint8ClampedArray] is a [list Z]; reading an index
      outside the array yields [undefined] ([None]), writing there is ignored,
      exactly as typed arrays behave.
    - JavaScript numbers that are integer valued (pixel coordinates, counts,
      byte samples) are [Z]; quotients and scores are exact rationals [Q];
      raw [Float32Array] samples, which may be [NaN] or infinite, are [num].
      Rounding of binary floating point is not modelled.
    - A [for] loop over an index range is a left fold over [seqZ]; a search
      loop that leaves through [break] is [existsb] / [forallb] over the same
      range, which evaluates the same tests in the same order.
    - A [while] loop is a structurally recursive function on a fuel argument
      which returns [None] when the fuel runs out. *)

From Stdlib Require Import ZArith QArith Qround Qabs Qminmax Lia Lqa Bool String.
From stdpp Require Import base list gmap sorting pretty.

Local Open Scope Z_scope.

(** ** JavaScript values *)

Module JS.

(** A number: a finite value or one of the three non-finite ones. *)
Inductive num : Type :=
| Fin (q : Q)
| PInf
| NInf
| NaN.

Definition isFinite (v : num) : bool :=
  match v with Fin _ => true | _ => false end.

Definition Qsgn_pos (q : Q) : bool := negb (Qle_bool q 0).
Definition Qsgn_neg (q : Q) : bool := negb (Qle_bool 0 q).
Definition Qltb (a b : Q) : bool := negb (Qle_bool b a).
Definition Qgtb (a b : Q) : bool := negb (Qle_bool a b).
Definition Qgeb (a b : Q) : bool := Qle_bool b a.

Definition neg (a : num) : num :=
  match a with
  | Fin q => Fin (- q)
  | PInf => NInf
  | NInf => PInf
  | NaN => NaN
  end.

Definition add (a b : num) : num :=
  match a, b with
  | NaN, _ | _, NaN => NaN
  | Fin x, Fin y => Fin (x + y)
  | PInf, NInf | NInf, PInf => NaN
  | PInf, _ | _, PInf => PInf
  | NInf, _ | _, NInf => NInf
  end.

Definition sub (a b : num) : num := add a (neg b).

Definition mul (a b : num) : num :=
  match a, b with
  | NaN, _ | _, NaN => NaN
  | Fin x, Fin y => Fin (x * y)
  | Fin x, PInf | PInf, Fin x =>
      if Qsgn_pos x then PInf else if Qsgn_neg x then NInf else NaN
  | Fin x, NInf | NInf, Fin x =>
      if Qsgn_pos x then NInf else if Qsgn_neg x then PInf else NaN
  | PInf, PInf | NInf, NInf => PInf
  | PInf, NInf | NInf, PInf => NaN
  end.

(** Division; a finite value over zero is infinite, zero over zero is NaN
    (the sign of a zero divisor is taken as positive). *)
Definition div (a b : num) : num :=
  match a, b with
  | NaN, _ | _, NaN => NaN
  | Fin x, Fin y =>
      if Qeq_bool y 0
      then (if Qsgn_pos x then PInf else if Qsgn_neg x then NInf else NaN)
      else Fin (x / y)
  | Fin _, (PInf | NInf) => Fin 0
  | (PInf | NInf), (PInf | NInf) => NaN
  | PInf, Fin y => if Qsgn_neg y then NInf else PInf
  | NInf, Fin y => if Qsgn_neg y then PInf else NInf
  end.

(** [Math.abs]. *)
Definition abs (a : num) : num :=
  match a with
  | Fin q => Fin (Qabs q)
  | PInf | NInf => PInf
  | NaN => NaN
  end.

(** [a < b]; any comparison with NaN is false. *)
Definition ltb (a b : num) : bool :=
  match a, b with
  | NaN, _ | _, NaN => false
  | Fin x, Fin y => Qltb x y
  | NInf, (Fin _ | PInf) => true
  | Fin _, PInf => true
  | _, _ => false
  end.

(** [Math.max] and [Math.min]: NaN if either argument is. *)
Definition max (a b : num) : num :=
  match a, b with
  | NaN, _ | _, NaN => NaN
  | _, _ => if ltb a b then b else a
  end.

Definition min (a b : num) : num :=
  match a, b with
  | NaN, _ | _, NaN => NaN
  | _, _ => if ltb b a then b else a
  end.

(** [Math.round] on a finite value: the nearest integer, halves upwards. *)
Definition round (x : Q) : Z := Qfloor (x + (1 # 2)).

Definition Qmax (a b : Q) : Q := if Qltb a b then b else a.
Definition Qmin (a b : Q) : Q := if Qltb b a then b else a.

(** ** Typed arrays *)

(** A byte is truthy unless it is zero. *)
Definition truthy (v : Z) : bool := negb (v =? 0).

(** [a[i]]: [None] stands for [undefined]. *)
Definition get {A} (a : list A) (i : Z) : option A :=
  if i <? 0 then None else a !! Z.to_nat i.

(** [a[i] = v] on a typed array: ignored outside the array. *)
Definition put {A} (a : list A) (i : Z) (v : A) : list A :=
  if i <? 0 then a else <[Z.to_nat i := v]> a.

(** [a[i]] read for its truth value: [undefined] is falsy. *)
Definition test (a : list Z) (i : Z) : bool :=
  match get a i with Some v => truthy v | None => false end.

(** [a[i]] read as an integer. Outside the array it is 0, which is what a
    store of [undefined] into an integer typed array leaves; where the source
    uses the value in arithmetic, the index is inside the array whenever the
    array holds [width * height] elements. *)
Definition item (a : list Z) (i : Z) : Z := default 0 (get a i).

(** A sequence of writes [a[idx p] = val p], one for each [p] in turn. *)
Definition writes {A P} (idx : P -> Z) (val : P -> A) (ps : list P) (a : list A) : list A :=
  foldl (fun s p => put s (idx p) (val p)) a ps.

(** [for (let i = lo; i < hi; i += 1) body]. *)
Definition for_range {S} (lo hi : Z) (body : Z -> S -> S) (s : S) : S :=
  foldl (fun s i => body i s) s (seqZ lo (hi - lo)).

(** The pixels of a [width] by [height] raster in scan order, as (row, column):
    the iterations of [for y < height] around [for x < width]. *)
Definition pixels (width height : Z) : list (Z * Z) :=
  y ← seqZ 0 height; (fun x => (y, x)) <$> seqZ 0 width.

(** [Array.prototype.sort] with a comparator [cmp a b < 0] given as the
    test [before a b]: the sort is stable, so an element is inserted in
    front of the first element it must strictly precede. *)
Section Sort.
Context {A : Type} (before : A -> A -> bool).

Fixpoint insert_sorted (x : A) (l : list A) : list A :=
  match l with
  | [] => [x]
  | y :: l' => if before x y
               then x :: y :: l'
               else y :: insert_sorted x l'
  end.

Definition sort (l : list A) : list A :=
  foldl (fun acc x => insert_sorted x acc) [] l.
End Sort.

End JS.

(** ** analysis.ts *)

Module Analysis.

(** [PostProcessOptions]. *)
Record PostProcessOptions : Type := {
  openingRadius : Z;
  closingRadius : Z;
  fillHolesOpt : bool;
  minBlobArea : Z;
}.

(** The offsets [-radius .. radius] of a structuring window. *)
Definition window (radius : Z) : list Z := seqZ (- radius) (2 * radius + 1).

(** One output pixel of [dilate]: some in-bounds tap of the window is set. *)
Definition dilate_val (mask : list Z) (width height radius y x : Z) : bool :=
  existsb (fun dy =>
    let yy := y + dy in
    if (yy <? 0) || (yy >=? height) then false
    else existsb (fun dx =>
           let xx := x + dx in
           if (xx <? 0) || (xx >=? width) then false
           else JS.test mask (yy * width + xx))
         (window radius))
    (window radius).

Definition dilate (mask : list Z) (width height radius : Z) : list Z :=
  if radius <=? 0 then mask
  else
    JS.for_range 0 height (fun y =>
      JS.for_range 0 width (fun x out =>
        let val := if dilate_val mask width height radius y x then 1 else 0 in
        JS.put out (y * width + x) val))
      (replicate (length mask) 0).

(** One output pixel of [erode]: every in-bounds tap of the window is set. *)
Definition erode_val (mask : list Z) (width height radius y x : Z) : bool :=
  forallb (fun dy =>
    let yy := y + dy in
    if (yy <? 0) || (yy >=? height) then true
    else forallb (fun dx =>
           let xx := x + dx in
           if (xx <? 0) || (xx >=? width) then true
           else JS.test mask (yy * width + xx))
         (window radius))
    (window radius).

Definition erode (mask : list Z) (width height radius : Z) : list Z :=
  if radius <=? 0 then mask
  else
    JS.for_range 0 height (fun y =>
      JS.for_range 0 width (fun x out =>
        let val := if erode_val mask width height radius y x then 1 else 0 in
        JS.put out (y * width + x) val))
      (replicate (length mask) 0).

(** The opening and the closing, which [postProcessMask] writes out as
    [dilate(erode(out, ..), ..)] and [erode(dilate(out, ..), ..)]. *)
Definition opening (mask : list Z) (width height radius : Z) : list Z :=
  dilate (erode mask width height radius) width height radius.

Definition closing (mask : list Z) (width height radius : Z) : list Z :=
  erode (dilate mask width height radius) width height radius.

(** *** Percentiles and normalisation *)

(** [Array.from(values).filter((v) => Number.isFinite(v))]. *)
Definition finite_samples (values : list JS.num) : list Q :=
  omap (fun v => match v with JS.Fin q => Some q | _ => None end) values.

(** The clamped rank [Math.min(n - 1, Math.max(0, Math.round((p / 100) * (n - 1))))]. *)
Definition percentile_index (n : Z) (p : Q) : Z :=
  Z.min (n - 1) (Z.max 0 (JS.round (p / 100 * inject_Z (n - 1))%Q)).

Definition percentile (values : list JS.num) (p : Q) : Q :=
  let arr := finite_samples values in
  match arr with
  | [] => 0%Q
  | _ :: _ =>
      let sorted := JS.sort JS.Qltb arr in
      default 0%Q (JS.get sorted (percentile_index (Z.of_nat (length arr)) p))
  end.

(** One output byte of a normalisation between the cut-offs [lo] and [lo + range]. *)
Definition normalize_sample (lo range : Q) (value : JS.num) : Z :=
  match JS.mul (JS.div (JS.sub value (JS.Fin lo)) (JS.Fin range)) (JS.Fin 255) with
  | JS.Fin v => Z.min 255 (Z.max 0 (JS.round v))
  | _ => 0
  end.

Definition normalizeToUint8 (values : list JS.num) : list Z :=
  let p2 := percentile values 2 in
  let p98 := percentile values 98 in
  let range := JS.Qmax (1 # 1000000) (p98 - p2)%Q in
  normalize_sample p2 range <$> values.

(** [data[i]] stored into a [Float32Array]: [undefined] becomes NaN. *)
Definition sample (data : list JS.num) (i : Z) : JS.num := default JS.NaN (JS.get data i).

(** The source coordinate of [resampleFloat32Nearest] for destination [d]. *)
Definition nearest_src (src dst d : Z) : Z :=
  Z.min (src - 1)
    (JS.round ((inject_Z d + (1 # 2)) * (inject_Z src / inject_Z dst) - (1 # 2))%Q).

Definition resampleFloat32Nearest
    (data : list JS.num) (srcWidth srcHeight dstWidth dstHeight : Z) : list JS.num :=
  if (srcWidth =? dstWidth) && (srcHeight =? dstHeight) then data
  else
    JS.for_range 0 dstHeight (fun y =>
      let srcY := nearest_src srcHeight dstHeight y in
      JS.for_range 0 dstWidth (fun x dst =>
        let srcX := nearest_src srcWidth dstWidth x in
        JS.put dst (y * dstWidth + x) (sample data (srcY * srcWidth + srcX))))
      (replicate (Z.to_nat (dstWidth * dstHeight)) (JS.Fin 0)).

(** [a[i] ?? 0]: only a missing sample is replaced by zero. *)
Definition or_zero (a : list JS.num) (i : Z) : JS.num := default (JS.Fin 0) (JS.get a i).

Definition absoluteDifference (a b : list JS.num) : list JS.num :=
  (fun i => JS.abs (JS.sub (or_zero b i) (or_zero a i))) <$> seqZ 0 (Z.of_nat (length a)).

(** *** Otsu's threshold *)

(** [histogram[v] += 1] for every sample. *)
Definition histogram (values : list Z) : list Z :=
  foldl (fun h v => alter Z.succ (Z.to_nat v) h) (replicate 256 0) values.

(** The variables of the scan over the bins; [stopped] records the [break]. *)
Record otsu_state : Type := {
  sumB : Z;
  wB : Z;
  varMax : Q;
  threshold : Z;
  stopped : bool;
}.

(** The between-class variance as the loop body computes it from the two
    class weights, the sum of the lower class and the total sum. *)
Definition class_variance (wB wF sumB sum : Z) : Q :=
  let mB := (inject_Z sumB / inject_Z wB)%Q in
  let mF := (inject_Z (sum - sumB) / inject_Z wF)%Q in
  (inject_Z wB * inject_Z wF * (mB - mF) * (mB - mF))%Q.

Definition otsu_step (hist : list Z) (total sum : Z) (i : Z) (s : otsu_state) : otsu_state :=
  if stopped s then s
  else
    let wB' := wB s + JS.item hist i in
    if wB' =? 0 then
      {| sumB := sumB s; wB := wB'; varMax := varMax s;
         threshold := threshold s; stopped := false |}
    else
      let wF := total - wB' in
      if wF =? 0 then
        {| sumB := sumB s; wB := wB'; varMax := varMax s;
           threshold := threshold s; stopped := true |}
      else
        let sumB' := sumB s + i * JS.item hist i in
        let variance := class_variance wB' wF sumB' sum in
        if JS.Qgtb variance (varMax s) then
          {| sumB := sumB'; wB := wB'; varMax := variance;
             threshold := i; stopped := false |}
        else
          {| sumB := sumB'; wB := wB'; varMax := varMax s;
             threshold := threshold s; stopped := false |}.

Definition otsu_scan (hist : list Z) (total sum : Z) (bins : Z) : otsu_state :=
  JS.for_range 0 bins (otsu_step hist total sum)
    {| sumB := 0; wB := 0; varMax := 0%Q; threshold := 0; stopped := false |}.

Definition otsuThreshold (values : list Z) : Z :=
  let hist := histogram values in
  let total := Z.of_nat (length values) in
  let sum := JS.for_range 0 256 (fun i sum => sum + i * JS.item hist i) 0 in
  threshold (otsu_scan hist total sum 256).

(** **** The textbook quantity, stated on the pixels

    With the pixels split at bin [t] into the class of values [<= t] and the
    class of values [> t], the between-class variance is
    [wB * wF * (mB - mF)^2] for the class sizes [wB], [wF] and the class means
    [mB], [mF]; it is zero when one class is empty. *)

Definition lower_class (values : list Z) (t : Z) : list Z :=
  filter (fun v => v <= t) values.

Definition sum_list (values : list Z) : Z := foldr Z.add 0 values.

Definition between_class_variance (values : list Z) (t : Z) : Q :=
  let wB := Z.of_nat (length (lower_class values t)) in
  let wF := Z.of_nat (length values) - wB in
  if (wB =? 0) || (wF =? 0) then 0%Q
  else class_variance wB wF (sum_list (lower_class values t)) (sum_list values).

(** [t] is the first of the 256 bins at which the variance is greatest. *)
Definition first_best_bin (values : list Z) (t : Z) : Prop :=
  (0 <= t < 256) /\
  (forall i, 0 <= i < 256 ->
     (between_class_variance values i <= between_class_variance values t)%Q) /\
  (forall i, 0 <= i < t ->
     (between_class_variance values i < between_class_variance values t)%Q).

(** *** One-dimensional k-means *)

(** The nearest centre of [v]: the first index at the least distance. *)
Definition nearest_center (centers : list Q) (v : Z) : Z :=
  (foldl (fun '(c, (minDist, idx)) center =>
          let dist := Qabs (inject_Z v - center) in
          let closer := match minDist with
                        | None => true
                        | Some d => JS.Qltb dist d
                        end in
          if closer then (c + 1, (Some dist, c)) else (c + 1, (minDist, idx)))
        (0, (None, 0)) centers).2.2.

Definition kmeans_iteration (values : list Z) (cl : list Q * list Z) : list Q * list Z :=
  let centers := cl.1 in
  let labels := (fun v => nearest_center centers v mod 256) <$> values in
  let zeros := replicate (length centers) 0 in
  let sums := foldl (fun s lv => alter (Z.add lv.2) (Z.to_nat lv.1) s) zeros (zip labels values) in
  let counts := foldl (fun s l => alter Z.succ (Z.to_nat l) s) zeros labels in
  let centers' :=
    imap (fun c center =>
            let count := nth c counts 0 in
            if count =? 0 then center
            else (inject_Z (nth c sums 0%Z) / inject_Z count)%Q) centers in
  (centers', labels).

Definition kmeans1D (values : list Z) (clusters iterations : Z) : list Q * list Z :=
  let n := Z.of_nat (length values) in
  let step := Z.max 1 (n / clusters) in
  let centers := (fun i => inject_Z (JS.item values (Z.min (n - 1) (i * step)))) <$> seqZ 0 clusters in
  JS.for_range 0 iterations (fun _ => kmeans_iteration values)
    (centers, replicate (length values) 0).

(** *** Local averages *)

Definition local_sum_count (values : list Z) (width height radius y x : Z) : Z * Z :=
  foldl (fun acc dy =>
    let yy := y + dy in
    if (yy <? 0) || (yy >=? height) then acc
    else foldl (fun acc dx =>
           let xx := x + dx in
           if (xx <? 0) || (xx >=? width) then acc
           else (acc.1 + JS.item values (yy * width + xx), acc.2 + 1))
         acc (window radius))
    (0, 0) (window radius).

Definition localAverage (values : list Z) (width height radius : Z) : list Q :=
  JS.for_range 0 height (fun y =>
    JS.for_range 0 width (fun x out =>
      let sc := local_sum_count values width height radius y x in
      JS.put out (y * width + x)
        (if sc.2 =? 0 then inject_Z (JS.item values (y * width + x))
         else (inject_Z sc.1 / inject_Z sc.2)%Q)))
    (replicate (length values) 0%Q).

(** *** Segmentation *)

Inductive Algorithm : Type :=
| otsu | kmeans | adaptive | isolation_forest | lof | pca.

Inductive SpeckleKind : Type :=
| speckle_none | lee | kuan | frost.

(** [ChangeDetectionOptions]; an absent optional field is [None]. *)
Record ChangeDetectionOptions : Type := {
  algorithm : Algorithm;
  kmeansClusters : option Z;
  kmeansIterations : option Z;
  contamination : option Q;
  isolationTrees : option Z;
  otsuManualThreshold : option Q;
  speckleFilter : option SpeckleKind;
  speckleSize : option Z;
  postProcess : PostProcessOptions;
}.

(** [sorted[Math.max(0, Math.min(n - 1, Math.round(n * (1 - contamination))))]]. *)
Definition rank_threshold {A} (sorted : list A) (contamination : Q) : option A :=
  let n := Z.of_nat (length sorted) in
  JS.get sorted (Z.max 0 (Z.min (n - 1) (JS.round (inject_Z n * (1 - contamination))%Q))).

Definition bit (b : bool) : Z := if b then 1 else 0.

Section Segmentation.
(** [Math.sqrt] on the non-negative rationals. *)
Variable Math_sqrt : Q -> Q.

Definition computeMask (diff : list Z) (width height : Z)
    (options : ChangeDetectionOptions) : list Z :=
  let contamination :=
    JS.Qmin (1 # 2) (JS.Qmax (5 # 10000) (default (1 # 100) (contamination options))) in
  match algorithm options with
  | otsu =>
      let threshold :=
        match otsuManualThreshold options with
        | Some manual => JS.round (manual * 255)%Q
        | None => otsuThreshold diff
        end in
      (fun d => bit (d >? threshold)) <$> diff
  | adaptive =>
      let local := localAverage diff width height 3 in
      zip_with (fun d l => bit (JS.Qgtb (inject_Z d) (l + 8)%Q)) diff local
  | kmeans =>
      let clusters := Z.max 2 (default 2 (kmeansClusters options)) in
      let iterations := Z.max 1 (default 6 (kmeansIterations options)) in
      let '(centers, labels) := kmeans1D diff clusters iterations in
      let sorted := JS.sort (fun a b => JS.Qltb a.1 b.1) (imap (fun idx value => (value, Z.of_nat idx)) centers) in
      let changeCluster := default 0 (snd <$> last sorted) in
      (fun l => bit (l =? changeCluster)) <$> labels
  | isolation_forest =>
      let sorted := JS.sort Z.ltb diff in
      match rank_threshold sorted contamination with
      | Some threshold => (fun d => bit (d >=? threshold)) <$> diff
      | None => (fun _ => 0) <$> diff
      end
  | lof =>
      let local := localAverage diff width height 2 in
      zip_with (fun d l => bit (JS.Qgtb (inject_Z d - l)%Q 12)) diff local
  | pca =>
      let n := inject_Z (Z.of_nat (length diff)) in
      let mean := (foldl (fun m v => m + inject_Z v) 0 diff / n)%Q in
      let variance :=
        (foldl (fun s v => s + (inject_Z v - mean) * (inject_Z v - mean)) 0 diff / n)%Q in
      let std := JS.Qmax (Math_sqrt variance) (1 # 1000000) in
      let scores := (fun value => Qabs ((inject_Z value - mean) / std)) <$> diff in
      let sorted := JS.sort JS.Qltb scores in
      match rank_threshold sorted contamination with
      | Some threshold => (fun s => bit (JS.Qgeb s threshold)) <$> scores
      | None => (fun _ => 0) <$> scores
      end
  end.
End Segmentation.

(** *** Flood fills *)

(** The four candidates [idx - 1, idx + 1, idx - width, idx + width]. *)
Definition neighbours (idx width : Z) : list Z :=
  [idx - 1; idx + 1; idx - width; idx + width].

(** [Math.abs(nx - x) + Math.abs(ny - y) > 1] for the pixels [n] and [idx]. *)
Definition not_adjacent (n idx width : Z) : bool :=
  let y := idx / width in
  let x := Z.rem idx width in
  let ny := n / width in
  let nx := Z.rem n width in
  Z.abs (nx - x) + Z.abs (ny - y) >? 1.

(** The work list of a flood fill is a stack: its top is the head. *)
Definition pushIfBackground (out : list Z) (idx : Z) (vq : list Z * list Z) : list Z * list Z :=
  if (idx <? 0) || (idx >=? Z.of_nat (length out)) then vq
  else if JS.test out idx || JS.test vq.1 idx then vq
  else (JS.put vq.1 idx 1, idx :: vq.2).

Fixpoint fill_loop (fuel : nat) (out : list Z) (width : Z) (vq : list Z * list Z)
    : option (list Z) :=
  match vq.2 with
  | [] => Some vq.1
  | idx :: queue =>
      match fuel with
      | O => None
      | S fuel' =>
          fill_loop fuel' out width
            (foldl (fun vq n =>
                      if (n <? 0) || (n >=? Z.of_nat (length out)) then vq
                      else if not_adjacent n idx width then vq
                      else pushIfBackground out n vq)
                   (vq.1, queue) (neighbours idx width))
      end
  end.

Definition fillHoles (mask : list Z) (width height : Z) : option (list Z) :=
  let out := mask in
  let vq0 := (replicate (length mask) 0, []) in
  let vq1 := JS.for_range 0 width (fun x vq =>
               pushIfBackground out ((height - 1) * width + x)
                 (pushIfBackground out x vq)) vq0 in
  let vq2 := JS.for_range 0 height (fun y vq =>
               pushIfBackground out (y * width + (width - 1))
                 (pushIfBackground out (y * width) vq)) vq1 in
  visited ← fill_loop (S (length mask)) out width vq2;
  Some (zip_with (fun o v => if negb (JS.truthy o) && negb (JS.truthy v) then 1 else o)
          out visited).

(** The [while] loop of [removeSmallComponents]; the state is the visited
    marks, the stack and the component collected so far. *)
Fixpoint component_loop (fuel : nat) (mask : list Z) (width : Z)
    (visited queue component : list Z) : option (list Z * list Z) :=
  match queue with
  | [] => Some (visited, component)
  | idx :: queue' =>
      match fuel with
      | O => None
      | S fuel' =>
          let vq :=
            foldl (fun vq n =>
                     if (n <? 0) || (n >=? Z.of_nat (length mask)) then vq
                     else if negb (JS.test mask n) || JS.test vq.1 n then vq
                     else if not_adjacent n idx width then vq
                     else (JS.put vq.1 n 1, n :: vq.2))
                  (visited, queue') (neighbours idx width) in
          component_loop fuel' mask width vq.1 vq.2 (component ++ [idx])
      end
  end.

Definition removeSmallComponents (mask : list Z) (width height minArea : Z)
    : option (list Z) :=
  if minArea <=? 1 then Some mask
  else
    fst <$>
    JS.for_range 0 (Z.of_nat (length mask)) (fun i st =>
      '(out, visited) ← st;
      if negb (JS.test mask i) || JS.test visited i then Some (out, visited)
      else
        '(visited', component) ←
          component_loop (S (length mask)) mask width (JS.put visited i 1) [i] [];
        if Z.of_nat (length component) <? minArea
        then Some (foldl (fun out idx => JS.put out idx 0) out component, visited')
        else Some (out, visited'))
      (Some (mask, replicate (length mask) 0)).

Definition postProcessMask (mask : list Z) (width height : Z)
    (options : PostProcessOptions) : option (list Z) :=
  let out := mask in
  let out :=
    if openingRadius options >? 0
    then opening out width height (openingRadius options)
    else out in
  let out :=
    if closingRadius options >? 0
    then closing out width height (closingRadius options)
    else out in
  out ← (if fillHolesOpt options then fillHoles out width height else Some out);
  if minBlobArea options >? 1
  then removeSmallComponents out width height (minBlobArea options)
  else Some out.

(** *** Speckle filtering *)

Section Speckle.
(** [Math.exp]. *)
Variable Math_exp : JS.num -> JS.num.

Definition eps : JS.num := JS.Fin (1 # 1000000).

(** The window sums [sum], [sumSq] and the tap count of one pixel. *)
Definition window_sums (values : list JS.num) (width height radius y x : Z)
    : JS.num * JS.num * Z :=
  foldl (fun acc dy =>
    let yy := y + dy in
    if (yy <? 0) || (yy >=? height) then acc
    else foldl (fun acc dx =>
           let xx := x + dx in
           if (xx <? 0) || (xx >=? width) then acc
           else
             let value := sample values (yy * width + xx) in
             (JS.add acc.1.1 value, JS.add acc.1.2 (JS.mul value value), acc.2 + 1))
         acc (window radius))
    (JS.Fin 0, JS.Fin 0, 0) (window radius).

(** The two caches [meanCache] and [varCache]. *)
Definition speckle_caches (values : list JS.num) (width height radius : Z)
    : list JS.num * list JS.num :=
  JS.for_range 0 height (fun y =>
    JS.for_range 0 width (fun x caches =>
      let '(sum, sumSq, count) := window_sums values width height radius y x in
      let idx := y * width + x in
      let meanCache :=
        JS.put caches.1 idx
          (if count =? 0 then sample values idx
           else JS.div sum (JS.Fin (inject_Z count))) in
      let m := sample meanCache idx in
      let varCache :=
        JS.put caches.2 idx
          (JS.max (JS.Fin 0)
             (if count =? 0 then JS.Fin 0
              else JS.sub (JS.div sumSq (JS.Fin (inject_Z count))) (JS.mul m m))) in
      (meanCache, varCache)))
    (replicate (length values) (JS.Fin 0), replicate (length values) (JS.Fin 0)).

Definition overall_mean (values : list JS.num) : JS.num :=
  JS.div (foldl JS.add (JS.Fin 0) values) (JS.Fin (inject_Z (Z.of_nat (length values)))).

Definition overall_var (values : list JS.num) : JS.num :=
  let overallMean := overall_mean values in
  JS.div
    (foldl (fun acc val =>
              JS.add acc (JS.mul (JS.sub val overallMean) (JS.sub val overallMean)))
           (JS.Fin 0) values)
    (JS.Fin (inject_Z (Z.of_nat (length values)))).

Definition speckle_pixel (filter : SpeckleKind) (overallVar value mean variance : JS.num)
    : JS.num :=
  match filter with
  | lee =>
      let w := JS.div variance (JS.add (JS.add variance overallVar) eps) in
      JS.add mean (JS.mul w (JS.sub value mean))
  | kuan =>
      let enl := JS.Fin 4 in
      let ci2 := JS.div variance (JS.max (JS.mul mean mean) eps) in
      let sigmaS2 := JS.div (JS.Fin 1) enl in
      let w := JS.max (JS.Fin 0)
                 (JS.min (JS.Fin 1)
                    (JS.sub (JS.Fin 1) (JS.div sigmaS2 (JS.max ci2 eps)))) in
      JS.add mean (JS.mul w (JS.sub value mean))
  | frost =>
      let damping := JS.Fin 2 in
      let coeff :=
        Math_exp (JS.div (JS.mul (JS.neg damping) variance) (JS.max overallVar eps)) in
      JS.add (JS.mul coeff mean) (JS.mul (JS.sub (JS.Fin 1) coeff) value)
  | speckle_none => value
  end.

(** The contents of the buffer [applySpeckleFilter] returns; an absent
    [filter] or [size] argument takes its default, ["none"] and [3]. *)
Definition applySpeckleFilter (values : list JS.num) (width height : Z)
    (filter : option SpeckleKind) (size : option Z) : list JS.num :=
  let filter := default speckle_none filter in
  let size := default 3 size in
  if match filter with speckle_none => true | _ => false end || (size <=? 1)
  then values
  else
    let radius := Z.max 1 (size / 2) in
    let '(meanCache, varCache) := speckle_caches values width height radius in
    let overallVar := overall_var values in
    (fun i => speckle_pixel filter overallVar
                (sample values i) (sample meanCache i) (sample varCache i))
      <$> seqZ 0 (Z.of_nat (length values)).

(** **** The same function over a store of buffers

    To speak about which buffer is returned, typed arrays live in a store
    and are passed by reference; [new Float32Array(..)] allocates. *)

Definition loc : Type := nat.
Definition store : Type := gmap nat (list JS.num).

Definition alloc (contents : list JS.num) (s : store) : loc * store :=
  let l := fresh (dom s) in (l, <[l := contents]> s).

Definition applySpeckleFilter_ref (values : loc) (width height : Z)
    (filter : option SpeckleKind) (size : option Z) (s : store) : option (loc * store) :=
  vs ← s !! values;
  let kind := default speckle_none filter in
  let sz := default 3 size in
  if match kind with speckle_none => true | _ => false end || (sz <=? 1)
  then Some (alloc vs s)
  else
    let radius := Z.max 1 (sz / 2) in
    let caches := speckle_caches vs width height radius in
    let '(_, s1) := alloc caches.1 s in
    let '(_, s2) := alloc caches.2 s1 in
    Some (alloc (applySpeckleFilter vs width height filter size) s2).
End Speckle.

(** *** The change analysis *)

(** What [readSingleBand] yields for one file. *)
Record TiffReadResult : Type := {
  width : Z;
  height : Z;
  data : list JS.num;
  bbox : option (Q * Q * Q * Q);
  pixelScale : option (JS.num * JS.num);
}.

(** The numeric fields of [ChangeDetectionResult]. *)
Record ChangeDetectionResult : Type := {
  mask : list Z;
  diff : list Z;
  changedPixels : Z;
  changePercentage : JS.num;
  changeAreaKm2 : option JS.num;
  bounds : option (Q * Q * Q * Q);
  originalWidth : Z;
  originalHeight : Z;
}.

(** [processedMask.reduce((acc, value) => acc + (value ? 1 : 0), 0)]. *)
Definition count_set (mask : list Z) : Z :=
  foldl (fun acc value => acc + (if JS.truthy value then 1 else 0)) 0 mask.

Section Analyze.
Variable Math_sqrt : Q -> Q.
Variable Math_exp : JS.num -> JS.num.

(** [analyzeChange] from the two decoded rasters on; the previews, which
    only render the arrays computed here, are left out. *)
Definition analyzeChange (before after : TiffReadResult)
    (options : ChangeDetectionOptions) : option ChangeDetectionResult :=
  let targetWidth := width after in
  let targetHeight := height after in
  let alignedBefore :=
    if (width before =? targetWidth) && (height before =? targetHeight)
    then data before
    else resampleFloat32Nearest (data before) (width before) (height before)
           targetWidth targetHeight in
  let alignedAfter := data after in
  let w := targetWidth in
  let h := targetHeight in
  let filteredBefore :=
    applySpeckleFilter Math_exp alignedBefore w h
      (Some (default speckle_none (speckleFilter options)))
      (Some (default 3 (speckleSize options))) in
  let filteredAfter :=
    applySpeckleFilter Math_exp alignedAfter w h
      (Some (default speckle_none (speckleFilter options)))
      (Some (default 3 (speckleSize options))) in
  let diff := absoluteDifference filteredBefore filteredAfter in
  let diffDisplay := normalizeToUint8 diff in
  let rawMask := computeMask Math_sqrt diffDisplay w h options in
  processedMask ← postProcessMask rawMask w h (postProcess options);
  let changedPixels := count_set processedMask in
  let changePercentage :=
    JS.mul (JS.div (JS.Fin (inject_Z changedPixels)) (JS.Fin (inject_Z (w * h))))
           (JS.Fin 100) in
  let changeAreaKm2 :=
    match (match pixelScale after with Some ps => Some ps | None => pixelScale before end) with
    | Some ps =>
        let pixelArea := JS.abs (JS.mul ps.1 ps.2) in
        if JS.isFinite pixelArea && JS.ltb (JS.Fin 0) pixelArea
        then Some (JS.div (JS.mul (JS.Fin (inject_Z changedPixels)) pixelArea)
                          (JS.Fin 1000000))
        else None
    | None => None
    end in
  Some {| mask := processedMask;
          diff := diffDisplay;
          changedPixels := changedPixels;
          changePercentage := changePercentage;
          changeAreaKm2 := changeAreaKm2;
          bounds := match bbox after with Some b => Some b | None => bbox before end;
          originalWidth := w;
          originalHeight := h |}.
End Analyze.

End Analysis.

(** ** objectDetection.ts *)

Module ObjectDetection.

(** [BoundingBox]; the fields are [x], [y], [width] and [height]. *)
Record BoundingBox : Type := {
  box_x : Q;
  box_y : Q;
  box_width : Q;
  box_height : Q;
}.

Inductive UrbanFeatureCategory : Type :=
| building | border_wall | bridge | river | urban_feature.

(** [CATEGORY_LABELS]. *)
Definition CATEGORY_LABELS (c : UrbanFeatureCategory) : string :=
  match c with
  | building => "Building"
  | border_wall => "Border Wall"
  | bridge => "Bridge"
  | river => "River"
  | urban_feature => "Urban Feature"
  end.

(** The ring of a [DetectionPolygon], as (longitude, latitude) pairs. *)
Definition DetectionPolygon : Type := list (Q * Q).

Record DetectionBox : Type := {
  id : string;
  label : string;
  categoryId : UrbanFeatureCategory;
  confidence : Q;
  bbox : BoundingBox;
  previewBox : BoundingBox;
  areaPixels : Z;
  centroid : Q * Q;
  centroidPreview : Q * Q;
  footprint : option DetectionPolygon;
  notes : option string;
}.

Record ObjectDetectionOptions : Type := {
  thresholdPercentile : Q;
  minAreaPixels : Z;
  maxDetections : option Z;
}.

Definition DEFAULT_OPTIONS : ObjectDetectionOptions :=
  {| thresholdPercentile := 95; minAreaPixels := 40; maxDetections := Some 200 |}.

Definition DEFAULT_PREVIEW_EDGE : Z := 1200.

(** [clamp(value, min = 0, max = 1)]. *)
Definition clamp (value : Q) : Q := JS.Qmin 1 (JS.Qmax 0 value).

(** [percentile]: the same computation as in analysis.ts. *)
Definition percentile (values : list JS.num) (p : Q) : Q :=
  let copy := Analysis.finite_samples values in
  match copy with
  | [] => 0%Q
  | _ :: _ =>
      let sorted := JS.sort JS.Qltb copy in
      default 0%Q (JS.get sorted (Analysis.percentile_index (Z.of_nat (length copy)) p))
  end.

(** A byte array read as numbers. *)
Definition bytes (values : list Z) : list JS.num := (fun v => JS.Fin (inject_Z v)) <$> values.

Definition normalize (values : list JS.num) : list Z :=
  let p2 := percentile values 2 in
  let p99 := percentile values (995 # 10) in
  let range := JS.Qmax (1 # 1000000) (p99 - p2)%Q in
  Analysis.normalize_sample p2 range <$> values.

(** The preview size [downscale] produces. *)
Definition downscale_size (width height maxEdge : Z) : Z * Z :=
  if Z.max width height <=? maxEdge then (width, height)
  else
    let scale := (inject_Z maxEdge / inject_Z (Z.max width height))%Q in
    (Z.max 1 (JS.round (inject_Z width * scale)%Q),
     Z.max 1 (JS.round (inject_Z height * scale)%Q)).

Definition resampleNearest (data : list Z) (srcW srcH dstW dstH : Z) : list Z :=
  JS.for_range 0 dstH (fun y =>
    let srcY := Analysis.nearest_src srcH dstH y in
    JS.for_range 0 dstW (fun x dst =>
      let srcX := Analysis.nearest_src srcW dstW x in
      JS.put dst (y * dstW + x) (JS.item data (srcY * srcW + srcX))))
    (replicate (Z.to_nat (dstW * dstH)) 0).

(** The two linear maps of [buildPolygon], pixel to degrees. *)
Definition toLon (minX maxX : Q) (width : Z) (px : Q) : Q :=
  (minX + (px / inject_Z (Z.max (width - 1) 1)) * (maxX - minX))%Q.

Definition toLat (minY maxY : Q) (height : Z) (py : Q) : Q :=
  (maxY - (py / inject_Z (Z.max (height - 1) 1)) * (maxY - minY))%Q.

(** Bounds are rationals here, so the two spans are finite and the test
    [Number.isFinite] of the source always passes. *)
Definition buildPolygon (bbox : BoundingBox) (imageBounds : option (Q * Q * Q * Q))
    (width height : Z) : option DetectionPolygon :=
  match imageBounds with
  | None => None
  | Some (minX, minY, maxX, maxY) =>
      let x0 := box_x bbox in
      let y0 := box_y bbox in
      let x1 := (box_x bbox + box_width bbox)%Q in
      let y1 := (box_y bbox + box_height bbox)%Q in
      let lon := toLon minX maxX width in
      let lat := toLat minY maxY height in
      Some [ (lon x0, lat y1); (lon x1, lat y1); (lon x1, lat y0);
             (lon x0, lat y0); (lon x0, lat y1) ]
  end.

(** **** The round trip the specification states

    The inverses of the two linear maps, degrees to pixel, and the pixel
    corners in the order of the ring. *)





(** *** Connected components *)

Definition push (mask : list Z) (index : Z) (vs : list Z * list Z) : list Z * list Z :=
  if (index <? 0) || (index >=? Z.of_nat (length mask)) then vs
  else if negb (JS.test mask index) || JS.test vs.1 index then vs
  else (JS.put vs.1 index 1, index :: vs.2).

(** The eight pushes of one popped pixel, in the order of the source. *)
Definition around (current width : Z) : list Z :=
  [current - 1; current + 1; current - width; current + width;
   current - width - 1; current - width + 1; current + width - 1; current + width + 1].

Fixpoint component_from (fuel : nat) (mask : list Z) (width : Z)
    (visited stack component : list Z) : option (list Z * list Z) :=
  match stack with
  | [] => Some (visited, component)
  | current :: stack' =>
      match fuel with
      | O => None
      | S fuel' =>
          let vs := foldl (fun vs n => push mask n vs) (visited, stack') (around current width) in
          component_from fuel' mask width vs.1 vs.2 (component ++ [current])
      end
  end.

Definition floodFillComponents (mask : list Z) (width height : Z)
    : option (list (list Z)) :=
  snd <$>
  JS.for_range 0 (Z.of_nat (length mask)) (fun idx st =>
    '(visited, components) ← st;
    if negb (JS.test mask idx) || JS.test visited idx then Some (visited, components)
    else
      '(visited', component) ←
        component_from (S (length mask)) mask width (JS.put visited idx 1) [idx] [];
      Some (visited', components ++ [component]))
    (Some (replicate (length mask) 0, [])).

(** *** The locally adaptive mask *)

Definition u32 (v : Z) : Z := v mod 4294967296.

Definition computeIntegralImage (values : list Z) (width height : Z) : list Z :=
  JS.for_range 1 (height + 1) (fun y ii =>
    snd (JS.for_range 1 (width + 1) (fun x '(rowSum, ii) =>
           let v := JS.item values ((y - 1) * width + (x - 1)) in
           let rowSum := rowSum + v in
           (rowSum,
            JS.put ii (y * (width + 1) + x)
              (u32 (JS.item ii ((y - 1) * (width + 1) + x) + rowSum))))
         (0, ii)))
    (replicate (Z.to_nat ((width + 1) * (height + 1))) 0).

Definition localMean (ii : list Z) (x0 y0 x1 y1 widthPlus1 : Z) : Q :=
  let A := JS.item ii (y0 * widthPlus1 + x0) in
  let B := JS.item ii (y0 * widthPlus1 + x1) in
  let C := JS.item ii (y1 * widthPlus1 + x0) in
  let D := JS.item ii (y1 * widthPlus1 + x1) in
  (inject_Z (D - B - C + A) / inject_Z ((x1 - x0) * (y1 - y0)))%Q.

Definition adaptiveBinaryMask (values : list Z) (width height window offset : Z) : list Z :=
  let ii := computeIntegralImage values width height in
  let wp1 := width + 1 in
  JS.for_range 0 height (fun y =>
    let y0 := Z.max 0 (y - window / 2) in
    let y1 := Z.min height (y0 + window) in
    JS.for_range 0 width (fun x mask =>
      let x0 := Z.max 0 (x - window / 2) in
      let x1 := Z.min width (x0 + window) in
      let mean := localMean ii x0 y0 x1 y1 wp1 in
      JS.put mask (y * width + x)
        (Analysis.bit (JS.Qgeb (inject_Z (JS.item values (y * width + x)))
                         (JS.Qmax 0 (mean - inject_Z offset)%Q)))))
    (replicate (length values) 0).

(** *** Non-maximum suppression *)

Definition iou (a b : BoundingBox) : Q :=
  let x0 := JS.Qmax (box_x a) (box_x b) in
  let y0 := JS.Qmax (box_y a) (box_y b) in
  let x1 := JS.Qmin (box_x a + box_width a) (box_x b + box_width b) in
  let y1 := JS.Qmin (box_y a + box_height a) (box_y b + box_height b) in
  let w := JS.Qmax 0 (x1 - x0) in
  let h := JS.Qmax 0 (y1 - y0) in
  let inter := (w * h)%Q in
  let union := (box_width a * box_height a + box_width b * box_height b - inter)%Q in
  if JS.Qgtb union 0 then (inter / union)%Q else 0%Q.

(** The comparator [(a, b) => b.confidence - a.confidence] is negative when
    [a] has the greater confidence. *)
Definition more_confident (a b : DetectionBox) : bool :=
  JS.Qltb (confidence b) (confidence a).

Definition nonMaximumSuppression (boxes : list DetectionBox) (threshold : Q)
    : list DetectionBox :=
  let sorted := JS.sort more_confident boxes in
  foldl (fun keep box =>
           if existsb (fun k => JS.Qgeb (iou (bbox box) (bbox k)) threshold) keep
           then keep
           else keep ++ [box])
        [] sorted.

Definition createBinaryMask (data : list Z) (threshold : Q) : list Z :=
  (fun d => Analysis.bit (JS.Qgeb (inject_Z d) threshold)) <$> data.

(** *** The morphological close of the detector *)

Inductive Operation : Type := op_dilate | op_erode.

Definition operate_val (source : list Z) (width height : Z) (operation : Operation)
    (y x : Z) : Z :=
  let taps := [-1; 0; 1] in
  match operation with
  | op_dilate =>
      Analysis.bit (existsb (fun dy =>
        let yy := y + dy in
        if (yy <? 0) || (yy >=? height) then false
        else existsb (fun dx =>
               let xx := x + dx in
               if (xx <? 0) || (xx >=? width) then false
               else JS.test source (yy * width + xx)) taps) taps)
  | op_erode =>
      Analysis.bit (forallb (fun dy =>
        let yy := y + dy in
        if (yy <? 0) || (yy >=? height) then true
        else forallb (fun dx =>
               let xx := x + dx in
               if (xx <? 0) || (xx >=? width) then true
               else JS.test source (yy * width + xx)) taps) taps)
  end.

Definition operate (source target : list Z) (width height : Z) (operation : Operation)
    : list Z :=
  JS.for_range 0 height (fun y =>
    JS.for_range 0 width (fun x target =>
      JS.put target (y * width + x) (operate_val source width height operation y x)))
    target.

Definition applyMorphology (mask : list Z) (width height : Z) : list Z :=
  let temp := operate mask (replicate (length mask) 0) width height op_dilate in
  operate temp (replicate (length mask) 0) width height op_erode.

(** *** Zhang-Suen thinning *)

Definition neighborCoords : list (Z * Z) :=
  [(-1, -1); (0, -1); (1, -1); (1, 0); (1, 1); (0, 1); (-1, 1); (-1, 0)].

(** The eight neighbour values [vals] of the pixel [(x, y)], each 0 or 1. *)
Definition neighbour_vals (img : list Z) (width x y : Z) : list Z :=
  (fun d => Analysis.bit (JS.test img ((y + d.2) * width + (x + d.1)))) <$> neighborCoords.

(** The number of steps [k] with [vals[k] === 0 && vals[(k + 1) % 8] === 1]. *)
Definition transitions (vals : list Z) : Z :=
  JS.for_range 0 8 (fun k t =>
    if (JS.item vals k =? 0) && (JS.item vals ((k + 1) mod 8) =? 1) then t + 1 else t) 0.

(** The pixel [(x, y)] is put on [toRemove] in the given pass. *)
Definition removable (img : list Z) (width pass x y : Z) : bool :=
  if negb (JS.test img (y * width + x)) then false
  else
    let vals := neighbour_vals img width x y in
    let neighbors := foldl Z.add 0 vals in
    if (neighbors <? 2) || (neighbors >? 6) then false
    else if negb (transitions vals =? 1) then false
    else
      let p2 := JS.truthy (JS.item vals 1) && JS.truthy (JS.item vals 3)
                && JS.truthy (JS.item vals 5) in
      let p4 := JS.truthy (JS.item vals 3) && JS.truthy (JS.item vals 5)
                && JS.truthy (JS.item vals 7) in
      if pass =? 0
      then (if p2 then false else if p4 then false else true)
      else (if p2 then false else if p4 then false else true).

(** The list [toRemove] of one pass over the interior of the image. *)
Definition thin_pass (img : list Z) (width height pass : Z) : list Z :=
  JS.for_range 1 (height - 1) (fun y =>
    JS.for_range 1 (width - 1) (fun x toRemove =>
      if removable img width pass x y then toRemove ++ [y * width + x] else toRemove))
    [].

(** [toRemove.forEach((i) => { img[i] = 0; })]. *)
Definition clear_pixels (img toRemove : list Z) : list Z :=
  foldl (fun img i => JS.put img i 0) img toRemove.

(** One round of the outer loop: the two passes, and the flag [changing]. *)
Definition thin_round (img : list Z) (width height : Z) : list Z * bool :=
  JS.for_range 0 2 (fun pass st =>
    let toRemove := thin_pass st.1 width height pass in
    (clear_pixels st.1 toRemove,
     match toRemove with [] => st.2 | _ :: _ => true end))
    (img, false).

(** [while (changing)], entered with [changing] true. *)
Fixpoint thin_loop (fuel : nat) (img : list Z) (width height : Z) : option (list Z) :=
  match fuel with
  | O => None
  | S fuel' =>
      let st := thin_round img width height in
      if st.2 then thin_loop fuel' st.1 width height else Some st.1
  end.

Definition zhangSuenThin (mask : list Z) (width height : Z) : option (list Z) :=
  thin_loop (S (length mask)) mask width height.

(** The number of set pixels of an image: the measure of the thinning loop. *)
Definition set_pixels (img : list Z) : nat := length (filter (fun v => v <> 0) img).

Definition skeletonLength (component : list Z) (width : Z) (mask : list Z) : Z :=
  foldl (fun count idx => if JS.test mask idx then count + 1 else count) 0 component.

(** *** Classification *)

Record ClassificationMetrics : Type := {
  m_areaPixels : Z;
  m_boundingArea : Z;
  m_fillRatio : Q;
  m_aspectRatio : Q;
  m_majorAxis : Z;
  m_minorAxis : Z;
}.

Record Classification : Type := {
  c_categoryId : UrbanFeatureCategory;
  c_notes : option string;
  c_shapeScore : Q;
}.

Record Candidate : Type := {
  cand_categoryId : UrbanFeatureCategory;
  cand_score : Q;
  cand_notes : string;
}.

Definition classifyUrbanFeature (metrics : ClassificationMetrics) : Classification :=
  let areaPixels := inject_Z (m_areaPixels metrics) in
  let fillRatio := m_fillRatio metrics in
  let aspectRatio := m_aspectRatio metrics in
  let majorAxis := inject_Z (m_majorAxis metrics) in
  let minorAxis := inject_Z (m_minorAxis metrics) in
  let candidates : list Candidate := [] in
  let buildingSize := clamp ((areaPixels - 1200) / 7000) in
  let buildingDensity := clamp ((fillRatio - (22 # 100)) / (4 # 10)) in
  let buildingAspect := clamp (1 - Qabs (aspectRatio - (16 # 10)) / 3) in
  let buildingScore :=
    clamp (buildingSize * (4 # 10) + buildingDensity * (4 # 10) + buildingAspect * (2 # 10)) in
  let candidates :=
    if JS.Qgtb buildingScore (25 # 100) && (m_areaPixels metrics >=? 1000)
    then candidates ++
         [{| cand_categoryId := building;
             cand_score := (55 # 100) + (45 # 100) * buildingScore;
             cand_notes := "Dense rectangular scatter consistent with building footprint" |}]
    else candidates in
  let bridgeElongation := clamp ((aspectRatio - (35 # 10)) / (65 # 10)) in
  let bridgeSpan := clamp ((majorAxis - 40) / 140) in
  let bridgeWidth := clamp (1 - Qabs (minorAxis - 18) / 28) in
  let bridgeDensity := clamp ((fillRatio - (2 # 10)) / (45 # 100)) in
  let bridgeScore :=
    clamp (bridgeElongation * (35 # 100) + bridgeSpan * (25 # 100)
           + bridgeDensity * (25 # 100) + bridgeWidth * (15 # 100)) in
  let candidates :=
    if JS.Qgtb bridgeScore (25 # 100) && (m_majorAxis metrics >=? 40)
       && (m_minorAxis metrics <=? 80)
    then candidates ++
         [{| cand_categoryId := bridge;
             cand_score := (5 # 10) + (5 # 10) * bridgeScore;
             cand_notes := "Linear span with strong return suggests bridge or elevated crossing" |}]
    else candidates in
  let wallElongation := clamp ((aspectRatio - 6) / 8) in
  let wallSlenderness := clamp (1 - (minorAxis - 3) / 22) in
  let wallDiffusion := clamp (((35 # 100) - fillRatio) / (35 # 100)) in
  let wallScore :=
    clamp (wallElongation * (45 # 100) + wallSlenderness * (35 # 100)
           + wallDiffusion * (2 # 10)) in
  let candidates :=
    if JS.Qgtb wallScore (2 # 10) && (m_majorAxis metrics >=? 35)
    then candidates ++
         [{| cand_categoryId := border_wall;
             cand_score := (5 # 10) + (5 # 10) * wallScore;
             cand_notes := "Long, narrow scatter consistent with defensive wall or perimeter" |}]
    else candidates in
  let riverArea := clamp (areaPixels / 20000) in
  let riverDiffuse := clamp (((3 # 10) - fillRatio) / (3 # 10)) in
  let riverElongation := clamp ((aspectRatio - 2) / 8) in
  let riverWidth := clamp ((minorAxis - 6) / 40) in
  let riverScore :=
    clamp (riverArea * (35 # 100) + riverDiffuse * (35 # 100)
           + riverElongation * (2 # 10) + riverWidth * (1 # 10)) in
  let candidates :=
    if JS.Qgtb riverScore (2 # 10) && (m_areaPixels metrics >=? 900)
    then candidates ++
         [{| cand_categoryId := river;
             cand_score := (5 # 10) + (5 # 10) * riverScore;
             cand_notes := "Broad, diffuse return likely from river or drainage channel" |}]
    else candidates in
  match JS.sort (fun a b => JS.Qltb (cand_score b) (cand_score a)) candidates with
  | best :: _ =>
      {| c_categoryId := cand_categoryId best;
         c_notes := Some (cand_notes best);
         c_shapeScore := clamp (cand_score best) |}
  | [] =>
      let fallbackScore :=
        clamp (clamp (areaPixels / 6000) * (5 # 10) + clamp (fillRatio / (45 # 100)) * (5 # 10)) in
      {| c_categoryId := urban_feature;
         c_notes := Some "Irregular scatter requires analyst confirmation";
         c_shapeScore := (35 # 100) + (4 # 10) * fallbackScore |}
  end%Q.

(** *** Detection boxes *)

Definition zero_box : BoundingBox :=
  {| box_x := 0; box_y := 0; box_width := 0; box_height := 0 |}.

(** The running [minX, minY, maxX, maxY, sum] of the [forEach] over a component. *)
Definition extent (pixels data : list Z) (width height : Z) : Z * Z * Z * Z * Z :=
  foldl (fun '(minX, minY, maxX, maxY, sum) idx =>
           let y := idx / width in
           let x := Z.rem idx width in
           (if x <? minX then x else minX,
            if y <? minY then y else minY,
            if x >? maxX then x else maxX,
            if y >? maxY then y else maxY,
            sum + JS.item data idx))
        (width, height, 0, 0, 0) pixels.

(** The local mask of a component's bounding box. *)
Definition component_mask (mask : list Z) (width bx by_ bw bh : Z) : list Z :=
  JS.for_range 0 bh (fun py =>
    JS.for_range 0 bw (fun px compMask =>
      let gx := bx + px in
      let gy := by_ + py in
      let i := gy * width + gx in
      JS.put compMask (py * bw + px) (Analysis.bit (JS.test mask i))))
    (replicate (Z.to_nat (bw * bh)) 0).

(** What [buildDetectionBoxes] derives from one component that passes the
    two area tests. *)
Record Measured : Type := {
  ms_bbox : Z * Z * Z * Z;
  ms_major : Z;
  ms_aspectRatio : Q;
  ms_linearity : Q;
  ms_classification : Classification;
  ms_baseConfidence : Q;
  ms_adjustedShapeScore : Q;
  ms_forcedCategory : option UrbanFeatureCategory;
  ms_confidence : Q;
  ms_centroid : Q * Q;
}.

Definition measure (pixels mask data : list Z) (width height : Z) (thresholdValue : Q)
    : option Measured :=
  let '(minX, minY, maxX, maxY, sum) := extent pixels data width height in
  let bx := minX in
  let by_ := minY in
  let bw := maxX - minX + 1 in
  let bh := maxY - minY + 1 in
  let area := bw * bh in
  let n := inject_Z (Z.of_nat (length pixels)) in
  let averageIntensity := (inject_Z sum / n)%Q in
  let baseConfidence :=
    clamp ((averageIntensity - thresholdValue) / JS.Qmax 1 (255 - thresholdValue)) in
  let sumX := foldl (fun acc idx => acc + Z.rem idx width) 0 pixels in
  let sumY := foldl (fun acc idx => acc + idx / width) 0 pixels in
  let centroidX := (inject_Z sumX / n)%Q in
  let centroidY := (inject_Z sumY / n)%Q in
  let detectionArea := area in
  let fillRatio := (n / inject_Z (Z.max 1 detectionArea))%Q in
  let major := Z.max bw bh in
  let minor := Z.max 1 (Z.min bw bh) in
  let aspectRatio := (inject_Z major / inject_Z minor)%Q in
  let classification :=
    classifyUrbanFeature
      {| m_areaPixels := Z.of_nat (length pixels);
         m_boundingArea := detectionArea;
         m_fillRatio := fillRatio;
         m_aspectRatio := aspectRatio;
         m_majorAxis := major;
         m_minorAxis := minor |} in
  let compMask := component_mask mask width bx by_ bw bh in
  skel ← zhangSuenThin compMask bw bh;
  let sklen := skeletonLength ((fun idx => idx - by_ * width - bx) <$> pixels) bw skel in
  let linearity := clamp (inject_Z sklen / inject_Z (Z.max 1 (Z.of_nat (length pixels)))) in
  let adjustedShapeScore := c_shapeScore classification in
  let '(forcedCategory, adjustedShapeScore) :=
    if JS.Qgtb linearity (25 # 100) && (major >=? 20) then
      if JS.Qgtb aspectRatio 3 || (major >? 50)
      then (Some bridge,
            clamp (JS.Qmax adjustedShapeScore ((6 # 10) + linearity * (4 # 10))))
      else (Some border_wall,
            clamp (JS.Qmax adjustedShapeScore ((55 # 100) + linearity * (35 # 100))))
    else (None, adjustedShapeScore) in
  let confidence := clamp (baseConfidence * (5 # 10) + adjustedShapeScore * (5 # 10)) in
  Some {| ms_bbox := (bx, by_, bw, bh);
          ms_major := major;
          ms_aspectRatio := aspectRatio;
          ms_linearity := linearity;
          ms_classification := classification;
          ms_baseConfidence := baseConfidence;
          ms_adjustedShapeScore := adjustedShapeScore;
          ms_forcedCategory := forcedCategory;
          ms_confidence := confidence;
          ms_centroid := (centroidX, centroidY) |}.

(** The box pushed for a measured component, the [n]-th of the list. *)
Definition box_of (n : nat) (pixels : list Z) (m : Measured) : DetectionBox :=
  let '(bx, by_, bw, bh) := ms_bbox m in
  let category := default (c_categoryId (ms_classification m)) (ms_forcedCategory m) in
  {| id := "det-" +:+ pretty n;
     label := CATEGORY_LABELS category;
     categoryId := category;
     confidence := ms_confidence m;
     bbox := {| box_x := inject_Z bx; box_y := inject_Z by_;
                box_width := inject_Z bw; box_height := inject_Z bh |};
     previewBox := zero_box;
     areaPixels := Z.of_nat (length pixels);
     centroid := ms_centroid m;
     centroidPreview := (0%Q, 0%Q);
     footprint := None;
     notes := c_notes (ms_classification m) |}.

(** The bounding area of a component, tested before anything else is derived. *)
Definition bounding_area (pixels data : list Z) (width height : Z) : Z :=
  let '(minX, minY, maxX, maxY, _) := extent pixels data width height in
  (maxX - minX + 1) * (maxY - minY + 1).

(** The loop over the components; it is left once [maxDetections], when it
    is a non-zero number, is reached. *)
Fixpoint build_loop (components : list (list Z)) (mask data : list Z) (width height : Z)
    (options : ObjectDetectionOptions) (thresholdValue : Q) (boxes : list DetectionBox)
    : option (list DetectionBox) :=
  match components with
  | [] => Some boxes
  | pixels :: rest =>
      if Z.of_nat (length pixels) <? minAreaPixels options
      then build_loop rest mask data width height options thresholdValue boxes
      else if bounding_area pixels data width height <? minAreaPixels options
      then build_loop rest mask data width height options thresholdValue boxes
      else
        m ← measure pixels mask data width height thresholdValue;
        let boxes := boxes ++ [box_of (length boxes + 1) pixels m] in
        match maxDetections options with
        | Some cap =>
            if negb (cap =? 0) && (Z.of_nat (length boxes) >=? cap)
            then Some boxes
            else build_loop rest mask data width height options thresholdValue boxes
        | None => build_loop rest mask data width height options thresholdValue boxes
        end
  end.

Definition buildDetectionBoxes (components : list (list Z)) (mask data : list Z)
    (width height : Z) (options : ObjectDetectionOptions) : option (list DetectionBox) :=
  let thresholdValue := percentile (bytes data) (thresholdPercentile options) in
  build_loop components mask data width height options thresholdValue [].

(** *** The detector *)

Record DetectionStatistics : Type := {
  totalDetections : Z;
  threshold : Q;
  minimumArea : Z;
  averageConfidence : Q;
}.

(** The numeric fields of [ObjectDetectionResult]. *)
Record ObjectDetectionResult : Type := {
  thresholdValue : Q;
  res_width : Z;
  res_height : Z;
  previewWidth : Z;
  previewHeight : Z;
  boxes : list DetectionBox;
  stats : DetectionStatistics;
  featureCollection : list DetectionPolygon;
  res_bounds : option (Q * Q * Q * Q);
  res_pixelScale : option (JS.num * JS.num);
}.

(** [Partial<ObjectDetectionOptions>] spread over [DEFAULT_OPTIONS]. *)
Record PartialOptions : Type := {
  opt_thresholdPercentile : option Q;
  opt_minAreaPixels : option Z;
  opt_maxDetections : option Z;
}.

Definition merge_options (incoming : option PartialOptions) : ObjectDetectionOptions :=
  match incoming with
  | None => DEFAULT_OPTIONS
  | Some o =>
      {| thresholdPercentile :=
           default (thresholdPercentile DEFAULT_OPTIONS) (opt_thresholdPercentile o);
         minAreaPixels := default (minAreaPixels DEFAULT_OPTIONS) (opt_minAreaPixels o);
         maxDetections :=
           match opt_maxDetections o with
           | Some m => Some m
           | None => maxDetections DEFAULT_OPTIONS
           end |}
  end.

Definition with_id (prefix : string) (boxes : list DetectionBox) : list DetectionBox :=
  imap (fun i b =>
          {| id := prefix +:+ pretty (i + 1)%nat; label := label b;
             categoryId := categoryId b; confidence := confidence b; bbox := bbox b;
             previewBox := previewBox b; areaPixels := areaPixels b;
             centroid := centroid b; centroidPreview := centroidPreview b;
             footprint := footprint b; notes := notes b |}) boxes.

(** A box found at a scale, mapped back to the original raster. *)
Definition map_back (factor : Q) (b : DetectionBox) : DetectionBox :=
  {| id := id b; label := label b; categoryId := categoryId b;
     confidence := confidence b;
     bbox :=
       {| box_x := inject_Z (JS.round (box_x (bbox b) / factor)%Q);
          box_y := inject_Z (JS.round (box_y (bbox b) / factor)%Q);
          box_width := inject_Z (Z.max 1 (JS.round (box_width (bbox b) / factor)%Q));
          box_height := inject_Z (Z.max 1 (JS.round (box_height (bbox b) / factor)%Q)) |};
     previewBox := previewBox b; areaPixels := areaPixels b;
     centroid := ((centroid b).1 / factor, (centroid b).2 / factor)%Q;
     centroidPreview := centroidPreview b;
     footprint := footprint b; notes := notes b |}.

(** The boxes of one scale factor. *)
Definition boxes_at_scale (normalized : list Z) (width height : Z)
    (options : ObjectDetectionOptions) (s : Q) : option (list DetectionBox) :=
  let targetW := Z.max 1 (JS.round (inject_Z width * s)%Q) in
  let targetH := Z.max 1 (JS.round (inject_Z height * s)%Q) in
  let scaled :=
    if Qeq_bool s 1 then normalized
    else resampleNearest normalized width height targetW targetH in
  let scaledThreshold := percentile (bytes scaled) (thresholdPercentile options) in
  let mask := applyMorphology (createBinaryMask scaled scaledThreshold) targetW targetH in
  comps ← floodFillComponents mask targetW targetH;
  found ← buildDetectionBoxes comps mask scaled targetW targetH options;
  let factor := (inject_Z targetW / inject_Z width)%Q in
  Some (map (map_back factor) found).

(** The boxes before the preview geometry is attached. *)
Definition detect_boxes (data : list JS.num) (width height : Z)
    (options : ObjectDetectionOptions) : option (list DetectionBox) :=
  let normalized := normalize data in
  let scaleFactors := [1; 1 # 2; 1 # 4]%Q in
  allBoxes ←
    foldl (fun acc s =>
             allBoxes ← acc;
             boxesAtScale ← boxes_at_scale normalized width height options s;
             Some (allBoxes ++ boxesAtScale))
          (Some []) scaleFactors;
  let boxes := nonMaximumSuppression (with_id "ms-" allBoxes) (35 # 100) in
  let averageY :=
    match boxes with
    | [] => inject_Z height
    | _ :: _ =>
        (foldl (fun s b => s + box_y (bbox b) + box_height (bbox b) / 2) 0 boxes
         / inject_Z (Z.of_nat (length boxes)))%Q
    end in
  if (Z.of_nat (length boxes) <? 12) || JS.Qltb averageY (inject_Z height * (2 # 10))%Q
  then
    let altThreshold := JS.Qmax 0 (thresholdPercentile options - 8)%Q in
    let altValue := percentile (bytes normalized) altThreshold in
    let altMask := applyMorphology (createBinaryMask normalized altValue) width height in
    altComponents ← floodFillComponents altMask width height;
    altBoxes ←
      buildDetectionBoxes altComponents altMask normalized width height
        {| thresholdPercentile := altThreshold;
           minAreaPixels := minAreaPixels options;
           maxDetections := maxDetections options |};
    let localMask :=
      applyMorphology (adaptiveBinaryMask normalized width height 64 12) width height in
    localComponents ← floodFillComponents localMask width height;
    localBoxes ←
      buildDetectionBoxes localComponents localMask normalized width height options;
    let merged := boxes ++ altBoxes ++ localBoxes in
    let dedup := with_id "m-" merged in
    Some (nonMaximumSuppression dedup (35 # 100))
  else Some boxes.

(** The preview geometry and the footprint [detectObjects] attaches to a box. *)
Definition with_preview (afterFile : Analysis.TiffReadResult) (scaleX scaleY : Q)
    (box : DetectionBox) : DetectionBox :=
  {| id := id box; label := label box; categoryId := categoryId box;
     confidence := confidence box; bbox := bbox box;
     previewBox :=
       {| box_x := box_x (bbox box) * scaleX; box_y := box_y (bbox box) * scaleY;
          box_width := box_width (bbox box) * scaleX;
          box_height := box_height (bbox box) * scaleY |};
     areaPixels := areaPixels box; centroid := centroid box;
     centroidPreview := ((centroid box).1 * scaleX, (centroid box).2 * scaleY)%Q;
     footprint :=
       buildPolygon (bbox box) (Analysis.bbox afterFile)
         (Analysis.width afterFile) (Analysis.height afterFile);
     notes := notes box |}.

(** [detectObjects] from the decoded raster on; the canvases are left out. *)
Definition detectObjects (afterFile : Analysis.TiffReadResult)
    (incomingOptions : option PartialOptions) : option ObjectDetectionResult :=
  let options := merge_options incomingOptions in
  let data := Analysis.data afterFile in
  let width := Analysis.width afterFile in
  let height := Analysis.height afterFile in
  let normalized := normalize data in
  let thresholdValue := percentile (bytes normalized) (thresholdPercentile options) in
  found ← detect_boxes data width height options;
  let '(downW, downH) := downscale_size width height DEFAULT_PREVIEW_EDGE in
  let scaleX := (inject_Z downW / inject_Z width)%Q in
  let scaleY := (inject_Z downH / inject_Z height)%Q in
  let boxes := map (with_preview afterFile scaleX scaleY) found in
  Some {| thresholdValue := thresholdValue;
          res_width := width;
          res_height := height;
          previewWidth := downW;
          previewHeight := downH;
          boxes := boxes;
          stats :=
            {| totalDetections := Z.of_nat (length boxes);
               threshold := thresholdPercentile options;
               minimumArea := minAreaPixels options;
               averageConfidence :=
                 match boxes with
                 | [] => 0%Q
                 | _ :: _ =>
                     (foldl (fun acc box => acc + confidence box) 0 boxes
                      / inject_Z (Z.of_nat (length boxes)))%Q
                 end |};
          featureCollection := omap footprint boxes;
          res_bounds := Analysis.bbox afterFile;
          res_pixelScale := Analysis.pixelScale afterFile |}.

End ObjectDetection.

(** * Vocabulary of the properties

    The predicates, measures and example inputs the properties below are
    stated with. *)

(** ** Morphology *)

(** [q] is a pixel of the raster inside the window centred at [p]. *)
Definition tap (width height radius : Z) (p q : Z * Z) : Prop :=
  (0 <= q.1 < height /\ 0 <= q.2 < width) /\
  (- radius <= q.1 - p.1 <= radius /\ - radius <= q.2 - p.2 <= radius).

(** Two masks that agree on every pixel of the raster. *)
Definition same_pixels (width height : Z) (m1 m2 : list Z) : Prop :=
  forall q, 0 <= q.1 < height -> 0 <= q.2 < width ->
    JS.test m1 (q.1 * width + q.2) = JS.test m2 (q.1 * width + q.2).

(** ** Histograms *)

Definition occurrences (values : list Z) (i : Z) : Z :=
  Z.of_nat (length (filter (fun v => v = i) values)).

Definition count_le (values : list Z) (t : Z) : Z :=
  Z.of_nat (length (Analysis.lower_class values t)).

Definition sum_le (values : list Z) (t : Z) : Z :=
  Analysis.sum_list (Analysis.lower_class values t).

(** What holds of the variables of Otsu's scan once the bins below [k] are
    scanned. *)
Record scan_inv (values : list Z) (k : Z) (s : Analysis.otsu_state) : Prop := {
  inv_running : Analysis.stopped s = false ->
    Analysis.wB s = count_le values (k - 1) /\ Analysis.sumB s = sum_le values (k - 1);
  inv_stopped : Analysis.stopped s = true ->
    count_le values (k - 1) = Z.of_nat (length values);
  inv_bin : 0 <= Analysis.threshold s < 256;
  inv_max : forall i, 0 <= i < k ->
    (Analysis.between_class_variance values i <= Analysis.varMax s)%Q;
  inv_first : forall i, 0 <= i < Analysis.threshold s ->
    (Analysis.between_class_variance values i < Analysis.varMax s)%Q;
  inv_value :
    (Analysis.varMax s == Analysis.between_class_variance values (Analysis.threshold s))%Q
    \/ ((Analysis.varMax s == 0)%Q /\ Analysis.threshold s = 0);
  inv_nonneg : (0 <= Analysis.varMax s)%Q;
}.

(** ** Flood fills *)

(** The marks still clear in [visited], and the work a flood fill has left:
    the stack plus the pixels it may still push. *)
Definition zeros (v : list Z) : nat := length (filter (fun x => x = 0) v).
Definition work (vq : list Z * list Z) : nat := (length vq.2 + zeros vq.1)%nat.

(** ** Non-finite samples *)


(** ** Boxes *)

#[local] Instance Qeq_decision (x y : Q) : Decision (x == y)%Q := Qeq_dec x y.

(** [a] may stand before [b] in a list of descending confidence. *)
Definition descending (a b : ObjectDetection.DetectionBox) : Prop :=
  (ObjectDetection.confidence b <= ObjectDetection.confidence a)%Q.

(** The area of the intersection of two boxes, as [iou] computes it. *)
Definition intersection (a b : ObjectDetection.BoundingBox) : Q :=
  (JS.Qmax 0 (JS.Qmin (ObjectDetection.box_x a + ObjectDetection.box_width a)
                      (ObjectDetection.box_x b + ObjectDetection.box_width b)
              - JS.Qmax (ObjectDetection.box_x a) (ObjectDetection.box_x b))
   * JS.Qmax 0 (JS.Qmin (ObjectDetection.box_y a + ObjectDetection.box_height a)
                        (ObjectDetection.box_y b + ObjectDetection.box_height b)
                - JS.Qmax (ObjectDetection.box_y a) (ObjectDetection.box_y b)))%Q.

(** The later box [b] overlaps the earlier box [a] by less than [t]. *)
Definition apart (t : Q) (a b : ObjectDetection.DetectionBox) : Prop :=
  (ObjectDetection.iou (ObjectDetection.bbox b) (ObjectDetection.bbox a) < t)%Q.

(** ** Example inputs *)
(** A 4 by 4 scene: flat before, a bright 2 by 2 block after. *)
Definition flat_scene : Analysis.TiffReadResult :=
  {| Analysis.width := 4; Analysis.height := 4;
     Analysis.data := replicate 16 (JS.Fin 10);
     Analysis.bbox := None; Analysis.pixelScale := None |}.

Definition block_scene : Analysis.TiffReadResult :=
  {| Analysis.width := 4; Analysis.height := 4;
     Analysis.data :=
       JS.Fin <$> [10; 10; 10; 10;
                   10; 250; 250; 10;
                   10; 250; 250; 10;
                   10; 10; 10; 10]%Q;
     Analysis.bbox := None; Analysis.pixelScale := None |}.

(** A raster without pixels. *)
Definition empty_scene : Analysis.TiffReadResult :=
  {| Analysis.width := 0; Analysis.height := 0; Analysis.data := [];
     Analysis.bbox := None; Analysis.pixelScale := None |}.

Definition otsu_options : Analysis.ChangeDetectionOptions :=
  {| Analysis.algorithm := Analysis.otsu;
     Analysis.kmeansClusters := None; Analysis.kmeansIterations := None;
     Analysis.contamination := None; Analysis.isolationTrees := None;
     Analysis.otsuManualThreshold := None;
     Analysis.speckleFilter := None; Analysis.speckleSize := None;
     Analysis.postProcess :=
       {| Analysis.openingRadius := 0; Analysis.closingRadius := 0;
          Analysis.fillHolesOpt := false; Analysis.minBlobArea := 0 |} |}.


(** An 8 by 8 scene: one bright pixel in the corner and a 4 by 4 block. *)
Definition two_blob_bytes : list Z :=
  [255; 0; 0; 0; 0; 0; 0; 0;
   0; 0; 0; 0; 0; 0; 0; 0;
   0; 0; 0; 0; 0; 0; 0; 0;
   0; 0; 0; 0; 0; 0; 0; 0;
   0; 0; 0; 0; 255; 255; 255; 255;
   0; 0; 0; 0; 255; 255; 255; 255;
   0; 0; 0; 0; 255; 255; 255; 255;
   0; 0; 0; 0; 255; 255; 255; 255].

Definition two_blob_scene : Analysis.TiffReadResult :=
  {| Analysis.width := 8; Analysis.height := 8;
     Analysis.data := ObjectDetection.bytes two_blob_bytes;
     Analysis.bbox := None; Analysis.pixelScale := None |}.

Definition at_most_one : ObjectDetection.PartialOptions :=
  {| ObjectDetection.opt_thresholdPercentile := None;
     ObjectDetection.opt_minAreaPixels := Some 1;
     ObjectDetection.opt_maxDetections := Some 1 |}.

(** A 5 by 20 scene: a bright vertical line in the first column. *)
Definition line_mask : list Z := mjoin (replicate 20 [1; 0; 0; 0; 0]).
Definition line_data : list Z := mjoin (replicate 20 [255; 0; 0; 0; 0]).
Definition line_pixels : list Z := (fun k => 5 * k) <$> seqZ 0 20.

Definition line_scene : Analysis.TiffReadResult :=
  {| Analysis.width := 5; Analysis.height := 20;
     Analysis.data := ObjectDetection.bytes line_data;
     Analysis.bbox := None; Analysis.pixelScale := None |}.

Definition small_area : ObjectDetection.PartialOptions :=
  {| ObjectDetection.opt_thresholdPercentile := None;
     ObjectDetection.opt_minAreaPixels := Some 10;
     ObjectDetection.opt_maxDetections := None |}.

(** A 3 by 3 block in the middle of a 5 by 5 mask, and the ring around its
    centre. *)
Definition block_3x3 : list Z :=
  [0; 0; 0; 0; 0;
   0; 1; 1; 1; 0;
   0; 1; 1; 1; 0;
   0; 1; 1; 1; 0;
   0; 0; 0; 0; 0].

Definition ring_3x3 : list Z :=
  [0; 0; 0; 0; 0;
   0; 1; 1; 1; 0;
   0; 1; 0; 1; 0;
   0; 1; 1; 1; 0;
   0; 0; 0; 0; 0].

(** A box with the given name, confidence and bounding box. *)
Definition plain_box (name : string) (conf x y w h : Q) : ObjectDetection.DetectionBox :=
  {| ObjectDetection.id := name;
     ObjectDetection.label := "";
     ObjectDetection.categoryId := ObjectDetection.urban_feature;
     ObjectDetection.confidence := conf;
     ObjectDetection.bbox :=
       {| ObjectDetection.box_x := x; ObjectDetection.box_y := y;
          ObjectDetection.box_width := w; ObjectDetection.box_height := h |};
     ObjectDetection.previewBox := ObjectDetection.zero_box;
     ObjectDetection.areaPixels := 0;
     ObjectDetection.centroid := (0, 0)%Q;
     ObjectDetection.centroidPreview := (0, 0)%Q;
     ObjectDetection.footprint := None;
     ObjectDetection.notes := None |}.

(** A 4 by 3 block inside a 6 by 5 image, and three boxes of which the first
    two overlap. *)
Definition thin_blob : list Z :=
  [0; 0; 0; 0; 0; 0;
   0; 1; 1; 1; 1; 0;
   0; 1; 1; 1; 1; 0;
   0; 1; 1; 1; 1; 0;
   0; 0; 0; 0; 0; 0].

Definition three_boxes : list ObjectDetection.DetectionBox :=
  [plain_box "a" (5 # 10) 0 0 10 10;
   plain_box "b" (9 # 10) 1 1 10 10;
   plain_box "c" (7 # 10) 50 50 10 10].

(** ** Holes *)

(** [i] is a background pixel of [mask]. *)
Definition background (mask : list Z) (i : Z) : Prop :=
  0 <= i < Z.of_nat (length mask) /\ JS.test mask i = false.

(** The indices [fillHoles] starts from: [x] and [(height - 1) * width + x]
    for the columns [x], [y * width] and [y * width + (width - 1)] for the
    rows [y]. *)
Definition border (width height i : Z) : Prop :=
  (exists x, 0 <= x < width /\ (i = x \/ i = (height - 1) * width + x)) \/
  (exists y, 0 <= y < height /\ (i = y * width \/ i = y * width + (width - 1))).

(** The background pixels joined to the border by a path of background
    pixels, each step going to one of the four neighbours in the raster. *)
Inductive outside (mask : list Z) (width height : Z) : Z -> Prop :=
| outside_border i :
    border width height i -> background mask i -> outside mask width height i
| outside_step i j :
    outside mask width height i ->
    j ∈ Analysis.neighbours i width ->
    Analysis.not_adjacent j i width = false ->
    background mask j ->
    outside mask width height j.

(** What holds of the marks [vq.1] and the stack [vq.2] while [fillHoles]
    runs: every mark is on an outside pixel, the stack holds marked pixels,
    and a marked pixel off the stack has its background neighbours marked. *)
Record fill_inv (out : list Z) (width height : Z) (vq : list Z * list Z) : Prop := {
  fill_len : length vq.1 = length out;
  fill_sound : forall i, JS.test vq.1 i = true -> outside out width height i;
  fill_queued : forall i, i ∈ vq.2 -> JS.test vq.1 i = true;
  fill_closed : forall i, JS.test vq.1 i = true ->
    i ∈ vq.2 \/
    forall j, j ∈ Analysis.neighbours i width ->
      Analysis.not_adjacent j i width = false ->
      background out j -> JS.test vq.1 j = true;
}.

(** ** Searching a raster

    The two component searches of the source have one shape: a stack of
    marked pixels, and for the popped pixel [idx] a pass over its candidate
    neighbours, which marks and pushes each eligible one that is not marked
    yet. [elig idx n] stands for the tests a candidate [n] has to pass. *)
Section Search.
Variables (elig : Z -> Z -> bool) (nbrs : Z -> list Z).

Definition visit (idx : Z) (vq : list Z * list Z) (n : Z) : list Z * list Z :=
  if elig idx n && negb (JS.test vq.1 n) then (JS.put vq.1 n 1, n :: vq.2) else vq.

Fixpoint search (fuel : nat) (visited queue component : list Z)
    : option (list Z * list Z) :=
  match queue with
  | [] => Some (visited, component)
  | idx :: queue' =>
      match fuel with
      | O => None
      | S fuel' =>
          let vq := foldl (visit idx) (visited, queue') (nbrs idx) in
          search fuel' vq.1 vq.2 (component ++ [idx])
      end
  end.

(** One step of the search: from [i] to an eligible candidate [j]. *)
Definition search_step (i j : Z) : Prop := j ∈ nbrs i /\ elig i j = true.
End Search.

(** [i] is a set pixel of [mask]. *)
Definition foreground (mask : list Z) (i : Z) : Prop :=
  0 <= i < Z.of_nat (length mask) /\ JS.test mask i = true.

(** The marks [v] of a search over [mask] cover whole components: they lie
    on set pixels and are closed under the steps of the search. *)
Definition marks_inv (elig : Z -> Z -> bool) (nbrs : Z -> list Z) (mask v : list Z) : Prop :=
  length v = length mask /\
  (forall j, JS.test v j = true -> foreground mask j) /\
  (forall j j', JS.test v j = true -> search_step elig nbrs j j' -> JS.test v j' = true).

(** The tests of [removeSmallComponents] on a candidate [n] of the popped
    pixel [idx]: inside the array, set, and next to [idx] in the raster. *)
Definition elig4 (mask : list Z) (width idx n : Z) : bool :=
  negb ((n <? 0) || (n >=? Z.of_nat (length mask)))
  && JS.test mask n
  && negb (Analysis.not_adjacent n idx width).

(** [j] is reached from [i] over set pixels, each step going to one of the
    four neighbours in the raster. *)
Definition linked4 (mask : list Z) (width : Z) : Z -> Z -> Prop :=
  rtc (search_step (elig4 mask width) (fun i => Analysis.neighbours i width)).

(** The tests of [floodFillComponents] on a candidate: inside the array and
    set. *)
Definition elig8 (mask : list Z) (idx n : Z) : bool :=
  negb ((n <? 0) || (n >=? Z.of_nat (length mask))) && JS.test mask n.

(** [j] is reached from [i] over set pixels, each step going to one of the
    eight indices [around] a pixel. *)
Definition linked8 (mask : list Z) (width : Z) : Z -> Z -> Prop :=
  rtc (search_step (elig8 mask) (fun i => ObjectDetection.around i width)).

(** What [removeSmallComponents] leaves at the set pixel [j]: zero when the
    component of [j], listed without repetition as [comp], has fewer than
    [minArea] pixels, and the value of the mask otherwise. *)
Definition small_spec (mask : list Z) (width minArea : Z) (out : list Z) (j : Z) : Prop :=
  forall comp, NoDup comp -> (forall k, k ∈ comp <-> linked4 mask width j k) ->
    JS.get out j = if Z.of_nat (length comp) <? minArea then Some 0 else JS.get mask j.

(** The state (output, marks) of the outer loop of [removeSmallComponents]
    once the pixels [seen] are behind it. *)
Definition small_inv (mask : list Z) (width minArea : Z) (seen : list Z)
    (st : list Z * list Z) : Prop :=
  length st.1 = length mask /\
  marks_inv (elig4 mask width) (fun i => Analysis.neighbours i width) mask st.2 /\
  (forall j, j ∈ seen -> foreground mask j -> JS.test st.2 j = true) /\
  (forall j, JS.test st.2 j = false -> JS.get st.1 j = JS.get mask j) /\
  (forall j, JS.test st.2 j = true -> small_spec mask width minArea st.1 j).

(** Rewriting membership in a list built from [++] and [::]. *)
Ltac list_elems :=
  repeat (rewrite elem_of_app || rewrite elem_of_cons
          || rewrite list_elem_of_singleton || rewrite elem_of_nil).

(** [c] is the component of some set pixel: the pixels linked to it. *)
Definition component8 (mask : list Z) (width : Z) (c : list Z) : Prop :=
  exists seed, foreground mask seed /\ forall j, j ∈ c <-> linked8 mask width seed j.

(** The state (marks, components) of the outer loop of [floodFillComponents]
    once the pixels [seen] are behind it. *)
Definition flood_inv (mask : list Z) (width : Z) (seen : list Z)
    (st : list Z * list (list Z)) : Prop :=
  marks_inv (elig8 mask) (fun i => ObjectDetection.around i width) mask st.1 /\
  (forall j, j ∈ seen -> foreground mask j -> JS.test st.1 j = true) /\
  NoDup (concat st.2) /\
  (forall j, j ∈ concat st.2 <-> JS.test st.1 j = true) /\
  Forall (component8 mask width) st.2.

(** ** Classification *)

(** The size test a category has to pass in [classifyUrbanFeature]. *)
Definition category_gate (metrics : ObjectDetection.ClassificationMetrics)
    (c : ObjectDetection.UrbanFeatureCategory) : Prop :=
  match c with
  | ObjectDetection.building => 1000 <= ObjectDetection.m_areaPixels metrics
  | ObjectDetection.bridge =>
      40 <= ObjectDetection.m_majorAxis metrics /\ ObjectDetection.m_minorAxis metrics <= 80
  | ObjectDetection.border_wall => 35 <= ObjectDetection.m_majorAxis metrics
  | ObjectDetection.river => 900 <= ObjectDetection.m_areaPixels metrics
  | ObjectDetection.urban_feature => True
  end.

(** A candidate of [classifyUrbanFeature]: its category passed its test, is
    not the fallback, and its score lies between 0.5 and 1. *)
Definition candidate_ok (metrics : ObjectDetection.ClassificationMetrics)
    (c : ObjectDetection.Candidate) : Prop :=
  category_gate metrics (ObjectDetection.cand_categoryId c) /\
  ObjectDetection.cand_categoryId c <> ObjectDetection.urban_feature /\
  (1 # 2 <= ObjectDetection.cand_score c <= 1)%Q.

(** ** Detection boxes *)



(** The box [b] is accounted for by the kept boxes: it is one of them, or it
    overlaps one of at least its confidence by [t] or more. *)
Definition covered (t : Q) (keep : list ObjectDetection.DetectionBox)
    (b : ObjectDetection.DetectionBox) : Prop :=
  b ∈ keep \/
  exists k, k ∈ keep /\
    (t <= ObjectDetection.iou (ObjectDetection.bbox b) (ObjectDetection.bbox k))%Q /\
    (ObjectDetection.confidence b <= ObjectDetection.confidence k)%Q.

(** ** Normalisation *)

(** [out] is the contrast stretch of [values] between the cut-offs [lo] and
    [hi]: bytes, in the order of the finite samples, 0 up to [lo], and 255
    from [hi] on when the cut-offs are at least 1e-6 apart. *)
Definition stretch (lo hi : Q) (values : list JS.num) (out : list Z) : Prop :=
  length out = length values /\
  Forall (fun b => 0 <= b <= 255) out /\
  (forall (i j : nat) a b x y,
     values !! i = Some (JS.Fin a) -> values !! j = Some (JS.Fin b) -> (a <= b)%Q ->
     out !! i = Some x -> out !! j = Some y -> x <= y) /\
  (forall (i : nat) a,
     values !! i = Some (JS.Fin a) -> (a <= lo)%Q -> out !! i = Some 0) /\
  (forall (i : nat) a,
     values !! i = Some (JS.Fin a) -> (lo + (1 # 1000000) <= hi)%Q -> (hi <= a)%Q ->
     out !! i = Some 255).

(** ** Thinning *)

(** [b] is [a] with some interior pixels of the [width] by [height] raster
    cleared: thinning only ever writes 0 at a pixel off the border. *)
Definition thinned (width height : Z) (a b : list Z) : Prop :=
  length b = length a /\
  forall i, JS.get b i = JS.get a i \/
    (JS.get b i = Some 0 /\
     exists y x, 1 <= y < height - 1 /\ 1 <= x < width - 1 /\ i = y * width + x).

(** ** A raster compared with itself *)

(** A sample of the difference of a raster with itself: zero, or NaN where
    the raster is not finite. *)
Definition still (v : JS.num) : Prop :=
  match v with
  | JS.Fin q => (q == 0)%Q
  | JS.NaN => True
  | _ => False
  end.

(** A mask or byte array that is zero everywhere. *)
Definition blank (mask : list Z) : Prop := Forall (fun v => v = 0) mask.

(** The algorithms that flag every pixel of a flat difference. *)
Definition flags_flat (a : Analysis.Algorithm) : bool :=
  match a with
  | Analysis.isolation_forest | Analysis.pca => true
  | _ => false
  end.

(** Post-processing switched off: every step of [postProcessMask] skipped. *)
Definition no_post_processing (options : Analysis.PostProcessOptions) : Prop :=
  Analysis.openingRadius options <= 0 /\
  Analysis.closingRadius options <= 0 /\
  Analysis.fillHolesOpt options = false /\
  Analysis.minBlobArea options <= 1.

(** * Properties *)

(** ** Loops that fill a raster *)

Section RasterLoops.
Context {A : Type}.

Lemma get_put_eq (a : list A) (i : Z) (v : A) :
    0 <= i -> (Z.to_nat i < length a)%nat -> JS.get (JS.put a i v) i = Some v.
Proof.
    intros Hi Hlen. unfold JS.get, JS.put.
    destruct (i <? 0) eqn:E; [lia|].
    by apply list_lookup_insert_eq.
Qed.

Lemma get_put_ne (a : list A) (i j : Z) (v : A) :
    i <> j -> JS.get (JS.put a i v) j = JS.get a j.
Proof.
    intros Hne. unfold JS.get, JS.put.
    destruct (j <? 0) eqn:Ej; [done|].
    destruct (i <? 0) eqn:Ei; [done|].
    apply list_lookup_insert_ne. lia.
Qed.

Lemma length_put (a : list A) (i : Z) (v : A) :
    length (JS.put a i v) = length a.
Proof. unfold JS.put. destruct (i <? 0); [done|]. apply length_insert. Qed.

Lemma length_writes {P} (idx : P -> Z) (val : P -> A) (ps : list P) (a : list A) :
    length (JS.writes idx val ps a) = length a.
Proof.
    revert a. induction ps as [|p ps IH]; intros a; [done|].
    cbn. unfold JS.writes in IH. rewrite IH. apply length_put.
Qed.

Lemma writes_untouched {P} (idx : P -> Z) (val : P -> A) (ps : list P) (a : list A) i :
    (forall p, p ∈ ps -> idx p <> i) ->
    JS.get (JS.writes idx val ps a) i = JS.get a i.
Proof.
    revert a. induction ps as [|p ps IH]; intros a Hps; [done|].
    cbn. unfold JS.writes in IH. rewrite IH.
    - apply get_put_ne. apply Hps. by left.
    - intros q Hq. apply Hps. by right.
Qed.

Lemma writes_get {P} (idx : P -> Z) (val : P -> A) (ps : list P) (a : list A) i v :
    0 <= i -> (Z.to_nat i < length a)%nat ->
    (exists p, p ∈ ps /\ idx p = i) ->
    (forall p, p ∈ ps -> idx p = i -> val p = v) ->
    JS.get (JS.writes idx val ps a) i = Some v.
Proof.
    intros Hi. revert a. induction ps as [|p ps IH]; intros a Hlen [q [Hq Hqi]] Hval.
    - by apply elem_of_nil in Hq.
    - cbn. unfold JS.writes in IH.
      destruct (decide (Exists (fun p' => idx p' = i) ps)) as [Hex|Hnex].
      + apply IH.
        * by rewrite length_put.
        * apply Exists_exists in Hex. destruct Hex as [p' [? ?]]. eauto.
        * intros p' Hp'. apply Hval. by right.
      + assert (Hno : forall p', p' ∈ ps -> idx p' <> i).
        { intros p' Hp' Heq. apply Hnex. apply Exists_exists. eauto. }
        fold (JS.writes idx val ps (JS.put a (idx p) (val p))).
        rewrite writes_untouched by done.
        apply elem_of_cons in Hq. destruct Hq as [->|Hq].
        * rewrite Hqi, <- (Hval p); [by apply get_put_eq| by left | done].
        * by apply Hno in Hq.
Qed.
End RasterLoops.

Lemma for_range_invariant {S} (P : S -> Prop) (lo hi : Z) (body : Z -> S -> S) (s : S) :
  P s -> (forall i s, lo <= i < hi -> P s -> P (body i s)) -> P (JS.for_range lo hi body s).
Proof.
  intros Hs Hbody. unfold JS.for_range.
  assert (Hin : Forall (fun i => lo <= i < hi) (seqZ lo (hi - lo))).
  { apply Forall_forall. intros i Hi. apply elem_of_seqZ in Hi. lia. }
  revert s Hs. induction Hin as [|i l Hi Hin IH]; intros s Hs; [done|].
  cbn. apply IH. by apply Hbody.
Qed.

Section RasterFill.
Context {A : Type}.

Lemma elem_of_pixels width height y x :
  (y, x) ∈ JS.pixels width height <-> 0 <= y < height /\ 0 <= x < width.
Proof.
  unfold JS.pixels. rewrite list_elem_of_bind. split.
  - intros [y' [Hin Hy']]. apply list_elem_of_fmap in Hin.
    destruct Hin as [x' [Heq Hx']]. inversion Heq; subst.
    apply elem_of_seqZ in Hy', Hx'. lia.
  - intros [Hy Hx]. exists y. split.
    + apply list_elem_of_fmap. exists x. split; [done|]. apply elem_of_seqZ. lia.
    + apply elem_of_seqZ. lia.
Qed.

Lemma foldl_nested {S B C} (g : B -> C -> S -> S) (ys : list B) (xs : list C) (s : S) :
  foldl (fun s y => foldl (fun s x => g y x s) s xs) s ys =
  foldl (fun s p => g p.1 p.2 s) s (y ← ys; (fun x => (y, x)) <$> xs).
Proof.
  revert s. induction ys as [|y ys IH]; intros s; [done|].
  cbn. rewrite foldl_app, <- IH. f_equal. clear IH.
  revert s. induction xs as [|x xs IHx]; intros s; [done|]. cbn. apply IHx.
Qed.

(** The two nested [for] loops of a raster pass are a sequence of writes. *)
Lemma raster_loop_writes (f : Z -> Z -> A) (width height : Z) (out : list A) :
  JS.for_range 0 height (fun y =>
    JS.for_range 0 width (fun x out => JS.put out (y * width + x) (f y x))) out =
  JS.writes (fun p => p.1 * width + p.2) (fun p => f p.1 p.2) (JS.pixels width height) out.
Proof.
  unfold JS.for_range, JS.writes, JS.pixels. rewrite !Z.sub_0_r.
  apply (foldl_nested (fun y x s => JS.put s (y * width + x) (f y x))).
Qed.

Lemma raster_index_inj (width y x y' x' : Z) :
  0 <= x < width -> 0 <= x' < width ->
  y * width + x = y' * width + x' -> y = y' /\ x = x'.
Proof. intros Hx Hx' Heq. assert (y = y') by nia. subst. lia. Qed.

Lemma raster_loop_get (f : Z -> Z -> A) (width height : Z) (out : list A) y x :
  0 <= y < height -> 0 <= x < width ->
  length out = Z.to_nat (width * height) ->
  JS.get (JS.for_range 0 height (fun y =>
            JS.for_range 0 width (fun x out => JS.put out (y * width + x) (f y x))) out)
         (y * width + x) = Some (f y x).
Proof.
  intros Hy Hx Hlen. rewrite raster_loop_writes.
  apply writes_get.
  - nia.
  - rewrite Hlen. apply Z2Nat.inj_lt; nia.
  - exists (y, x). split; [by apply elem_of_pixels|done].
  - intros [y' x'] Hin Heq. apply elem_of_pixels in Hin. cbn in Heq.
    apply raster_index_inj in Heq; [|lia..]. destruct Heq as [-> ->]. done.
Qed.

Lemma raster_loop_length (f : Z -> Z -> A) (width height : Z) (out : list A) :
  length (JS.for_range 0 height (fun y =>
            JS.for_range 0 width (fun x out => JS.put out (y * width + x) (f y x))) out)
  = length out.
Proof. rewrite raster_loop_writes. apply length_writes. Qed.

Lemma raster_loop_ext (f g : Z -> Z -> A) (width height : Z) (out : list A) :
  (forall y x, 0 <= y < height -> 0 <= x < width -> f y x = g y x) ->
  JS.for_range 0 height (fun y =>
    JS.for_range 0 width (fun x out => JS.put out (y * width + x) (f y x))) out =
  JS.for_range 0 height (fun y =>
    JS.for_range 0 width (fun x out => JS.put out (y * width + x) (g y x))) out.
Proof.
  intros Hfg. rewrite !raster_loop_writes. unfold JS.writes.
  generalize (fun p : Z * Z => proj1 (elem_of_pixels width height p.1 p.2)).
  generalize (JS.pixels width height). intros ps. revert out.
  induction ps as [|[y x] ps IH]; intros out Hps; [done|].
  cbn. rewrite (Hfg y x).
  - apply IH. intros p Hp. apply Hps. destruct p. by right.
  - apply (Hps (y, x)). by left.
  - apply (Hps (y, x)). by left.
Qed.
End RasterFill.

(** ** Morphology: [dilate] and [erode] *)

Section Morphology.
Variables (width height radius : Z).
Hypothesis Hradius : 0 < radius.

Local Abbreviation tap := (tap width height radius).
Local Abbreviation same_pixels := (same_pixels width height).

Lemma tap_sym p q :
  0 <= p.1 < height -> 0 <= p.2 < width -> tap p q -> tap q p.
Proof. unfold tap. lia. Qed.

Lemma tap_refl p : 0 <= p.1 < height -> 0 <= p.2 < width -> tap p p.
Proof. unfold tap. lia. Qed.

Lemma elem_of_window dy : dy ∈ Analysis.window radius <-> - radius <= dy <= radius.
Proof. unfold Analysis.window. rewrite elem_of_seqZ. lia. Qed.

Lemma dilate_val_true mask y x :
  Analysis.dilate_val mask width height radius y x = true <->
  exists q, tap (y, x) q /\ JS.test mask (q.1 * width + q.2) = true.
Proof.
  unfold Analysis.dilate_val. rewrite existsb_exists. split.
  - intros [dy [Hdy Hrow]]. apply list_elem_of_In, elem_of_window in Hdy.
    cbn zeta in Hrow.
    destruct ((y + dy <? 0) || (y + dy >=? height)) eqn:Ey; [done|].
    apply existsb_exists in Hrow. destruct Hrow as [dx [Hdx Hcol]].
    apply list_elem_of_In, elem_of_window in Hdx. cbn zeta in Hcol.
    destruct ((x + dx <? 0) || (x + dx >=? width)) eqn:Ex; [done|].
    exists (y + dy, x + dx). split; [|done]. unfold tap; cbn. lia.
  - intros [[y' x'] [[[Hy Hx] [Hdy Hdx]] Hset]]. cbn in *.
    exists (y' - y). split; [apply list_elem_of_In, elem_of_window; lia|].
    cbn zeta. replace (y + (y' - y)) with y' by lia.
    destruct ((y' <? 0) || (y' >=? height)) eqn:Ey; [lia|].
    apply existsb_exists. exists (x' - x).
    split; [apply list_elem_of_In, elem_of_window; lia|].
    cbn zeta. replace (x + (x' - x)) with x' by lia.
    destruct ((x' <? 0) || (x' >=? width)) eqn:Ex; [lia|done].
Qed.

Lemma erode_val_true mask y x :
  Analysis.erode_val mask width height radius y x = true <->
  forall q, tap (y, x) q -> JS.test mask (q.1 * width + q.2) = true.
Proof.
  unfold Analysis.erode_val. rewrite forallb_forall. split.
  - intros Hall [y' x'] [[Hy Hx] [Hdy Hdx]]. cbn in *.
    specialize (Hall (y' - y)). cbn zeta in Hall.
    replace (y + (y' - y)) with y' in Hall by lia.
    destruct ((y' <? 0) || (y' >=? height)) eqn:Ey; [lia|].
    rewrite forallb_forall in Hall.
    assert (Hrow := Hall ltac:(apply list_elem_of_In, elem_of_window; lia) (x' - x)).
    cbn zeta in Hrow. replace (x + (x' - x)) with x' in Hrow by lia.
    destruct ((x' <? 0) || (x' >=? width)) eqn:Ex; [lia|].
    apply Hrow. apply list_elem_of_In, elem_of_window. lia.
  - intros Hall dy Hdy. apply list_elem_of_In, elem_of_window in Hdy. cbn zeta.
    destruct ((y + dy <? 0) || (y + dy >=? height)) eqn:Ey; [done|].
    apply forallb_forall. intros dx Hdx.
    apply list_elem_of_In, elem_of_window in Hdx. cbn zeta.
    destruct ((x + dx <? 0) || (x + dx >=? width)) eqn:Ex; [done|].
    apply (Hall (y + dy, x + dx)). unfold tap; cbn. lia.
Qed.

Lemma bool_if_truthy (b : bool) : JS.truthy (if b then 1 else 0) = b.
Proof. by destruct b. Qed.

Lemma length_dilate mask : length (Analysis.dilate mask width height radius) = length mask.
Proof.
  unfold Analysis.dilate. destruct (radius <=? 0); [done|].
  rewrite raster_loop_length. apply length_replicate.
Qed.

Lemma length_erode mask : length (Analysis.erode mask width height radius) = length mask.
Proof.
  unfold Analysis.erode. destruct (radius <=? 0); [done|].
  rewrite raster_loop_length. apply length_replicate.
Qed.

Lemma dilate_test mask y x :
  length mask = Z.to_nat (width * height) ->
  0 <= y < height -> 0 <= x < width ->
  JS.test (Analysis.dilate mask width height radius) (y * width + x) =
  Analysis.dilate_val mask width height radius y x.
Proof.
  intros Hlen Hy Hx. unfold Analysis.dilate, JS.test.
  destruct (radius <=? 0) eqn:E; [lia|].
  rewrite (raster_loop_get
    (fun y x => if Analysis.dilate_val mask width height radius y x then 1 else 0));
    [|done|done|by rewrite length_replicate].
  apply bool_if_truthy.
Qed.

Lemma erode_test mask y x :
  length mask = Z.to_nat (width * height) ->
  0 <= y < height -> 0 <= x < width ->
  JS.test (Analysis.erode mask width height radius) (y * width + x) =
  Analysis.erode_val mask width height radius y x.
Proof.
  intros Hlen Hy Hx. unfold Analysis.erode, JS.test.
  destruct (radius <=? 0) eqn:E; [lia|].
  rewrite (raster_loop_get
    (fun y x => if Analysis.erode_val mask width height radius y x then 1 else 0));
    [|done|done|by rewrite length_replicate].
  apply bool_if_truthy.
Qed.

Lemma bool_eq_iff (a b : bool) : (a = true <-> b = true) -> a = b.
Proof. destruct a, b; intuition congruence. Qed.

Lemma dilate_ext m1 m2 :
  length m1 = length m2 -> same_pixels m1 m2 ->
  Analysis.dilate m1 width height radius = Analysis.dilate m2 width height radius.
Proof.
  intros Hlen Hsame. unfold Analysis.dilate.
  destruct (radius <=? 0) eqn:E; [lia|]. rewrite Hlen.
  apply (raster_loop_ext
    (fun y x => if Analysis.dilate_val m1 width height radius y x then 1 else 0)
    (fun y x => if Analysis.dilate_val m2 width height radius y x then 1 else 0)).
  intros y x Hy Hx.
  replace (Analysis.dilate_val m1 width height radius y x)
    with (Analysis.dilate_val m2 width height radius y x); [done|].
  apply bool_eq_iff. rewrite !dilate_val_true.
  split; intros [q [Htap Hq]]; exists q; (split; [done|]);
    destruct Htap as [[? ?] _]; [rewrite Hsame | rewrite <- Hsame]; done.
Qed.

Lemma erode_ext m1 m2 :
  length m1 = length m2 -> same_pixels m1 m2 ->
  Analysis.erode m1 width height radius = Analysis.erode m2 width height radius.
Proof.
  intros Hlen Hsame. unfold Analysis.erode.
  destruct (radius <=? 0) eqn:E; [lia|]. rewrite Hlen.
  apply (raster_loop_ext
    (fun y x => if Analysis.erode_val m1 width height radius y x then 1 else 0)
    (fun y x => if Analysis.erode_val m2 width height radius y x then 1 else 0)).
  intros y x Hy Hx.
  replace (Analysis.erode_val m1 width height radius y x)
    with (Analysis.erode_val m2 width height radius y x); [done|].
  apply bool_eq_iff. rewrite !erode_val_true.
  split; intros Hall q Htap; specialize (Hall q Htap);
    destruct Htap as [[? ?] _]; [rewrite Hsame | rewrite <- Hsame]; done.
Qed.

(** Eroding an opened mask gives the eroded mask: erosion and dilation by
    the same symmetric window are adjoint on the raster. *)
Lemma erode_opening_pixels mask :
  length mask = Z.to_nat (width * height) ->
  same_pixels
    (Analysis.erode (Analysis.opening mask width height radius) width height radius)
    (Analysis.erode mask width height radius).
Proof.
  intros Hlen [y x] Hy Hx. cbn in Hy, Hx. cbn [fst snd]. unfold Analysis.opening.
  rewrite !erode_test; [|done..| by rewrite length_dilate, length_erode |done|done].
  apply bool_eq_iff. rewrite !erode_val_true. split.
  - intros Hall q Hq. specialize (Hall q Hq).
    destruct q as [qy qx]. pose proof Hq as [[Hqy Hqx] _]. cbn in Hqy, Hqx. cbn [fst snd] in Hall.
    rewrite dilate_test in Hall; [|by rewrite length_erode|done..].
    apply dilate_val_true in Hall. destruct Hall as [[sy sx] [Hs Hset]].
    pose proof Hs as [[Hsy Hsx] _]. cbn in Hsy, Hsx. cbn [fst snd] in Hset.
    rewrite erode_test in Hset by done.
    rewrite erode_val_true in Hset. apply (Hset (qy, qx)).
    by apply (tap_sym (qy, qx) (sy, sx)).
  - intros Hall [qy qx] Hq. pose proof Hq as [[Hqy Hqx] _]. cbn in Hqy, Hqx. cbn [fst snd].
    rewrite dilate_test; [|by rewrite length_erode|done..].
    apply dilate_val_true. exists (y, x). split.
    + by apply (tap_sym (y, x) (qy, qx)).
    + cbn [fst snd]. rewrite erode_test by done. by apply erode_val_true.
Qed.

Lemma dilate_closing_pixels mask :
  length mask = Z.to_nat (width * height) ->
  same_pixels
    (Analysis.dilate (Analysis.closing mask width height radius) width height radius)
    (Analysis.dilate mask width height radius).
Proof.
  intros Hlen [y x] Hy Hx. cbn in Hy, Hx. cbn [fst snd]. unfold Analysis.closing.
  rewrite !dilate_test; [|done..| by rewrite length_erode, length_dilate |done|done].
  apply bool_eq_iff. rewrite !dilate_val_true. split.
  - intros [[qy qx] [Hq Hset]]. pose proof Hq as [[Hqy Hqx] _]. cbn in Hqy, Hqx.
    cbn [fst snd] in Hset.
    rewrite erode_test in Hset; [|by rewrite length_dilate|done..].
    rewrite erode_val_true in Hset.
    specialize (Hset (y, x) (tap_sym (y, x) (qy, qx) Hy Hx Hq)). cbn [fst snd] in Hset.
    rewrite dilate_test in Hset by done. by apply dilate_val_true in Hset.
  - intros [[ty tx] [Ht Hset]]. pose proof Ht as [[Hty Htx] _]. cbn in Hty, Htx.
    exists (ty, tx). split; [done|]. cbn [fst snd].
    rewrite erode_test; [|by rewrite length_dilate|done..].
    apply erode_val_true. intros [sy sx] Hs. pose proof Hs as [[Hsy Hsx] _].
    cbn in Hsy, Hsx. cbn [fst snd].
    rewrite dilate_test by done. apply dilate_val_true.
    exists (ty, tx). split; [|done]. by apply (tap_sym (ty, tx) (sy, sx)).
Qed.
End Morphology.

(** C7. For a mask of [width * height] pixels and a radius [r > 0], the
    opening [dilate (erode mask r) r] and the closing [erode (dilate mask r) r]
    are idempotent: applied twice with the same radius they give the mask
    that one application gives. *)
Theorem opening_closing_idempotent (mask : list Z) (width height radius : Z) :
  0 < radius ->
  length mask = Z.to_nat (width * height) ->
  Analysis.opening (Analysis.opening mask width height radius) width height radius
    = Analysis.opening mask width height radius /\
  Analysis.closing (Analysis.closing mask width height radius) width height radius
    = Analysis.closing mask width height radius.
Proof.
  intros Hr Hlen. split.
  - unfold Analysis.opening at 1 3. apply dilate_ext; [done| |].
    + unfold Analysis.opening. by rewrite !length_erode, length_dilate, length_erode.
    + by apply erode_opening_pixels.
  - unfold Analysis.closing at 1 3. apply erode_ext; [done| |].
    + unfold Analysis.closing. by rewrite !length_dilate, length_erode, length_dilate.
    + by apply dilate_closing_pixels.
Qed.

Lemma opening_closing_idempotent_witness :
  let mask := [0; 1; 0; 1; 1; 1; 1; 1; 0; 0; 1; 1] in
  (0 < 1 /\ length mask = Z.to_nat (4 * 3)) /\
  (Analysis.opening (Analysis.opening mask 4 3 1) 4 3 1 = Analysis.opening mask 4 3 1 /\
   Analysis.closing (Analysis.closing mask 4 3 1) 4 3 1 = Analysis.closing mask 4 3 1).
Proof.
  split; [split; [lia | reflexivity]|].
  apply (opening_closing_idempotent [0; 1; 0; 1; 1; 1; 1; 1; 0; 0; 1; 1] 4 3 1);
    [lia | reflexivity].
Defined.

(** ** Otsu's threshold *)

Lemma for_range_snoc {S} (lo : Z) (n : nat) (body : Z -> S -> S) (s : S) :
  JS.for_range lo (lo + Z.of_nat (Datatypes.S n)) body s =
  body (lo + Z.of_nat n) (JS.for_range lo (lo + Z.of_nat n) body s).
Proof.
  unfold JS.for_range.
  replace (lo + Z.of_nat (Datatypes.S n) - lo) with (Z.of_nat (Datatypes.S n)) by lia.
  replace (lo + Z.of_nat n - lo) with (Z.of_nat n) by lia.
  by rewrite seqZ_S, foldl_app.
Qed.

Lemma for_range_S {S} (n : nat) (body : Z -> S -> S) (s : S) :
  JS.for_range 0 (Z.of_nat (Datatypes.S n)) body s =
  body (Z.of_nat n) (JS.for_range 0 (Z.of_nat n) body s).
Proof. apply (for_range_snoc 0 n). Qed.

Lemma for_range_empty {S} (lo : Z) (body : Z -> S -> S) (s : S) :
  JS.for_range lo lo body s = s.
Proof. unfold JS.for_range. by rewrite Z.sub_diag. Qed.

Section Histogram.

Lemma item_alter_succ (h : list Z) (v i : Z) :
  0 <= v -> 0 <= i -> (Z.to_nat v < length h)%nat ->
  JS.item (alter Z.succ (Z.to_nat v) h) i =
  JS.item h i + (if decide (v = i) then 1 else 0).
Proof.
  intros Hv Hi Hlen. unfold JS.item, JS.get.
  destruct (i <? 0) eqn:E; [lia|].
  destruct (decide (v = i)) as [->|Hne].
  - rewrite list_lookup_alter_eq.
    destruct (lookup_lt_is_Some_2 h (Z.to_nat i) Hlen) as [c Hc]. rewrite Hc. cbn. lia.
  - rewrite list_lookup_alter_ne by lia. lia.
Qed.

Lemma histogram_from_item (values h : list Z) (i : Z) :
  length h = 256%nat -> Forall (fun v => 0 <= v <= 255) values -> 0 <= i ->
  JS.item (foldl (fun h v => alter Z.succ (Z.to_nat v) h) h values) i =
  JS.item h i + occurrences values i.
Proof.
  intros Hlen Hvals Hi. revert h Hlen.
  induction Hvals as [|v values Hv Hvals IH]; intros h Hlen.
  - unfold occurrences. cbn. lia.
  - cbn [foldl]. rewrite IH by (by rewrite length_alter).
    rewrite item_alter_succ by lia.
    unfold occurrences. rewrite filter_cons.
    destruct (decide (v = i)); cbn [length]; lia.
Qed.

Lemma histogram_item (values : list Z) (i : Z) :
  Forall (fun v => 0 <= v <= 255) values -> 0 <= i < 256 ->
  JS.item (Analysis.histogram values) i = occurrences values i.
Proof.
  intros Hvals Hi. unfold Analysis.histogram.
  rewrite histogram_from_item; [|done|done|lia].
  unfold JS.item, JS.get. destruct (i <? 0) eqn:E; [lia|].
  rewrite lookup_replicate_2; [done|lia].
Qed.

Lemma count_le_step (values : list Z) (t : Z) :
  count_le values t = count_le values (t - 1) + occurrences values t.
Proof.
  unfold count_le, occurrences, Analysis.lower_class.
  induction values as [|v values IH]; [done|].
  rewrite !filter_cons.
  destruct (decide (v <= t)), (decide (v <= t - 1)), (decide (v = t));
    cbn [length]; lia.
Qed.

Lemma sum_le_step (values : list Z) (t : Z) :
  sum_le values t = sum_le values (t - 1) + t * occurrences values t.
Proof.
  unfold sum_le, occurrences, Analysis.lower_class, Analysis.sum_list.
  induction values as [|v values IH]; [cbn; lia|].
  rewrite !filter_cons.
  destruct (decide (v <= t)), (decide (v <= t - 1)), (decide (v = t));
    cbn [length foldr]; lia.
Qed.

Lemma lower_class_none (values : list Z) (t : Z) :
  Forall (fun v => 0 <= v <= 255) values -> t < 0 ->
  Analysis.lower_class values t = [].
Proof.
  intros Hvals Ht. unfold Analysis.lower_class.
  induction Hvals as [|v values Hv Hvals IH]; [done|].
  rewrite filter_cons_False by lia. done.
Qed.

Lemma lower_class_all (values : list Z) (t : Z) :
  Forall (fun v => 0 <= v <= 255) values -> 255 <= t ->
  Analysis.lower_class values t = values.
Proof.
  intros Hvals Ht. unfold Analysis.lower_class.
  induction Hvals as [|v values Hv Hvals IH]; [done|].
  rewrite filter_cons_True by lia. by rewrite IH.
Qed.

Lemma occurrences_nonneg values i : 0 <= occurrences values i.
Proof. unfold occurrences. lia. Qed.

Lemma count_le_bounds values t : 0 <= count_le values t <= Z.of_nat (length values).
Proof.
  unfold count_le, Analysis.lower_class.
  pose proof (length_filter (fun v => v <= t) values). lia.
Qed.

Lemma count_le_mono values t t' : t <= t' -> count_le values t <= count_le values t'.
Proof.
  intros Hle. unfold count_le, Analysis.lower_class.
  induction values as [|v values IH]; [done|].
  rewrite !filter_cons.
  destruct (decide (v <= t)), (decide (v <= t')); cbn [length]; lia.
Qed.

(** The first loop of [otsuThreshold] adds up all the pixels. *)
Lemma weighted_sum_prefix (values : list Z) (k : nat) :
  Forall (fun v => 0 <= v <= 255) values -> (k <= 256)%nat ->
  JS.for_range 0 (Z.of_nat k)
    (fun i sum => sum + i * JS.item (Analysis.histogram values) i) 0 =
  sum_le values (Z.of_nat k - 1).
Proof.
  intros Hvals. induction k as [|k IH]; intros Hk.
  - rewrite for_range_empty. unfold sum_le.
    rewrite lower_class_none; [done|done|lia].
  - rewrite for_range_S, IH by lia.
    rewrite histogram_item; [|done|lia].
    replace (Z.of_nat (S k) - 1) with (Z.of_nat k) by lia.
    by rewrite (sum_le_step values (Z.of_nat k)).
Qed.

Lemma weighted_sum_total (values : list Z) :
  Forall (fun v => 0 <= v <= 255) values ->
  JS.for_range 0 256
    (fun i sum => sum + i * JS.item (Analysis.histogram values) i) 0 =
  Analysis.sum_list values.
Proof.
  intros Hvals. change 256 with (Z.of_nat 256).
  rewrite weighted_sum_prefix by (done || lia).
  unfold sum_le. rewrite lower_class_all; [done|done|lia].
Qed.
End Histogram.

Lemma Qgtb_true (a b : Q) : JS.Qgtb a b = true <-> (b < a)%Q.
Proof.
  unfold JS.Qgtb. rewrite negb_true_iff, <- not_true_iff_false, Qle_bool_iff.
  split; intros; lra.
Qed.

Lemma Qgtb_false (a b : Q) : JS.Qgtb a b = false <-> (a <= b)%Q.
Proof.
  unfold JS.Qgtb. rewrite negb_false_iff, Qle_bool_iff. done.
Qed.

Lemma class_variance_nonneg (wB wF sumB sum : Z) :
  0 <= wB -> 0 <= wF -> (0 <= Analysis.class_variance wB wF sumB sum)%Q.
Proof.
  intros HB HF. unfold Analysis.class_variance. cbn zeta.
  set (d := (_ - _)%Q).
  assert (0 <= inject_Z wB)%Q by (change 0%Q with (inject_Z 0); rewrite <- Zle_Qle; lia).
  assert (0 <= inject_Z wF)%Q by (change 0%Q with (inject_Z 0); rewrite <- Zle_Qle; lia).
  assert (0 <= inject_Z wB * inject_Z wF)%Q by nra.
  assert (0 <= d * d)%Q by nra.
  rewrite <- Qmult_assoc. nra.
Qed.

Section OtsuScan.
Variable values : list Z.
Hypothesis Hvals : Forall (fun v => 0 <= v <= 255) values.

Let hist := Analysis.histogram values.
Let total := Z.of_nat (length values).
Let sum := Analysis.sum_list values.

Lemma variance_empty_lower t :
  count_le values t = 0 -> Analysis.between_class_variance values t = 0%Q.
Proof.
  unfold Analysis.between_class_variance, count_le. cbn zeta. intros ->. done.
Qed.

Lemma variance_empty_upper t :
  count_le values t = total -> Analysis.between_class_variance values t = 0%Q.
Proof.
  unfold Analysis.between_class_variance, count_le, total. cbn zeta. intros ->.
  rewrite Z.sub_diag. cbn. by rewrite orb_true_r.
Qed.

Lemma variance_both t :
  count_le values t <> 0 -> total - count_le values t <> 0 ->
  Analysis.between_class_variance values t =
  Analysis.class_variance (count_le values t) (total - count_le values t)
    (sum_le values t) sum.
Proof.
  unfold Analysis.between_class_variance, count_le, total, sum_le. cbn zeta.
  intros HB HF.
  destruct (Z.eqb_spec (Z.of_nat (length (Analysis.lower_class values t))) 0); [done|].
  destruct (Z.eqb_spec (Z.of_nat (length values)
              - Z.of_nat (length (Analysis.lower_class values t))) 0); done.
Qed.

Lemma variance_nonneg t : (0 <= Analysis.between_class_variance values t)%Q.
Proof.
  pose proof (count_le_bounds values t) as Hb.
  destruct (decide (count_le values t = 0)) as [H0|H0].
  { rewrite variance_empty_lower by done. lra. }
  destruct (decide (total - count_le values t = 0)) as [HF|HF].
  { rewrite variance_empty_upper by (unfold total in *; lia). lra. }
  rewrite variance_both by done.
  apply class_variance_nonneg; unfold total; lia.
Qed.

Local Abbreviation scan_inv := (scan_inv values).

Lemma scan_inv_init :
  scan_inv 0 {| Analysis.sumB := 0; Analysis.wB := 0; Analysis.varMax := 0%Q;
                Analysis.threshold := 0; Analysis.stopped := false |}.
Proof.
  split; cbn; try lia; try done.
  - intros _. unfold count_le, sum_le.
    rewrite lower_class_none; [done|done|lia].
  - right. done.
Qed.

Lemma scan_inv_step k s :
  0 <= k < 256 -> scan_inv k s ->
  scan_inv (k + 1) (Analysis.otsu_step hist total sum k s).
Proof.
  intros Hk [Hrun Hstop Hbin Hmax Hfirst Hval Hnn].
  pose proof (count_le_bounds values k) as Hcb.
  pose proof (count_le_step values k) as Hcs.
  pose proof (sum_le_step values k) as Hss.
  pose proof (occurrences_nonneg values k) as Hocc.
  unfold Analysis.otsu_step.
  destruct (Analysis.stopped s) eqn:Est.
  { (* the loop was left at an earlier bin *)
    specialize (Hstop eq_refl).
    assert (Hk' : count_le values k = total).
    { pose proof (count_le_mono values (k - 1) k ltac:(lia)). unfold total in *. lia. }
    split; try done.
    - intros Hf. congruence.
    - intros _. by rewrite Z.add_simpl_r.
    - intros i Hi. destruct (decide (i = k)) as [->|Hne]; [|apply Hmax; lia].
      by rewrite variance_empty_upper. }
  destruct (Hrun eq_refl) as [HwB HsumB].
  unfold hist. rewrite histogram_item by (done || lia).
  destruct (Z.eqb_spec (Analysis.wB s + occurrences values k) 0) as [Hz|Hnz].
  { (* continue: the lower class is still empty *)
    pose proof (count_le_bounds values (k - 1)) as Hcb'.
    assert (Hocc0 : occurrences values k = 0) by lia.
    rewrite Hocc0 in *.
    split; cbn; try done.
    - intros _. rewrite Z.add_simpl_r. split; lia.
    - intros i Hi. destruct (decide (i = k)) as [->|Hne]; [|apply Hmax; lia].
      rewrite variance_empty_lower by lia. done. }
  destruct (Z.eqb_spec (total - (Analysis.wB s + occurrences values k)) 0) as [Hf|Hnf].
  { (* break: the upper class is empty from here on *)
    split; cbn; try done.
    - intros _. rewrite Z.add_simpl_r. lia.
    - intros i Hi. destruct (decide (i = k)) as [->|Hne]; [|apply Hmax; lia].
      rewrite variance_empty_upper by lia. done. }
  assert (Hvar : Analysis.class_variance (Analysis.wB s + occurrences values k)
                   (total - (Analysis.wB s + occurrences values k))
                   (Analysis.sumB s + k * occurrences values k) sum
                 = Analysis.between_class_variance values k).
  { rewrite variance_both by lia. f_equal; lia. }
  rewrite Hvar.
  destruct (JS.Qgtb (Analysis.between_class_variance values k) (Analysis.varMax s)) eqn:Egt.
  - apply Qgtb_true in Egt.
    split; cbn; try done.
    + intros _. rewrite Z.add_simpl_r. split; lia.
    + intros i Hi. destruct (decide (i = k)) as [->|Hne]; [lra|].
      specialize (Hmax i ltac:(lia)). lra.
    + intros i Hi. specialize (Hmax i ltac:(lia)). lra.
    + left. lra.
    + lra.
  - apply Qgtb_false in Egt.
    split; cbn; try done.
    + intros _. rewrite Z.add_simpl_r. split; lia.
    + intros i Hi. destruct (decide (i = k)) as [->|Hne]; [done|apply Hmax; lia].
Qed.

Lemma scan_inv_prefix (k : nat) :
  (k <= 256)%nat -> scan_inv (Z.of_nat k) (Analysis.otsu_scan hist total sum (Z.of_nat k)).
Proof.
  induction k as [|k IH]; intros Hk.
  - unfold Analysis.otsu_scan. rewrite for_range_empty. apply scan_inv_init.
  - unfold Analysis.otsu_scan. rewrite for_range_S.
    replace (Z.of_nat (S k)) with (Z.of_nat k + 1) by lia.
    apply scan_inv_step; [lia|]. apply IH. lia.
Qed.

Lemma otsu_scan_first_best :
  Analysis.first_best_bin values (Analysis.threshold (Analysis.otsu_scan hist total sum 256)).
Proof.
  destruct (scan_inv_prefix 256 ltac:(lia)) as [_ _ Hbin Hmax Hfirst Hval Hnn].
  change (Z.of_nat 256) with 256 in *.
  set (s := Analysis.otsu_scan hist total sum 256) in *.
  assert (Heq : (Analysis.varMax s ==
                 Analysis.between_class_variance values (Analysis.threshold s))%Q).
  { destruct Hval as [H|[H0 Ht]]; [done|]. rewrite Ht.
    pose proof (Hmax 0 ltac:(lia)). pose proof (variance_nonneg 0). lra. }
  split; [done|]. split.
  - intros i Hi. specialize (Hmax i Hi). lra.
  - intros i Hi. specialize (Hfirst i Hi). lra.
Qed.
End OtsuScan.

Lemma otsuThreshold_first_best (values : list Z) :
  Forall (fun v => 0 <= v <= 255) values ->
  Analysis.first_best_bin values (Analysis.otsuThreshold values).
Proof.
  intros Hvals. unfold Analysis.otsuThreshold. cbn zeta.
  rewrite weighted_sum_total by done.
  by apply otsu_scan_first_best.
Qed.





(** ** Flood fills run to completion *)

Section FloodWork.

Lemma zeros_replicate n : zeros (replicate n 0) = n.
Proof.
  unfold zeros. induction n as [|n IH]; [done|].
  cbn [replicate]. rewrite filter_cons_True by done. cbn. by rewrite IH.
Qed.

Lemma zeros_le v : (zeros v <= length v)%nat.
Proof. apply length_filter. Qed.

Lemma test_false_in_range (v : list Z) (n : Z) :
  0 <= n < Z.of_nat (length v) -> JS.test v n = false -> v !! Z.to_nat n = Some 0.
Proof.
  intros Hn. unfold JS.test, JS.get.
  destruct (Z.ltb_spec n 0); [lia|].
  destruct (lookup_lt_is_Some_2 v (Z.to_nat n) ltac:(lia)) as [x Hx].
  rewrite Hx. unfold JS.truthy. destruct (Z.eqb_spec x 0); [by subst|done].
Qed.

Lemma zeros_mark (v : list Z) (n : Z) :
  0 <= n < Z.of_nat (length v) -> JS.test v n = false ->
  S (zeros (JS.put v n 1)) = zeros v.
Proof.
  intros Hn Htest. pose proof (test_false_in_range v n Hn Htest) as Hx.
  unfold JS.put. destruct (Z.ltb_spec n 0); [lia|].
  rewrite insert_take_drop by lia.
  rewrite <- (take_drop_middle v (Z.to_nat n) 0 Hx) at 3.
  unfold zeros. rewrite !filter_app, !length_app.
  rewrite filter_cons_False by done. rewrite filter_cons_True by done.
  cbn [length]. lia.
Qed.

Lemma pushIfBackground_work (out : list Z) (idx : Z) (vq : list Z * list Z) :
  length vq.1 = length out ->
  work (Analysis.pushIfBackground out idx vq) = work vq /\
  length (Analysis.pushIfBackground out idx vq).1 = length out.
Proof.
  intros Hlen. unfold Analysis.pushIfBackground.
  destruct ((idx <? 0) || (idx >=? Z.of_nat (length out))) eqn:Erange; [done|].
  destruct (JS.test out idx || JS.test vq.1 idx) eqn:Eset; [done|].
  apply orb_false_elim in Eset as [_ Hvis].
  assert (0 <= idx < Z.of_nat (length vq.1)) by lia.
  unfold work. cbn [fst snd length]. split.
  - rewrite <- (zeros_mark vq.1 idx) by done. lia.
  - by rewrite length_put.
Qed.

Lemma fill_step_work (out : list Z) (idx width : Z) (ns : list Z) (vq : list Z * list Z) :
  length vq.1 = length out ->
  let vq' :=
    foldl (fun vq n =>
             if (n <? 0) || (n >=? Z.of_nat (length out)) then vq
             else if Analysis.not_adjacent n idx width then vq
             else Analysis.pushIfBackground out n vq) vq ns in
  work vq' = work vq /\ length vq'.1 = length out.
Proof.
  revert vq. induction ns as [|n ns IH]; intros vq Hlen; [done|].
  cbn [foldl].
  destruct ((n <? 0) || (n >=? Z.of_nat (length out))); [by apply IH|].
  destruct (Analysis.not_adjacent n idx width); [by apply IH|].
  destruct (pushIfBackground_work out n vq Hlen) as [Hw Hl].
  destruct (IH _ Hl) as [Hw' Hl']. cbn zeta in *. split; [congruence|done].
Qed.

Lemma fill_loop_total (fuel : nat) (out : list Z) (width : Z) (vq : list Z * list Z) :
  length vq.1 = length out -> (work vq <= fuel)%nat ->
  exists visited, Analysis.fill_loop fuel out width vq = Some visited /\
                  length visited = length out.
Proof.
  revert vq. induction fuel as [|fuel IH]; intros [v q] Hlen Hwork.
  - unfold work in Hwork. cbn in *. destruct q; [|cbn in Hwork; lia]. eauto.
  - destruct q as [|idx q]; [cbn; eauto|].
    cbn [Analysis.fill_loop fst snd].
    destruct (fill_step_work out idx width (Analysis.neighbours idx width) (v, q) Hlen)
      as [Hw Hl].
    cbn zeta in Hw, Hl. apply IH; [done|].
    rewrite Hw. unfold work in *. cbn [fst snd length] in *. lia.
Qed.

Lemma fillHoles_total (mask : list Z) (width height : Z) :
  exists out, Analysis.fillHoles mask width height = Some out /\ length out = length mask.
Proof.
  unfold Analysis.fillHoles. cbn zeta.
  set (vq0 := (replicate (length mask) 0, @nil Z)).
  set (vq1 := JS.for_range 0 width _ vq0).
  set (vq2 := JS.for_range 0 height _ vq1).
  assert (H0 : work vq0 = length mask /\ length vq0.1 = length mask).
  { unfold work, vq0. cbn [fst snd length]. by rewrite zeros_replicate, length_replicate. }
  assert (H1 : work vq1 = length mask /\ length vq1.1 = length mask).
  { subst vq1. unfold JS.for_range. generalize (seqZ 0 (width - 0)). intros xs.
    revert H0. generalize vq0. induction xs as [|x xs IH]; intros vq [Hw Hl]; [done|].
    cbn [foldl]. apply IH.
    destruct (pushIfBackground_work mask x vq Hl) as [Hw1 Hl1].
    destruct (pushIfBackground_work mask ((height - 1) * width + x) _ Hl1) as [Hw2 Hl2].
    split; [congruence|done]. }
  assert (H2 : work vq2 = length mask /\ length vq2.1 = length mask).
  { subst vq2. unfold JS.for_range. generalize (seqZ 0 (height - 0)). intros ys.
    revert H1. generalize vq1. induction ys as [|y ys IH]; intros vq [Hw Hl]; [done|].
    cbn [foldl]. apply IH.
    destruct (pushIfBackground_work mask (y * width) vq Hl) as [Hw1 Hl1].
    destruct (pushIfBackground_work mask (y * width + (width - 1)) _ Hl1) as [Hw2 Hl2].
    split; [congruence|done]. }
  destruct H2 as [Hw Hl].
  destruct (fill_loop_total (S (length mask)) mask width vq2 Hl ltac:(lia))
    as [visited [Hrun Hvl]].
  rewrite Hrun. cbn. eexists. split; [done|].
  rewrite length_zip_with. lia.
Qed.

Lemma component_step_work (mask : list Z) (idx width : Z) (ns : list Z)
    (vq : list Z * list Z) :
  length vq.1 = length mask ->
  let vq' :=
    foldl (fun vq n =>
             if (n <? 0) || (n >=? Z.of_nat (length mask)) then vq
             else if negb (JS.test mask n) || JS.test vq.1 n then vq
             else if Analysis.not_adjacent n idx width then vq
             else (JS.put vq.1 n 1, n :: vq.2)) vq ns in
  work vq' = work vq /\ length vq'.1 = length mask.
Proof.
  revert vq. induction ns as [|n ns IH]; intros vq Hlen; [done|].
  cbn [foldl].
  destruct ((n <? 0) || (n >=? Z.of_nat (length mask))) eqn:Erange; [by apply IH|].
  destruct (negb (JS.test mask n) || JS.test vq.1 n) eqn:Eset; [by apply IH|].
  destruct (Analysis.not_adjacent n idx width); [by apply IH|].
  apply orb_false_elim in Eset as [_ Hvis].
  assert (0 <= n < Z.of_nat (length vq.1)) by lia.
  destruct (IH (JS.put vq.1 n 1, n :: vq.2)) as [Hw' Hl'].
  { cbn. by rewrite length_put. }
  cbn zeta in *. split; [|done].
  rewrite Hw'. unfold work. cbn [fst snd length].
  rewrite <- (zeros_mark vq.1 n) by done. lia.
Qed.

Lemma component_loop_total (fuel : nat) (mask : list Z) (width : Z)
    (visited queue component : list Z) :
  length visited = length mask -> (work (visited, queue) <= fuel)%nat ->
  exists visited' component',
    Analysis.component_loop fuel mask width visited queue component
      = Some (visited', component') /\
    length visited' = length mask.
Proof.
  revert visited queue component.
  induction fuel as [|fuel IH]; intros v q c Hlen Hwork.
  - unfold work in Hwork. cbn in *. destruct q; [|cbn in Hwork; lia]. eauto.
  - destruct q as [|idx q]; [cbn; eauto|].
    cbn [Analysis.component_loop].
    destruct (component_step_work mask idx width (Analysis.neighbours idx width) (v, q) Hlen)
      as [Hw Hl].
    cbn zeta in Hw, Hl. apply IH; [done|].
    unfold work in *. cbn [fst snd length] in *. lia.
Qed.

Lemma length_clear (out component : list Z) :
  length (foldl (fun out idx => JS.put out idx 0) out component) = length out.
Proof.
  revert out. induction component as [|i c IH]; intros out; [done|].
  cbn. rewrite IH. apply length_put.
Qed.

Lemma removeSmallComponents_total (mask : list Z) (width height minArea : Z) :
  exists out, Analysis.removeSmallComponents mask width height minArea = Some out /\
              length out = length mask.
Proof.
  unfold Analysis.removeSmallComponents.
  destruct (minArea <=? 1); [eauto|].
  unfold JS.for_range.
  assert (Hin : Forall (fun i => 0 <= i < Z.of_nat (length mask))
                  (seqZ 0 (Z.of_nat (length mask) - 0))).
  { apply Forall_forall. intros i Hi. apply elem_of_seqZ in Hi. lia. }
  revert Hin. generalize (seqZ 0 (Z.of_nat (length mask) - 0)). intros idxs Hin.
  assert (Hgen : forall out visited,
    length out = length mask -> length visited = length mask ->
    exists out' visited',
      foldl (fun st i =>
        '(out, visited) ← st;
        if negb (JS.test mask i) || JS.test visited i then Some (out, visited)
        else
          '(visited', component) ←
            Analysis.component_loop (S (length mask)) mask width (JS.put visited i 1) [i] [];
          if Z.of_nat (length component) <? minArea
          then Some (foldl (fun out idx => JS.put out idx 0) out component, visited')
          else Some (out, visited'))
        (Some (out, visited)) idxs = Some (out', visited') /\
      length out' = length mask).
  { induction Hin as [|i idxs Hi Hin IH]; intros out visited Hout Hvis; [cbn; eauto|].
    cbn [foldl mbind option_bind].
    destruct (negb (JS.test mask i) || JS.test visited i) eqn:Eskip; [by apply IH|].
    apply orb_false_elim in Eskip as [_ Hclear].
    destruct (component_loop_total (S (length mask)) mask width
                (JS.put visited i 1) [i] []) as [v' [c' [Hrun Hv']]].
    { by rewrite length_put. }
    { unfold work. cbn [fst snd length].
      pose proof (zeros_mark visited i ltac:(lia) Hclear).
      pose proof (zeros_le visited). lia. }
    rewrite Hrun. cbn [mbind option_bind].
    destruct (Z.of_nat (length c') <? minArea); apply IH; try done.
    by rewrite length_clear. }
  destruct (Hgen mask (replicate (length mask) 0) eq_refl (length_replicate _ _))
    as [out' [visited' [Hrun Hlen]]].
  rewrite Hrun. cbn. eauto.
Qed.

Lemma postProcessMask_total (mask : list Z) (width height : Z)
    (options : Analysis.PostProcessOptions) :
  exists out, Analysis.postProcessMask mask width height options = Some out /\
              length out = length mask.
Proof.
  unfold Analysis.postProcessMask. cbn zeta.
  set (m1 := if Analysis.openingRadius options >? 0 then _ else mask).
  assert (H1 : length m1 = length mask).
  { subst m1. destruct (Analysis.openingRadius options >? 0); [|done].
    unfold Analysis.opening. by rewrite length_dilate, length_erode. }
  set (m2 := if Analysis.closingRadius options >? 0 then _ else m1).
  assert (H2 : length m2 = length mask).
  { subst m2. destruct (Analysis.closingRadius options >? 0); [|done].
    unfold Analysis.closing. by rewrite length_erode, length_dilate. }
  assert (H3 : exists m3,
    (if Analysis.fillHolesOpt options then Analysis.fillHoles m2 width height else Some m2)
      = Some m3 /\ length m3 = length mask).
  { destruct (Analysis.fillHolesOpt options); [|eauto].
    destruct (fillHoles_total m2 width height) as [m3 [? ?]]. exists m3. split; [done|lia]. }
  destruct H3 as [m3 [Hrun3 Hlen3]]. rewrite Hrun3. cbn [mbind option_bind].
  destruct (Analysis.minBlobArea options >? 1); [|eauto].
  destruct (removeSmallComponents_total m3 width height (Analysis.minBlobArea options))
    as [m4 [? ?]].
  exists m4. split; [done|lia].
Qed.
End FloodWork.

(** ** The change statistics *)

Lemma length_localAverage (values : list Z) (width height radius : Z) :
  length (Analysis.localAverage values width height radius) = length values.
Proof.
  unfold Analysis.localAverage.
  rewrite (raster_loop_length (fun y x =>
    if (Analysis.local_sum_count values width height radius y x).2 =? 0
    then inject_Z (JS.item values (y * width + x))
    else (inject_Z (Analysis.local_sum_count values width height radius y x).1 /
          inject_Z (Analysis.local_sum_count values width height radius y x).2)%Q)).
  apply length_replicate.
Qed.

Lemma length_kmeans_labels (values : list Z) (clusters iterations : Z) :
  length (Analysis.kmeans1D values clusters iterations).2 = length values.
Proof.
  unfold Analysis.kmeans1D. cbn zeta. unfold JS.for_range.
  generalize (seqZ 0 (iterations - 0)). intros iters.
  set (init := (_, replicate (length values) 0)).
  assert (Hinit : length init.2 = length values) by apply length_replicate.
  revert Hinit. generalize init. clear init.
  induction iters as [|it iters IH]; intros st Hst; [done|].
  cbn [foldl]. apply IH. unfold Analysis.kmeans_iteration. cbn. apply length_fmap.
Qed.

Lemma length_computeMask (Math_sqrt : Q -> Q) (diff : list Z) (width height : Z)
    (options : Analysis.ChangeDetectionOptions) :
  length (Analysis.computeMask Math_sqrt diff width height options) = length diff.
Proof.
  unfold Analysis.computeMask. cbn zeta.
  destruct (Analysis.algorithm options).
  - apply length_fmap.
  - pose proof (length_kmeans_labels diff
      (Z.max 2 (default 2 (Analysis.kmeansClusters options)))
      (Z.max 1 (default 6 (Analysis.kmeansIterations options)))) as Hl.
    destruct (Analysis.kmeans1D _ _ _) as [centers labels]. cbn in Hl.
    by rewrite length_fmap.
  - rewrite length_zip_with, length_localAverage. lia.
  - destruct (Analysis.rank_threshold _ _); apply length_fmap.
  - rewrite length_zip_with, length_localAverage. lia.
  - destruct (Analysis.rank_threshold _ _); by rewrite !length_fmap.
Qed.

Lemma length_resample (data : list JS.num) (srcWidth srcHeight dstWidth dstHeight : Z) :
  length data = Z.to_nat (srcWidth * srcHeight) ->
  length (Analysis.resampleFloat32Nearest data srcWidth srcHeight dstWidth dstHeight)
  = Z.to_nat (dstWidth * dstHeight).
Proof.
  intros Hlen. unfold Analysis.resampleFloat32Nearest.
  assert (Hloop : forall out : list JS.num,
    length out = Z.to_nat (dstWidth * dstHeight) ->
    length (JS.for_range 0 dstHeight (fun y =>
      let srcY := Analysis.nearest_src srcHeight dstHeight y in
      JS.for_range 0 dstWidth (fun x dst =>
        let srcX := Analysis.nearest_src srcWidth dstWidth x in
        JS.put dst (y * dstWidth + x)
          (Analysis.sample data (srcY * srcWidth + srcX)))) out)
    = Z.to_nat (dstWidth * dstHeight)).
  { intros out Hout.
    apply (for_range_invariant (fun o => length o = Z.to_nat (dstWidth * dstHeight)));
      [done|].
    intros y o _ Ho. cbn zeta.
    apply (for_range_invariant (fun o => length o = Z.to_nat (dstWidth * dstHeight)));
      [done|].
    intros x o' _ Ho'. by rewrite length_put. }
  destruct (Z.eqb_spec srcWidth dstWidth) as [<-|Hw]; cbn [andb].
  - destruct (Z.eqb_spec srcHeight dstHeight) as [<-|Hh]; [done|].
    apply Hloop, length_replicate.
  - apply Hloop, length_replicate.
Qed.

Lemma length_applySpeckleFilter Math_exp (values : list JS.num) (width height : Z)
    (filter : option Analysis.SpeckleKind) (size : option Z) :
  length (Analysis.applySpeckleFilter Math_exp values width height filter size)
  = length values.
Proof.
  unfold Analysis.applySpeckleFilter. cbn zeta.
  destruct (_ || _); [done|].
  destruct (Analysis.speckle_caches _ _ _ _).
  rewrite length_fmap, length_seqZ. lia.
Qed.

Lemma count_set_from (mask : list Z) (acc : Z) :
  acc <= foldl (fun acc value => acc + (if JS.truthy value then 1 else 0)) acc mask
      <= acc + Z.of_nat (length mask).
Proof.
  revert acc. induction mask as [|v mask IH]; intros acc; [cbn; lia|].
  cbn [foldl length]. specialize (IH (acc + (if JS.truthy v then 1 else 0))).
  destruct (JS.truthy v); lia.
Qed.

Lemma count_set_bounds (mask : list Z) :
  0 <= Analysis.count_set mask <= Z.of_nat (length mask).
Proof. apply (count_set_from mask 0). Qed.

Lemma ratio_percent_bounds (c n : Z) :
  0 <= c <= n -> 0 < n ->
  (0 <= inject_Z c / inject_Z n * 100 <= 100)%Q.
Proof.
  intros Hc Hn.
  assert (Hn' : (0 < inject_Z n)%Q) by (change 0%Q with (inject_Z 0); rewrite <- Zlt_Qlt; lia).
  assert (Hc0 : (0 <= inject_Z c)%Q) by (change 0%Q with (inject_Z 0); rewrite <- Zle_Qle; lia).
  assert (Hcn : (inject_Z c <= inject_Z n)%Q) by (rewrite <- Zle_Qle; lia).
  assert (H0 : (0 <= inject_Z c / inject_Z n)%Q).
  { apply Qle_shift_div_l; [done|]. lra. }
  assert (H1 : (inject_Z c / inject_Z n <= 1)%Q).
  { apply Qle_shift_div_r; [done|]. lra. }
  split; lra.
Qed.

Lemma length_analysis_mask Math_sqrt Math_exp (before after : Analysis.TiffReadResult)
    (options : Analysis.ChangeDetectionOptions) :
  length (Analysis.data before)
    = Z.to_nat (Analysis.width before * Analysis.height before) ->
  forall r, Analysis.analyzeChange Math_sqrt Math_exp before after options = Some r ->
  length (Analysis.mask r) = Z.to_nat (Analysis.width after * Analysis.height after).
Proof.
  intros Hbefore r. unfold Analysis.analyzeChange. cbn zeta.
  set (alignedBefore := if _ && _ then _ else _).
  assert (Haligned : length alignedBefore
            = Z.to_nat (Analysis.width after * Analysis.height after)).
  { subst alignedBefore.
    destruct (Z.eqb_spec (Analysis.width before) (Analysis.width after)) as [Hw|Hw];
      cbn [andb]; [|by apply length_resample].
    destruct (Z.eqb_spec (Analysis.height before) (Analysis.height after)) as [Hh|Hh];
      [|by apply length_resample].
    by rewrite Hbefore, Hw, Hh. }
  set (rawMask := Analysis.computeMask _ _ _ _ _).
  destruct (postProcessMask_total rawMask (Analysis.width after) (Analysis.height after)
              (Analysis.postProcess options)) as [pm [Hpm Hlen]].
  rewrite Hpm. cbn [mbind option_bind]. intros [= <-]. cbn.
  rewrite Hlen. subst rawMask.
  rewrite length_computeMask. unfold Analysis.normalizeToUint8. rewrite length_fmap.
  unfold Analysis.absoluteDifference. rewrite length_fmap, length_seqZ, Nat2Z.id.
  by rewrite length_applySpeckleFilter.
Qed.

(** C2, amended. For two rasters whose before raster holds [width * height]
    samples and whose after raster is not empty, and for every options,
    [analyzeChange] returns a result whose [changePercentage] is 100 times
    the number of set pixels of the returned mask over [width * height], and
    lies between 0 and 100. *)
Theorem change_percentage_spec Math_sqrt Math_exp (before after : Analysis.TiffReadResult)
    (options : Analysis.ChangeDetectionOptions) :
  0 < Analysis.width after * Analysis.height after ->
  length (Analysis.data before)
    = Z.to_nat (Analysis.width before * Analysis.height before) ->
  exists (r : Analysis.ChangeDetectionResult) (pct : Q),
    Analysis.analyzeChange Math_sqrt Math_exp before after options = Some r /\
    Analysis.changePercentage r = JS.Fin pct /\
    (pct == 100 * inject_Z (Analysis.count_set (Analysis.mask r))
            / inject_Z (Analysis.width after * Analysis.height after))%Q /\
    (0 <= pct <= 100)%Q.
Proof.
  intros Hpixels Hbefore.
  pose proof (length_analysis_mask Math_sqrt Math_exp before after options Hbefore) as Hlen.
  revert Hlen. unfold Analysis.analyzeChange. cbn zeta.
  set (rawMask := Analysis.computeMask _ _ _ _ _).
  destruct (postProcessMask_total rawMask (Analysis.width after) (Analysis.height after)
              (Analysis.postProcess options)) as [pm [Hpm _]].
  rewrite Hpm. cbn [mbind option_bind]. intros Hlen.
  specialize (Hlen _ eq_refl). cbn in Hlen.
  set (n := Analysis.width after * Analysis.height after) in *.
  assert (Hn : Qeq_bool (inject_Z n) 0 = false).
  { apply not_true_iff_false. intros Heq. apply Qeq_bool_eq in Heq.
    change 0%Q with (inject_Z 0) in Heq. rewrite inject_Z_injective in Heq. lia. }
  eexists. exists (inject_Z (Analysis.count_set pm) / inject_Z n * 100)%Q.
  split; [reflexivity|]. cbn [Analysis.changePercentage Analysis.mask].
  split; [|split].
  - unfold JS.div, JS.mul. by rewrite Hn.
  - field. intros Heq. change 0%Q with (inject_Z 0) in Heq.
    rewrite inject_Z_injective in Heq. lia.
  - apply ratio_percent_bounds; [|done].
    pose proof (count_set_bounds pm). lia.
Qed.

Lemma change_percentage_spec_witness :
  exists (r : Analysis.ChangeDetectionResult) (pct : Q),
    Analysis.analyzeChange (fun q => q) (fun v => v) flat_scene block_scene otsu_options
      = Some r /\
    Analysis.changePercentage r = JS.Fin pct /\
    (pct == 100 * inject_Z (Analysis.count_set (Analysis.mask r))
            / inject_Z (Analysis.width block_scene * Analysis.height block_scene))%Q /\
    (0 <= pct <= 100)%Q.
Proof.
  apply (change_percentage_spec (fun q => q) (fun v => v) flat_scene block_scene otsu_options).
  - reflexivity.
  - reflexivity.
Defined.

(** The scenario of the specification: four changed pixels, 25 percent. *)
Example block_scene_changes :
  exists r,
    Analysis.analyzeChange (fun q => q) (fun v => v) flat_scene block_scene otsu_options
      = Some r /\
    Analysis.changedPixels r = 4 /\
    Analysis.changePercentage r = JS.Fin (4 / 16 * 100).
Proof. eexists. split; [vm_compute; reflexivity|]. split; reflexivity. Qed.

(** On rasters without pixels the percentage is [0 / 0 * 100], which is NaN
    and so lies in no interval. *)
Lemma change_percentage_empty_raster :
  exists r,
    Analysis.analyzeChange (fun q => q) (fun v => v) empty_scene empty_scene otsu_options
      = Some r /\
    Analysis.changePercentage r = JS.NaN /\
    ~ (exists pct, Analysis.changePercentage r = JS.Fin pct /\ (0 <= pct <= 100)%Q).
Proof.
  eexists. split; [vm_compute; reflexivity|]. split; [reflexivity|].
  intros [pct [Hpct _]]. discriminate Hpct.
Qed.

(** ** Non-finite samples *)


Lemma finite_samples_Forall (values : list JS.num) (q : Q) :
  q ∈ Analysis.finite_samples values <-> JS.Fin q ∈ values.
Proof.
  unfold Analysis.finite_samples. rewrite list_elem_of_omap. split.
  - intros [v [Hv Heq]]. destruct v; try done. by inversion Heq; subst.
  - intros Hin. exists (JS.Fin q). done.
Qed.



Lemma absoluteDifference_lookup (a b : list JS.num) (i : nat) (x : JS.num) :
  a !! i = Some x ->
  Analysis.absoluteDifference a b !! i
  = Some (JS.abs (JS.sub (default (JS.Fin 0) (b !! i)) x)).
Proof.
  intros Hx. unfold Analysis.absoluteDifference.
  rewrite list_lookup_fmap.
  rewrite lookup_seqZ_lt by (apply lookup_lt_Some in Hx; lia).
  cbn [fmap option_fmap option_map]. rewrite Z.add_0_l.
  unfold Analysis.or_zero, JS.get.
  destruct (Z.ltb_spec (Z.of_nat i) 0); [lia|].
  by rewrite Nat2Z.id, Hx.
Qed.




(** ** The pass-through of the speckle filter *)

Lemma alloc_fresh (contents : list JS.num) (s : Analysis.store) :
  s !! (Analysis.alloc contents s).1 = None.
Proof.
  unfold Analysis.alloc. cbn. apply not_elem_of_dom. apply is_fresh.
Qed.

(** C8. With the kind ["none"], or any kind and a window size of at most 1,
    [applySpeckleFilter] returns a buffer with the contents of its input,
    and that buffer is newly allocated: it is none of the buffers of the
    caller, whose buffers all keep their contents. *)
Theorem speckle_none_is_fresh_copy (Math_exp : JS.num -> JS.num)
    (s : Analysis.store) (values : Analysis.loc) (buf : list JS.num)
    (width height : Z) (filter : option Analysis.SpeckleKind) (size : option Z) :
  s !! values = Some buf ->
  default Analysis.speckle_none filter = Analysis.speckle_none \/ default 3 size <= 1 ->
  exists (out : Analysis.loc) (s' : Analysis.store),
    Analysis.applySpeckleFilter_ref Math_exp values width height filter size s
      = Some (out, s') /\
    s' !! out = Some buf /\
    Analysis.applySpeckleFilter Math_exp buf width height filter size = buf /\
    s !! out = None /\ out <> values /\
    (forall l, l <> out -> s' !! l = s !! l) /\
    s' !! values = Some buf.
Proof.
  intros Hbuf Hpass.
  assert (Hguard :
    match default Analysis.speckle_none filter with
    | Analysis.speckle_none => true | _ => false end || (default 3 size <=? 1) = true).
  { destruct Hpass as [-> | Hsize]; [done|].
    apply orb_true_iff. right. lia. }
  unfold Analysis.applySpeckleFilter_ref, Analysis.applySpeckleFilter.
  rewrite Hbuf. cbn [mbind option_bind]. cbn zeta. rewrite Hguard.
  pose proof (alloc_fresh buf s) as Hfresh.
  assert (Hne : (Analysis.alloc buf s).1 <> values) by congruence.
  destruct (Analysis.alloc buf s) as [out s'] eqn:Ealloc.
  unfold Analysis.alloc in Ealloc. inversion Ealloc as [[Hout Hs']].
  cbn [fst] in *. rewrite Hout in *.
  exists out, s'. subst s'. unfold Analysis.store, Analysis.loc in *.
  split; [done|]. split; [by rewrite lookup_insert_eq|]. split; [done|].
  split; [done|]. split; [done|]. split.
  - intros l Hl. by rewrite lookup_insert_ne.
  - by rewrite lookup_insert_ne.
Qed.

Lemma speckle_none_is_fresh_copy_witness :
  let s : Analysis.store := {[ 0%nat := [JS.Fin 3; JS.NaN; JS.Fin 7] ]} in
  exists (out : Analysis.loc) (s' : Analysis.store),
    Analysis.applySpeckleFilter_ref (fun v => v) 0%nat 3 1 (Some Analysis.lee) (Some 1) s
      = Some (out, s') /\
    s' !! out = Some [JS.Fin 3; JS.NaN; JS.Fin 7] /\
    Analysis.applySpeckleFilter (fun v => v) [JS.Fin 3; JS.NaN; JS.Fin 7] 3 1
      (Some Analysis.lee) (Some 1) = [JS.Fin 3; JS.NaN; JS.Fin 7] /\
    s !! out = None /\ out <> 0%nat /\
    (forall l, l <> out -> s' !! l = s !! l) /\
    s' !! 0%nat = Some [JS.Fin 3; JS.NaN; JS.Fin 7].
Proof.
  intros s.
  apply (speckle_none_is_fresh_copy (fun v => v) s 0%nat [JS.Fin 3; JS.NaN; JS.Fin 7]
           3 1 (Some Analysis.lee) (Some 1)).
  - reflexivity.
  - right. cbn. lia.
Defined.

(** ** Thinning terminates *)

Section Thinning.
Import ObjectDetection.

Lemma test_true_lookup (img : list Z) (i : Z) :
  JS.test img i = true -> 0 <= i /\ exists v, img !! Z.to_nat i = Some v /\ v <> 0.
Proof.
  unfold JS.test, JS.get. destruct (Z.ltb_spec i 0); [done|].
  destruct (img !! Z.to_nat i) as [v|]; [|done].
  unfold JS.truthy. destruct (Z.eqb_spec v 0); [done|]. eauto.
Qed.

Lemma set_pixels_clear_le (img : list Z) (i : Z) :
  (set_pixels (JS.put img i 0%Z) <= set_pixels img)%nat.
Proof.
  unfold JS.put. destruct (i <? 0); [done|].
  destruct (decide (Z.to_nat i < length img)%nat) as [Hlt|Hge].
  - destruct (lookup_lt_is_Some_2 img (Z.to_nat i) Hlt) as [v Hv].
    rewrite insert_take_drop by done.
    rewrite <- (take_drop_middle img (Z.to_nat i) v Hv) at 3.
    unfold set_pixels. rewrite !filter_app, !length_app.
    rewrite filter_cons_False by (intros Hc; by apply Hc). rewrite filter_cons.
    destruct (decide (v <> 0)); cbn [length]; lia.
  - rewrite list_insert_ge by lia. done.
Qed.

Lemma set_pixels_clear_lt (img : list Z) (i : Z) :
  JS.test img i = true -> (set_pixels (JS.put img i 0%Z) < set_pixels img)%nat.
Proof.
  intros Hset. destruct (test_true_lookup img i Hset) as [Hi [v [Hv Hnz]]].
  unfold JS.put. destruct (Z.ltb_spec i 0); [lia|].
  rewrite insert_take_drop by (by apply lookup_lt_Some in Hv).
  rewrite <- (take_drop_middle img (Z.to_nat i) v Hv) at 3.
  unfold set_pixels. rewrite !filter_app, !length_app.
  rewrite filter_cons_False by (intros Hc; by apply Hc).
  rewrite filter_cons_True by done. cbn [length]. lia.
Qed.

Lemma clear_pixels_le (img toRemove : list Z) :
  (set_pixels (clear_pixels img toRemove) <= set_pixels img)%nat.
Proof.
  unfold clear_pixels. revert img.
  induction toRemove as [|i rs IH]; intros img; [done|].
  cbn [foldl]. etransitivity; [apply IH|]. apply set_pixels_clear_le.
Qed.

Lemma clear_pixels_lt (img : list Z) (i : Z) (rs : list Z) :
  JS.test img i = true ->
  (set_pixels (clear_pixels img (i :: rs)) < set_pixels img)%nat.
Proof.
  intros Hset. unfold clear_pixels. cbn [foldl].
  eapply Nat.le_lt_trans; [apply (clear_pixels_le _ rs)|].
  by apply set_pixels_clear_lt.
Qed.

Lemma removable_set (img : list Z) (width pass x y : Z) :
  removable img width pass x y = true -> JS.test img (y * width + x) = true.
Proof.
  unfold removable. by destruct (JS.test img (y * width + x)).
Qed.

(** Every index one pass collects is a set pixel of the image it scanned. *)
Lemma thin_pass_set (img : list Z) (width height pass : Z) :
  Forall (fun i => JS.test img i = true) (thin_pass img width height pass).
Proof.
  unfold thin_pass.
  apply (for_range_invariant (Forall (fun i => JS.test img i = true))); [done|].
  intros y rs _ Hrs.
  apply (for_range_invariant (Forall (fun i => JS.test img i = true))); [done|].
  intros x rs' _ Hrs'.
  destruct (removable img width pass x y) eqn:E; [|done].
  apply Forall_app. split; [done|]. constructor; [|done]. by apply (removable_set img width pass x y).
Qed.

Lemma thin_round_unfold (img : list Z) (width height : Z) :
  thin_round img width height =
  let r0 := thin_pass img width height 0 in
  let img1 := clear_pixels img r0 in
  let r1 := thin_pass img1 width height 1 in
  (clear_pixels img1 r1,
   match r1 with
   | [] => match r0 with [] => false | _ :: _ => true end
   | _ :: _ => true
   end).
Proof. reflexivity. Qed.

(** A round that reports a change has removed a set pixel; a round that
    reports none has left the image as it was. *)
Lemma thin_round_measure (img : list Z) (width height : Z) :
  ((thin_round img width height).2 = true ->
     (set_pixels (thin_round img width height).1 < set_pixels img)%nat) /\
  ((thin_round img width height).2 = false ->
     (thin_round img width height).1 = img).
Proof.
  rewrite thin_round_unfold. cbn zeta.
  pose proof (thin_pass_set img width height 0) as H0.
  destruct (thin_pass img width height 0) as [|i0 r0] eqn:E0.
  - change (clear_pixels img []) with img.
    pose proof (thin_pass_set img width height 1) as H1.
    destruct (thin_pass img width height 1) as [|i1 r1] eqn:E1; cbn [fst snd].
    + split; [done|]. done.
    + split; [|done]. intros _. apply clear_pixels_lt. by inversion H1.
  - set (img1 := clear_pixels img (i0 :: r0)).
    assert (Hlt : (set_pixels img1 < set_pixels img)%nat).
    { apply clear_pixels_lt. by inversion H0. }
    destruct (thin_pass img1 width height 1) as [|i1 r1]; cbn [fst snd].
    + split; [done|done].
    + split; [|done]. intros _. eapply Nat.le_lt_trans; [apply clear_pixels_le|done].
Qed.

Lemma thin_loop_enough_fuel (fuel : nat) (img : list Z) (width height : Z) :
  (set_pixels img < fuel)%nat ->
  exists out, thin_loop fuel img width height = Some out.
Proof.
  revert img. induction fuel as [|fuel IH]; intros img Hfuel; [lia|].
  cbn [thin_loop].
  destruct (thin_round_measure img width height) as [Hchanged Hsame].
  destruct (thin_round img width height) as [img' changing]. cbn [fst snd] in *.
  destruct changing; [|eauto].
  apply IH. specialize (Hchanged eq_refl). lia.
Qed.

Lemma set_pixels_le_length (img : list Z) : (set_pixels img <= length img)%nat.
Proof. apply length_filter. Qed.
End Thinning.

(** C10. [zhangSuenThin] terminates on every mask: a round of its outer loop
    either clears at least one set pixel, or leaves [changing] false (and the
    image unchanged), so the number of set pixels strictly decreases over the
    rounds that change the image and bounds how many there are. *)
Theorem zhangSuenThin_terminates (mask : list Z) (width height : Z) :
  (forall img,
     ((ObjectDetection.thin_round img width height).2 = true ->
        (ObjectDetection.set_pixels (ObjectDetection.thin_round img width height).1
         < ObjectDetection.set_pixels img)%nat) /\
     ((ObjectDetection.thin_round img width height).2 = false ->
        (ObjectDetection.thin_round img width height).1 = img)) /\
  (forall fuel, (ObjectDetection.set_pixels mask < fuel)%nat ->
     exists out, ObjectDetection.thin_loop fuel mask width height = Some out) /\
  (exists out, ObjectDetection.zhangSuenThin mask width height = Some out).
Proof.
  split; [|split].
  - intros img. apply thin_round_measure.
  - intros fuel. apply thin_loop_enough_fuel.
  - apply thin_loop_enough_fuel.
    pose proof (set_pixels_le_length mask). lia.
Qed.

Lemma zhangSuenThin_terminates_witness :
  exists out, ObjectDetection.thin_loop 13 thin_blob 6 5 = Some out.
Proof.
  apply (proj1 (proj2 (zhangSuenThin_terminates thin_blob 6 5)) 13%nat).
  vm_compute. lia.
Defined.

(** ** Non-maximum suppression *)

Section ListOrder.
Context {A : Type}.

Lemma StronglySorted_lookup (R : relation A) (l : list A) (i j : nat) (a b : A) :
  StronglySorted R l -> (i < j)%nat -> l !! i = Some a -> l !! j = Some b -> R a b.
Proof.
  intros Hs. revert i j. induction Hs as [|x l Hs IH Hall]; intros i j Hij Ha Hb; [done|].
  destruct j as [|j]; [lia|]. destruct i as [|i].
  - cbn in Ha, Hb. inversion Ha; subst.
    rewrite Forall_forall in Hall. apply Hall. by apply list_elem_of_lookup_2 in Hb.
  - cbn in Ha, Hb. apply (IH i j); [lia|done..].
Qed.

Lemma StronglySorted_sublist (R : relation A) (l1 l2 : list A) :
  l1 `sublist_of` l2 -> StronglySorted R l2 -> StronglySorted R l1.
Proof.
  induction 1 as [|x l1 l2 Hsub IH|x l1 l2 Hsub IH]; intros Hs; [done|..].
  - apply StronglySorted_inv in Hs as [Hs Hall]. constructor; [by apply IH|].
    rewrite Forall_forall in *. intros y Hy. apply Hall.
    apply (elem_of_submseteq l1 l2 y Hy). by apply sublist_submseteq.
  - apply StronglySorted_inv in Hs as [Hs _]. by apply IH.
Qed.

Lemma sublist_filter_mono (P : A -> Prop) `{!forall x, Decision (P x)} (l1 l2 : list A) :
  l1 `sublist_of` l2 -> filter P l1 `sublist_of` filter P l2.
Proof.
  induction 1 as [|x l1 l2 Hsub IH|x l1 l2 Hsub IH]; [done|..].
  - rewrite !filter_cons. destruct (decide (P x)); [by constructor|done].
  - rewrite filter_cons. destruct (decide (P x)); [by constructor|done].
Qed.

Lemma filter_none (P : A -> Prop) `{!forall x, Decision (P x)} (l : list A) :
  Forall (fun x => ~ P x) l -> filter P l = [].
Proof.
  induction 1 as [|x l Hx Hl IH]; [done|]. by rewrite filter_cons_False.
Qed.

Lemma insert_sorted_perm (before : A -> A -> bool) (x : A) (l : list A) :
  JS.insert_sorted before x l ≡ₚ x :: l.
Proof.
  induction l as [|y l IH]; [done|]. cbn.
  destruct (before x y); [done|]. rewrite IH. apply Permutation_swap.
Qed.

Lemma sort_from_perm (before : A -> A -> bool) (l acc : list A) :
  foldl (fun acc x => JS.insert_sorted before x acc) acc l ≡ₚ acc ++ l.
Proof.
  revert acc. induction l as [|x l IH]; intros acc; [by rewrite app_nil_r|].
  cbn [foldl]. rewrite IH, insert_sorted_perm. cbn. apply Permutation_middle.
Qed.

Lemma sort_perm (before : A -> A -> bool) (l : list A) : JS.sort before l ≡ₚ l.
Proof. unfold JS.sort. by rewrite sort_from_perm. Qed.
End ListOrder.

Section Confidence.
Import ObjectDetection.

Lemma more_confident_true a b : more_confident a b = true <-> (confidence b < confidence a)%Q.
Proof.
  unfold more_confident, JS.Qltb.
  rewrite negb_true_iff, <- not_true_iff_false, Qle_bool_iff. split; intros; lra.
Qed.

Lemma more_confident_false a b : more_confident a b = false <-> (confidence a <= confidence b)%Q.
Proof.
  unfold more_confident, JS.Qltb. by rewrite negb_false_iff, Qle_bool_iff.
Qed.

Lemma insert_sorted_descending (x : DetectionBox) (l : list DetectionBox) :
  StronglySorted descending l ->
  StronglySorted descending (JS.insert_sorted more_confident x l).
Proof.
  induction 1 as [|y l Hs IH Hall]; [repeat constructor|].
  cbn. destruct (more_confident x y) eqn:E.
  - apply more_confident_true in E. constructor; [by constructor|].
    constructor; [unfold descending; lra|].
    rewrite Forall_forall in *. intros z Hz. specialize (Hall z Hz).
    unfold descending in *. lra.
  - apply more_confident_false in E. constructor; [done|].
    rewrite Forall_forall in *. intros z Hz.
    rewrite insert_sorted_perm in Hz. apply elem_of_cons in Hz as [->|Hz]; [done|].
    by apply Hall.
Qed.

(** Inserting a box leaves the boxes of any one confidence in their order
    and puts the new box behind them: the sort is stable. *)
Lemma insert_sorted_filter (c : Q) (x : DetectionBox) (l : list DetectionBox) :
  StronglySorted descending l ->
  filter (fun b => confidence b == c)%Q (JS.insert_sorted more_confident x l)
  = filter (fun b => confidence b == c)%Q l
    ++ (if decide (confidence x == c)%Q then [x] else []).
Proof.
  induction 1 as [|y l Hs IH Hall].
  { cbn [JS.insert_sorted]. rewrite filter_cons, !filter_nil. by destruct (decide _). }
  cbn [JS.insert_sorted]. destruct (more_confident x y) eqn:E.
  - apply more_confident_true in E. rewrite (filter_cons _ x).
    destruct (decide (confidence x == c)%Q) as [Hx|Hx]; [|by rewrite app_nil_r].
    rewrite (filter_none (fun b => confidence b == c)%Q (y :: l)); [done|].
    constructor; [lra|].
    rewrite Forall_forall in *. intros z Hz. specialize (Hall z Hz).
    unfold descending in Hall. lra.
  - rewrite !(filter_cons _ y), IH.
    by destruct (decide (confidence y == c)%Q).
Qed.

Lemma sort_from_stable (c : Q) (l acc : list DetectionBox) :
  StronglySorted descending acc ->
  StronglySorted descending
    (foldl (fun acc x => JS.insert_sorted more_confident x acc) acc l) /\
  filter (fun b => confidence b == c)%Q
    (foldl (fun acc x => JS.insert_sorted more_confident x acc) acc l)
  = filter (fun b => confidence b == c)%Q acc ++ filter (fun b => confidence b == c)%Q l.
Proof.
  revert acc. induction l as [|x l IH]; intros acc Hacc.
  - cbn [foldl]. split; [done|]. by rewrite filter_nil, app_nil_r.
  - cbn [foldl].
    destruct (IH _ (insert_sorted_descending x acc Hacc)) as [Hs Hf].
    split; [done|]. rewrite Hf, insert_sorted_filter by done.
    rewrite (filter_cons _ x), <- app_assoc.
    by destruct (decide (confidence x == c)%Q).
Qed.

Lemma sort_descending (l : list DetectionBox) :
  StronglySorted descending (JS.sort more_confident l).
Proof. apply (sort_from_stable 0 l []). constructor. Qed.

Lemma sort_stable (c : Q) (l : list DetectionBox) :
  filter (fun b => confidence b == c)%Q (JS.sort more_confident l)
  = filter (fun b => confidence b == c)%Q l.
Proof.
  destruct (sort_from_stable c l [] ltac:(constructor)) as [_ Hf]. apply Hf.
Qed.
End Confidence.

Section Overlap.
Import ObjectDetection.

Lemma Qltb_true (a b : Q) : JS.Qltb a b = true <-> (a < b)%Q.
Proof.
  unfold JS.Qltb. rewrite negb_true_iff, <- not_true_iff_false, Qle_bool_iff.
  split; intros; lra.
Qed.

Lemma Qltb_false (a b : Q) : JS.Qltb a b = false <-> (b <= a)%Q.
Proof. unfold JS.Qltb. by rewrite negb_false_iff, Qle_bool_iff. Qed.

Lemma JS_Qmax_std (a b : Q) : (JS.Qmax a b == Qmax a b)%Q.
Proof.
  unfold JS.Qmax. destruct (JS.Qltb a b) eqn:E.
  - apply Qltb_true in E. symmetry. apply Q.max_r. lra.
  - apply Qltb_false in E. symmetry. by apply Q.max_l.
Qed.

Lemma JS_Qmin_std (a b : Q) : (JS.Qmin a b == Qmin a b)%Q.
Proof.
  unfold JS.Qmin. destruct (JS.Qltb b a) eqn:E.
  - apply Qltb_true in E. symmetry. apply Q.min_r. lra.
  - apply Qltb_false in E. symmetry. by apply Q.min_l.
Qed.

Lemma intersection_sym (a b : BoundingBox) : (intersection a b == intersection b a)%Q.
Proof.
  unfold intersection. rewrite !JS_Qmax_std, !JS_Qmin_std.
  rewrite (Q.min_comm (box_x a + box_width a)), (Q.max_comm (box_x a)).
  rewrite (Q.min_comm (box_y a + box_height a)), (Q.max_comm (box_y a)).
  reflexivity.
Qed.

Lemma iou_unfold (a b : BoundingBox) :
  iou a b =
  if JS.Qgtb (box_width a * box_height a + box_width b * box_height b - intersection a b) 0
  then (intersection a b
        / (box_width a * box_height a + box_width b * box_height b - intersection a b))%Q
  else 0%Q.
Proof. reflexivity. Qed.

Lemma iou_sym (a b : BoundingBox) : (iou a b == iou b a)%Q.
Proof.
  rewrite !iou_unfold. pose proof (intersection_sym a b) as HI.
  set (I := intersection a b) in *. set (I' := intersection b a) in *.
  set (U := (box_width a * box_height a + box_width b * box_height b - I)%Q).
  set (U' := (box_width b * box_height b + box_width a * box_height a - I')%Q).
  assert (HU : (U == U')%Q) by (unfold U, U'; rewrite HI; ring).
  destruct (JS.Qgtb U 0) eqn:E, (JS.Qgtb U' 0) eqn:E'.
  - by rewrite HI, HU.
  - apply Qgtb_true in E. apply Qgtb_false in E'. lra.
  - apply Qgtb_false in E. apply Qgtb_true in E'. lra.
  - reflexivity.
Qed.

Lemma nms_greedy (t : Q) (rest pre keep : list DetectionBox) :
  keep `sublist_of` pre -> StronglySorted (apart t) keep ->
  foldl (fun keep box =>
           if existsb (fun k => JS.Qgeb (iou (bbox box) (bbox k)) t) keep
           then keep else keep ++ [box]) keep rest `sublist_of` pre ++ rest /\
  StronglySorted (apart t)
    (foldl (fun keep box =>
              if existsb (fun k => JS.Qgeb (iou (bbox box) (bbox k)) t) keep
              then keep else keep ++ [box]) keep rest).
Proof.
  revert pre keep. induction rest as [|box rest IH]; intros pre keep Hsub Hs.
  - cbn. by rewrite app_nil_r.
  - cbn [foldl]. replace (pre ++ box :: rest) with ((pre ++ [box]) ++ rest)
      by (by rewrite <- app_assoc).
    destruct (existsb _ keep) eqn:E.
    + apply IH; [|done]. by apply sublist_inserts_r.
    + apply IH; [by apply sublist_app|].
      apply StronglySorted_app_2; [|done|repeat constructor].
      intros k b Hk Hb. apply list_elem_of_singleton in Hb as ->.
      unfold apart.
      assert (Hfalse : JS.Qgeb (iou (bbox box) (bbox k)) t = false).
      { destruct (JS.Qgeb (iou (bbox box) (bbox k)) t) eqn:Ek; [|done].
        assert (existsb (fun k => JS.Qgeb (iou (bbox box) (bbox k)) t) keep = true).
        { apply existsb_exists. exists k. split; [by apply list_elem_of_In|done]. }
        congruence. }
      unfold JS.Qgeb in Hfalse.
      apply not_true_iff_false in Hfalse. rewrite Qle_bool_iff in Hfalse. lra.
Qed.
End Overlap.

(** C3. For every list of boxes and every threshold [t], the result of
    [nonMaximumSuppression] holds no two boxes with an IoU of [t] or more;
    it is a sub-multiset of the input (each returned box is one of the
    input boxes, none used twice); it is in descending order of confidence;
    and the boxes of any one confidence appear in it in the order they have
    in the input. *)
Theorem nms_spec (boxes : list ObjectDetection.DetectionBox) (t : Q) :
  (forall (i j : nat) (a b : ObjectDetection.DetectionBox),
     i <> j ->
     ObjectDetection.nonMaximumSuppression boxes t !! i = Some a ->
     ObjectDetection.nonMaximumSuppression boxes t !! j = Some b ->
     (ObjectDetection.iou (ObjectDetection.bbox a) (ObjectDetection.bbox b) < t)%Q) /\
  ObjectDetection.nonMaximumSuppression boxes t ⊆+ boxes /\
  (forall (i j : nat) (a b : ObjectDetection.DetectionBox),
     (i < j)%nat ->
     ObjectDetection.nonMaximumSuppression boxes t !! i = Some a ->
     ObjectDetection.nonMaximumSuppression boxes t !! j = Some b ->
     (ObjectDetection.confidence b <= ObjectDetection.confidence a)%Q) /\
  (forall c : Q,
     filter (fun b => ObjectDetection.confidence b == c)%Q
       (ObjectDetection.nonMaximumSuppression boxes t)
     `sublist_of` filter (fun b => ObjectDetection.confidence b == c)%Q boxes).
Proof.
  unfold ObjectDetection.nonMaximumSuppression. cbn zeta.
  destruct (nms_greedy t (JS.sort ObjectDetection.more_confident boxes) [] [])
    as [Hsub Hapart]; [done|constructor|].
  rewrite app_nil_l in Hsub.
  set (result := foldl _ [] _) in *.
  split; [|split; [|split]].
  - intros i j a b Hij Ha Hb.
    destruct (decide (i < j)%nat) as [Hlt|Hge].
    + pose proof (StronglySorted_lookup _ _ i j a b Hapart Hlt Ha Hb) as H.
      unfold apart in H. by rewrite iou_sym.
    + apply (StronglySorted_lookup _ _ j i b a Hapart); [lia|done..].
  - rewrite <- (sort_perm ObjectDetection.more_confident boxes).
    by apply sublist_submseteq.
  - intros i j a b Hij Ha Hb.
    apply (StronglySorted_lookup descending result i j a b); [|done..].
    eapply StronglySorted_sublist; [done|]. apply sort_descending.
  - intros c. rewrite <- (sort_stable c boxes). by apply sublist_filter_mono.
Qed.

Lemma nms_spec_witness :
  (ObjectDetection.iou
     (ObjectDetection.bbox (plain_box "b" (9 # 10) 1 1 10 10))
     (ObjectDetection.bbox (plain_box "c" (7 # 10) 50 50 10 10)) < 35 # 100)%Q /\
  (ObjectDetection.confidence (plain_box "c" (7 # 10) 50 50 10 10)
   <= ObjectDetection.confidence (plain_box "b" (9 # 10) 1 1 10 10))%Q.
Proof.
  split.
  - apply (proj1 (nms_spec three_boxes (35 # 100)) 0%nat 1%nat);
      [lia | reflexivity | reflexivity].
  - apply (proj1 (proj2 (proj2 (nms_spec three_boxes (35 # 100)))) 0%nat 1%nat);
      [lia | reflexivity | reflexivity].
Defined.

(** ** The footprint polygon *)

Section Polygon.
Import ObjectDetection.



End Polygon.




(** ** The detector on two small scenes *)

(** C5 fails on the code. With [maxDetections = 1] each call of
    [buildDetectionBoxes] stops at one box, but [detectObjects] merges the
    calls of the three scales and of the two fallback masks without a cap:
    on the two-blob scene it returns three boxes. *)
Theorem detectObjects_exceeds_maxDetections :
  exists r,
    ObjectDetection.detectObjects two_blob_scene (Some at_most_one) = Some r /\
    ObjectDetection.maxDetections (ObjectDetection.merge_options (Some at_most_one)) = Some 1 /\
    length (ObjectDetection.boxes r) = 3%nat /\
    ObjectDetection.bbox <$> ObjectDetection.boxes r =
      [ {| ObjectDetection.box_x := inject_Z 4; ObjectDetection.box_y := inject_Z 4;
           ObjectDetection.box_width := inject_Z 4; ObjectDetection.box_height := inject_Z 4 |};
        {| ObjectDetection.box_x := inject_Z 0; ObjectDetection.box_y := inject_Z 0;
           ObjectDetection.box_width := inject_Z 8; ObjectDetection.box_height := inject_Z 8 |};
        {| ObjectDetection.box_x := inject_Z 0; ObjectDetection.box_y := inject_Z 0;
           ObjectDetection.box_width := inject_Z 1; ObjectDetection.box_height := inject_Z 1 |} ].
Proof.
  eexists. split; [vm_compute; reflexivity|].
  split; [reflexivity|]. split; reflexivity.
Qed.

(** C6 fails on the code. The line is 20 pixels long and one wide; thinning
    keeps all of it, so its skeleton has 20 of the component's 20 pixels.
    [buildDetectionBoxes] looks the component up in the skeleton at
    [idx - bbox.y * width - bbox.x], an index of the 5-wide raster and not
    of the 1-wide skeleton, counts 4 pixels, takes the linearity 1/5 and
    leaves the classifier's category. *)
Theorem skeleton_override_missed :
  exists m skel r,
    ObjectDetection.floodFillComponents line_mask 5 20 = Some [line_pixels] /\
    ObjectDetection.zhangSuenThin
      (ObjectDetection.component_mask line_mask 5 0 0 1 20) 1 20 = Some skel /\
    ObjectDetection.set_pixels skel = 20%nat /\ length line_pixels = 20%nat /\
    ObjectDetection.measure line_pixels line_mask line_data 5 20 255 = Some m /\
    ObjectDetection.ms_bbox m = (0, 0, 1, 20) /\
    ObjectDetection.ms_major m = 20 /\
    (ObjectDetection.ms_aspectRatio m == 20)%Q /\
    (ObjectDetection.ms_linearity m == 1 # 5)%Q /\
    ObjectDetection.ms_forcedCategory m = None /\
    ObjectDetection.detectObjects line_scene (Some small_area) = Some r /\
    ObjectDetection.categoryId <$> ObjectDetection.boxes r = [ObjectDetection.urban_feature].
Proof.
  eexists. eexists. eexists.
  split; [vm_compute; reflexivity|].
  split; [vm_compute; reflexivity|].
  split; [reflexivity|]. split; [reflexivity|].
  split; [vm_compute; reflexivity|].
  split; [reflexivity|]. split; [reflexivity|].
  split; [reflexivity|]. split; [reflexivity|]. split; [reflexivity|].
  split; [vm_compute; reflexivity|]. reflexivity.
Qed.

(** ** What [buildDetectionBoxes] does guarantee *)

Section BuildBoxes.
Import ObjectDetection.

Lemma Qmax_ge_r (a b : Q) : (b <= JS.Qmax a b)%Q.
Proof.
  unfold JS.Qmax. destruct (JS.Qltb a b) eqn:E; [lra|].
  by apply Qltb_false in E.
Qed.

Lemma clamp_upper (v : Q) : (clamp v <= 1)%Q.
Proof.
  unfold clamp, JS.Qmin. destruct (JS.Qltb (JS.Qmax 0 v) 1) eqn:E; [|lra].
  apply Qltb_true in E. lra.
Qed.

Lemma clamp_lower (v f : Q) : (f <= v)%Q -> (f <= 1)%Q -> (f <= clamp v)%Q.
Proof.
  intros Hv Hf. unfold clamp, JS.Qmin.
  pose proof (Qmax_ge_r 0 v).
  destruct (JS.Qltb (JS.Qmax 0 v) 1); lra.
Qed.

Lemma build_loop_cap (cap : Z) (components : list (list Z)) (mask data : list Z)
    (width height : Z) (options : ObjectDetectionOptions) (thresholdValue : Q)
    (boxes result : list DetectionBox) :
  maxDetections options = Some cap -> 0 < cap ->
  Z.of_nat (length boxes) < cap ->
  build_loop components mask data width height options thresholdValue boxes = Some result ->
  Z.of_nat (length result) <= cap.
Proof.
  intros Hcap Hpos. revert boxes.
  induction components as [|pixels rest IH]; intros boxes Hlen Hrun.
  - cbn in Hrun. inversion Hrun; subst. lia.
  - cbn [build_loop] in Hrun.
    destruct (Z.of_nat (length pixels) <? minAreaPixels options); [by apply (IH boxes)|].
    destruct (bounding_area pixels data width height <? minAreaPixels options);
      [by apply (IH boxes)|].
    destruct (measure pixels mask data width height thresholdValue) as [m|]; [|done].
    cbn [mbind option_bind] in Hrun. rewrite Hcap in Hrun.
    set (boxes' := boxes ++ [box_of (length boxes + 1) pixels m]) in *.
    assert (Hlen' : Z.of_nat (length boxes') = Z.of_nat (length boxes) + 1).
    { unfold boxes'. rewrite length_app. cbn. lia. }
    destruct (negb (cap =? 0) && (Z.of_nat (length boxes') >=? cap)) eqn:E.
    + inversion Hrun; subst. lia.
    + apply (IH boxes'); [|done].
      destruct (Z.eqb_spec cap 0); [lia|]. cbn in E. lia.
Qed.
End BuildBoxes.

(** One call of [buildDetectionBoxes] returns at most [maxDetections] boxes,
    when [maxDetections] is a positive number. *)
Theorem buildDetectionBoxes_cap (cap : Z) (components : list (list Z))
    (mask data : list Z) (width height : Z)
    (options : ObjectDetection.ObjectDetectionOptions)
    (result : list ObjectDetection.DetectionBox) :
  ObjectDetection.maxDetections options = Some cap -> 0 < cap ->
  ObjectDetection.buildDetectionBoxes components mask data width height options
    = Some result ->
  Z.of_nat (length result) <= cap.
Proof.
  intros Hcap Hpos Hrun. unfold ObjectDetection.buildDetectionBoxes in Hrun.
  eapply build_loop_cap; [exact Hcap|exact Hpos| |exact Hrun]. cbn. lia.
Qed.

Lemma buildDetectionBoxes_cap_witness :
  exists result,
    ObjectDetection.buildDetectionBoxes [[0]; [36; 37]] two_blob_bytes two_blob_bytes 8 8
      {| ObjectDetection.thresholdPercentile := 95;
         ObjectDetection.minAreaPixels := 1;
         ObjectDetection.maxDetections := Some 1 |} = Some result /\
    Z.of_nat (length result) <= 1.
Proof.
  eexists. split; [vm_compute; reflexivity|].
  apply (buildDetectionBoxes_cap 1 [[0]; [36; 37]] two_blob_bytes two_blob_bytes 8 8
           {| ObjectDetection.thresholdPercentile := 95;
              ObjectDetection.minAreaPixels := 1;
              ObjectDetection.maxDetections := Some 1 |});
    [reflexivity | lia | vm_compute; reflexivity].
Defined.

(** For every component [buildDetectionBoxes] measures: when the linearity
    it computed exceeds 0.25 and the major axis is at least 20, the category
    of the box is bridge if the aspect ratio exceeds 3 or the major axis
    exceeds 50 and border-wall otherwise, whatever the classifier chose; the
    shape score that enters the confidence is at least [0.6 + 0.4 * linearity],
    respectively [0.55 + 0.35 * linearity]. *)
Theorem linearity_override_spec (pixels mask data : list Z) (width height : Z)
    (thresholdValue : Q) (m : ObjectDetection.Measured) (n : nat) :
  ObjectDetection.measure pixels mask data width height thresholdValue = Some m ->
  (1 # 4 < ObjectDetection.ms_linearity m)%Q ->
  20 <= ObjectDetection.ms_major m ->
  let elongated :=
    JS.Qgtb (ObjectDetection.ms_aspectRatio m) 3 || (ObjectDetection.ms_major m >? 50) in
  ObjectDetection.categoryId (ObjectDetection.box_of n pixels m)
    = (if elongated then ObjectDetection.bridge else ObjectDetection.border_wall) /\
  ((if elongated
    then (6 # 10) + ObjectDetection.ms_linearity m * (4 # 10)
    else (55 # 100) + ObjectDetection.ms_linearity m * (35 # 100))
   <= ObjectDetection.ms_adjustedShapeScore m)%Q /\
  ObjectDetection.confidence (ObjectDetection.box_of n pixels m)
    = ObjectDetection.clamp
        (ObjectDetection.ms_baseConfidence m * (5 # 10)
         + ObjectDetection.ms_adjustedShapeScore m * (5 # 10))%Q.
Proof.
  intros Hm Hlin Hmajor. unfold ObjectDetection.measure in Hm.
  destruct (ObjectDetection.extent pixels data width height)
    as [[[[minX minY] maxX] maxY] sum].
  cbn zeta in Hm.
  destruct (ObjectDetection.zhangSuenThin _ _ _) as [skel|]; [|done].
  cbn [mbind option_bind] in Hm.
  set (linearity := ObjectDetection.clamp _) in Hm.
  set (major := Z.max _ _) in Hm.
  set (aspect := (inject_Z major / _)%Q) in Hm.
  set (score := ObjectDetection.c_shapeScore _) in Hm.
  assert (Hgate : JS.Qgtb linearity (25 # 100) && (major >=? 20) = true
                  \/ JS.Qgtb linearity (25 # 100) && (major >=? 20) = false)
    by (destruct (_ && _); auto).
  pose proof (clamp_upper
    (inject_Z (ObjectDetection.skeletonLength
       ((fun idx => idx - minY * width - minX) <$> pixels)
       (maxX - minX + 1) skel)
     / inject_Z (Z.max 1 (Z.of_nat (length pixels))))) as Hle1.
  fold linearity in Hle1.
  destruct Hgate as [Hgate|Hgate]; rewrite Hgate in Hm.
  - destruct (JS.Qgtb aspect 3 || (major >? 50)) eqn:Elong;
      inversion Hm; subst m; clear Hm; cbn; rewrite Elong; cbn.
    + split; [done|]. split; [|done].
      apply clamp_lower; [apply Qmax_ge_r|lra].
    + split; [done|]. split; [|done].
      apply clamp_lower; [apply Qmax_ge_r|lra].
  - exfalso. destruct (JS.Qgtb aspect 3 || (major >? 50));
      inversion Hm; subst m; clear Hm; cbn in Hlin, Hmajor;
      apply andb_false_iff in Hgate as [Hg|Hg].
    all: try (apply Qgtb_false in Hg; lra).
    all: lia.
Qed.

Lemma linearity_override_spec_witness :
  exists m,
    ObjectDetection.measure (seqZ 0 20) (replicate 20 1) (replicate 20 255) 1 20 255
      = Some m /\
    ObjectDetection.categoryId (ObjectDetection.box_of 1 (seqZ 0 20) m)
      = ObjectDetection.bridge.
Proof.
  eexists. split; [vm_compute; reflexivity|].
  refine (proj1 (linearity_override_spec (seqZ 0 20) (replicate 20 1) (replicate 20 255)
                   1 20 255 _ 1 _ _ _)).
  - vm_compute. reflexivity.
  - reflexivity.
  - vm_compute. discriminate.
Defined.

(** ** Morphology: how the operators order a mask *)

(** X3. On a mask of [width * height] pixels and for a radius [r > 0],
    [erode] only removes pixels and [dilate] only adds pixels; hence the
    opening lies below the mask and the closing above it. *)
Theorem morphology_ordering (mask : list Z) (width height radius y x : Z) :
  0 < radius ->
  length mask = Z.to_nat (width * height) ->
  0 <= y < height -> 0 <= x < width ->
  let i := y * width + x in
  (JS.test (Analysis.erode mask width height radius) i = true -> JS.test mask i = true) /\
  (JS.test mask i = true -> JS.test (Analysis.dilate mask width height radius) i = true) /\
  (JS.test (Analysis.opening mask width height radius) i = true -> JS.test mask i = true) /\
  (JS.test mask i = true -> JS.test (Analysis.closing mask width height radius) i = true).
Proof.
  intros Hr Hlen Hy Hx i. subst i.
  pose proof (tap_refl width height radius Hr (y, x) Hy Hx) as Hself.
  repeat split.
  - rewrite erode_test by done. rewrite erode_val_true.
    intros Hall. apply (Hall (y, x) Hself).
  - intros Hset. rewrite dilate_test by done. apply dilate_val_true.
    by exists (y, x).
  - unfold Analysis.opening.
    rewrite dilate_test; [|done|by rewrite length_erode|done..].
    rewrite dilate_val_true. intros [[qy qx] [Hq Hset]].
    pose proof Hq as [[Hqy Hqx] _]. cbn in Hqy, Hqx. cbn [fst snd] in Hset.
    rewrite erode_test in Hset by done. rewrite erode_val_true in Hset.
    apply (Hset (y, x)). by apply (tap_sym width height radius (y, x) (qy, qx)).
  - intros Hset. unfold Analysis.closing.
    rewrite erode_test; [|done|by rewrite length_dilate|done..].
    apply erode_val_true. intros [qy qx] Hq.
    pose proof Hq as [[Hqy Hqx] _]. cbn in Hqy, Hqx. cbn [fst snd].
    rewrite dilate_test by done. apply dilate_val_true.
    exists (y, x). split; [|done]. by apply (tap_sym width height radius (y, x) (qy, qx)).
Qed.

Lemma morphology_ordering_witness :
  let mask := [0; 1; 0; 1; 1; 1; 1; 1; 0; 0; 1; 1] in
  (JS.test (Analysis.erode mask 4 3 1) 5 = true -> JS.test mask 5 = true) /\
  (JS.test mask 5 = true -> JS.test (Analysis.dilate mask 4 3 1) 5 = true) /\
  (JS.test (Analysis.opening mask 4 3 1) 5 = true -> JS.test mask 5 = true) /\
  (JS.test mask 5 = true -> JS.test (Analysis.closing mask 4 3 1) 5 = true).
Proof.
  apply (morphology_ordering [0; 1; 0; 1; 1; 1; 1; 1; 0; 0; 1; 1] 4 3 1 1 1);
    [lia | reflexivity | lia | lia].
Defined.

(** ** Flood fills: what they compute *)

Lemma test_put_eq (v : list Z) (i : Z) :
  0 <= i < Z.of_nat (length v) -> JS.test (JS.put v i 1) i = true.
Proof.
  intros Hi. unfold JS.test. rewrite get_put_eq by lia. done.
Qed.

Lemma test_put_ne (v : list Z) (i j x : Z) :
  i <> j -> JS.test (JS.put v i x) j = JS.test v j.
Proof. intros Hne. unfold JS.test. by rewrite get_put_ne. Qed.

Lemma test_put_mono (v : list Z) (i j : Z) :
  0 <= i < Z.of_nat (length v) ->
  JS.test v j = true -> JS.test (JS.put v i 1) j = true.
Proof.
  intros Hi Hj. destruct (decide (i = j)) as [->|Hne].
  - by apply test_put_eq.
  - by rewrite test_put_ne.
Qed.

Section FillHoles.
Variables (out : list Z) (width height : Z).

Local Abbreviation push := (Analysis.pushIfBackground out).
Local Abbreviation inv := (fill_inv out width height).

(** The two outcomes of [pushIfBackground]. *)
Lemma push_cases idx (vq : list Z * list Z) :
  length vq.1 = length out ->
  (push idx vq = vq /\ (background out idx -> JS.test vq.1 idx = true)) \/
  (push idx vq = (JS.put vq.1 idx 1, idx :: vq.2) /\
   background out idx /\ JS.test vq.1 idx = false).
Proof.
  intros Hlen. unfold Analysis.pushIfBackground, background.
  destruct ((idx <? 0) || (idx >=? Z.of_nat (length out))) eqn:Erange.
  { left. split; [done|]. lia. }
  destruct (JS.test out idx) eqn:Eout; cbn [orb].
  { left. split; [done|]. intros [_ ?]. done. }
  destruct (JS.test vq.1 idx) eqn:Evis.
  { left. done. }
  right. repeat split; try done; lia.
Qed.

Lemma push_mono idx (vq : list Z * list Z) i :
  length vq.1 = length out ->
  JS.test vq.1 i = true -> JS.test (push idx vq).1 i = true.
Proof.
  intros Hlen Hi. destruct (push_cases idx vq Hlen) as [[-> _]|[-> [[Hr _] _]]]; [done|].
  cbn [fst]. apply test_put_mono; [lia|done].
Qed.

Lemma push_marks idx (vq : list Z * list Z) :
  length vq.1 = length out ->
  background out idx -> JS.test (push idx vq).1 idx = true.
Proof.
  intros Hlen Hb. destruct (push_cases idx vq Hlen) as [[-> H]|[-> [[Hr _] _]]]; [auto|].
  cbn [fst]. apply test_put_eq. lia.
Qed.

Lemma push_length idx (vq : list Z * list Z) :
  length vq.1 = length out -> length (push idx vq).1 = length out.
Proof.
  intros Hlen. destruct (push_cases idx vq Hlen) as [[-> _]|[-> _]]; [done|].
  cbn [fst]. by rewrite length_put.
Qed.

(** Pushing a pixel that is outside whenever it is background keeps the
    invariant. *)
Lemma push_inv idx (vq : list Z * list Z) :
  inv vq ->
  (background out idx -> outside out width height idx) ->
  inv (push idx vq).
Proof.
  intros [Hlen Hsound Hqueued Hclosed] Hidx.
  destruct (push_cases idx vq Hlen) as [[-> _]|[-> [Hb Hnew]]]; [done|].
  pose proof Hb as [Hr _].
  split; cbn [fst snd].
  - by rewrite length_put.
  - intros i Hi. destruct (decide (idx = i)) as [<-|Hne]; [auto|].
    rewrite test_put_ne in Hi by done. auto.
  - intros i Hi. apply elem_of_cons in Hi as [->|Hi].
    + apply test_put_eq. lia.
    + apply test_put_mono; [lia|auto].
  - intros i Hi. destruct (decide (idx = i)) as [<-|Hne]; [left; by left|].
    rewrite test_put_ne in Hi by done.
    destruct (Hclosed i Hi) as [Hq|Hn]; [left; by right|].
    right. intros j Hj Hadj Hbj. apply test_put_mono; [lia|auto].
Qed.

(** One pass of the [while] loop over the neighbours [ns] of the popped
    pixel [idx]: the invariant holds but for [idx], whose neighbours seen so
    far are marked. *)
Lemma fill_step_inv idx (ns : list Z) (vq : list Z * list Z) (seen : list Z) :
  length vq.1 = length out ->
  (forall i, JS.test vq.1 i = true -> outside out width height i) ->
  (forall i, i ∈ vq.2 -> JS.test vq.1 i = true) ->
  (forall i, JS.test vq.1 i = true ->
     i = idx \/ i ∈ vq.2 \/
     forall j, j ∈ Analysis.neighbours i width ->
       Analysis.not_adjacent j i width = false ->
       background out j -> JS.test vq.1 j = true) ->
  JS.test vq.1 idx = true ->
  (forall j, j ∈ ns -> j ∈ Analysis.neighbours idx width) ->
  (forall j, j ∈ seen -> Analysis.not_adjacent j idx width = false ->
     background out j -> JS.test vq.1 j = true) ->
  let vq' :=
    foldl (fun vq n =>
             if (n <? 0) || (n >=? Z.of_nat (length out)) then vq
             else if Analysis.not_adjacent n idx width then vq
             else push n vq) vq ns in
  length vq'.1 = length out /\
  (forall i, JS.test vq'.1 i = true -> outside out width height i) /\
  (forall i, i ∈ vq'.2 -> JS.test vq'.1 i = true) /\
  (forall i, JS.test vq'.1 i = true ->
     i = idx \/ i ∈ vq'.2 \/
     forall j, j ∈ Analysis.neighbours i width ->
       Analysis.not_adjacent j i width = false ->
       background out j -> JS.test vq'.1 j = true) /\
  (forall j, j ∈ seen ++ ns -> Analysis.not_adjacent j idx width = false ->
     background out j -> JS.test vq'.1 j = true) /\
  (forall i, JS.test vq.1 i = true -> JS.test vq'.1 i = true).
Proof.
  revert vq seen. induction ns as [|n ns IH];
    intros vq seen Hlen Hsound Hqueued Hclosed Hidx Hns Hseen.
  { cbn. rewrite app_nil_r. done. }
  cbn [foldl].
  set (vq1 := if (n <? 0) || (n >=? Z.of_nat (length out)) then vq
              else if Analysis.not_adjacent n idx width then vq else push n vq).
  assert (Hn : n ∈ Analysis.neighbours idx width) by (apply Hns; by left).
  assert (Hmono : forall i, JS.test vq.1 i = true -> JS.test vq1.1 i = true).
  { intros i Hi. subst vq1.
    destruct ((n <? 0) || (n >=? Z.of_nat (length out))); [done|].
    destruct (Analysis.not_adjacent n idx width); [done|]. by apply push_mono. }
  assert (Hn1 : Analysis.not_adjacent n idx width = false -> background out n ->
                JS.test vq1.1 n = true).
  { intros Hadj Hb. subst vq1. destruct Hb as [Hr Hb].
    destruct ((n <? 0) || (n >=? Z.of_nat (length out))) eqn:E; [lia|].
    rewrite Hadj. by apply push_marks. }
  assert (H1 : length vq1.1 = length out /\
    (forall i, JS.test vq1.1 i = true -> outside out width height i) /\
    (forall i, i ∈ vq1.2 -> JS.test vq1.1 i = true) /\
    (forall i, JS.test vq1.1 i = true ->
       i = idx \/ i ∈ vq1.2 \/
       forall j, j ∈ Analysis.neighbours i width ->
         Analysis.not_adjacent j i width = false ->
         background out j -> JS.test vq1.1 j = true)).
  { subst vq1.
    destruct ((n <? 0) || (n >=? Z.of_nat (length out))) eqn:E; [done|].
    destruct (Analysis.not_adjacent n idx width) eqn:Eadj; [done|].
    destruct (push_cases n vq Hlen) as [[-> _]|[-> [Hb Hnew]]]; [done|].
    pose proof Hb as [Hr _]. cbn [fst snd].
    split; [by rewrite length_put|]. split; [|split].
    - intros i Hi. destruct (decide (n = i)) as [<-|Hne].
      + apply (outside_step out width height idx n); auto.
      + rewrite test_put_ne in Hi by done. auto.
    - intros i Hi. apply elem_of_cons in Hi as [->|Hi].
      + apply test_put_eq. lia.
      + apply test_put_mono; [lia|auto].
    - intros i Hi. destruct (decide (n = i)) as [<-|Hne]; [right; left; by left|].
      rewrite test_put_ne in Hi by done.
      destruct (Hclosed i Hi) as [?|[Hq|Hc]]; [by left|right; left; by right|].
      right; right. intros j Hj Hadj Hbj. apply test_put_mono; [lia|auto]. }
  destruct H1 as (Hlen1 & Hsound1 & Hqueued1 & Hclosed1).
  destruct (IH vq1 (seen ++ [n]) Hlen1 Hsound1 Hqueued1 Hclosed1) as (L & S & Q & C & N & M).
  - by apply Hmono.
  - intros j Hj. apply Hns. by right.
  - intros j Hj Hadj Hb. apply elem_of_app in Hj as [Hj|Hj].
    + apply Hmono. auto.
    + apply list_elem_of_singleton in Hj as ->. auto.
  - cbn zeta. rewrite <- app_assoc in N. cbn [app] in N.
    repeat split; try done. intros i Hi. apply M. by apply Hmono.
Qed.

Lemma fill_loop_inv (fuel : nat) (vq : list Z * list Z) visited :
  inv vq ->
  Analysis.fill_loop fuel out width vq = Some visited ->
  inv (visited, []) /\
  (forall i, JS.test vq.1 i = true -> JS.test visited i = true).
Proof.
  revert vq. induction fuel as [|fuel IH]; intros [v q] Hinv Hrun.
  - destruct q; cbn in Hrun; [|done]. by inversion Hrun; subst.
  - destruct q as [|idx q]; [cbn in Hrun; by inversion Hrun; subst|].
    cbn [Analysis.fill_loop fst snd] in Hrun.
    destruct Hinv as [Hlen Hsound Hqueued Hclosed]. cbn [fst snd] in *.
    destruct (fill_step_inv idx (Analysis.neighbours idx width) (v, q) [])
      as (L & S & Q & C & N & M); cbn [fst snd]; try done.
    + intros i Hi. apply Hqueued. by right.
    + intros i Hi. destruct (Hclosed i Hi) as [Hq|Hc]; [|auto].
      apply elem_of_cons in Hq as [->|Hq]; auto.
    + apply Hqueued. by left.
    + intros j Hj. by apply elem_of_nil in Hj.
    + cbn zeta in *. cbn [app] in N.
      set (vq' := foldl _ (v, q) (Analysis.neighbours idx width)) in *.
      destruct (IH vq') as [Hfinal Hm]; [|done|].
      * split; try done. intros i Hi.
        destruct (C i Hi) as [->|[Hq|Hc]]; [|by left|by right].
        right. intros j Hj Hadj Hb. by apply N.
      * split; [done|]. intros i Hi. apply Hm, M, Hi.
Qed.

(** The loops that seed the fill from the border: [f x] and [g x] are pushed
    for each [x] in turn. *)
Lemma seed_loop_inv (f g : Z -> Z) (xs : list Z) (vq : list Z * list Z) :
  inv vq ->
  (forall x j, x ∈ xs -> j = f x \/ j = g x -> border width height j) ->
  let vq' := foldl (fun vq x => push (g x) (push (f x) vq)) vq xs in
  inv vq' /\
  (forall j, JS.test vq.1 j = true -> JS.test vq'.1 j = true) /\
  (forall x j, x ∈ xs -> j = f x \/ j = g x -> background out j ->
     JS.test vq'.1 j = true).
Proof.
  revert vq. induction xs as [|x xs IH]; intros vq Hinv Hxs.
  { cbn. split; [done|]. split; [done|]. intros x j Hx. by apply elem_of_nil in Hx. }
  cbn [foldl].
  assert (Ha : inv (push (f x) vq)).
  { apply push_inv; [done|]. intros Hb. apply outside_border; [|done].
    apply (Hxs x); [by left|auto]. }
  assert (Hb : inv (push (g x) (push (f x) vq))).
  { apply push_inv; [done|]. intros Hb. apply outside_border; [|done].
    apply (Hxs x); [by left|auto]. }
  destruct (IH _ Hb) as (Hinv' & Hm & Hseed).
  { intros x' j Hx'. apply Hxs. by right. }
  cbn zeta. split; [done|]. split.
  - intros j Hj. apply Hm. apply push_mono; [apply Ha|].
    apply push_mono; [apply Hinv|done].
  - intros x' j Hx' Hj Hbj. apply elem_of_cons in Hx' as [->|Hx']; [|eauto].
    apply Hm. destruct Hj as [->| ->].
    + apply push_mono; [apply Ha|]. apply push_marks; [apply Hinv|done].
    + apply push_marks; [apply Ha|done].
Qed.

Lemma clear_marks n i : JS.test (replicate n 0) i = false.
Proof.
  unfold JS.test, JS.get. destruct (i <? 0); [done|].
  destruct (replicate n 0 !! Z.to_nat i) eqn:E; [|done].
  apply lookup_replicate in E as [-> _]. done.
Qed.

(** The marks [fillHoles] ends with are the outside pixels. *)
Lemma fillHoles_marks visited :
  let vq0 := (replicate (length out) 0, []) in
  let vq1 := JS.for_range 0 width (fun x vq =>
               push ((height - 1) * width + x) (push x vq)) vq0 in
  let vq2 := JS.for_range 0 height (fun y vq =>
               push (y * width + (width - 1)) (push (y * width) vq)) vq1 in
  Analysis.fill_loop (S (length out)) out width vq2 = Some visited ->
  length visited = length out /\
  forall i, JS.test visited i = true <-> outside out width height i.
Proof.
  intros vq0 vq1 vq2 Hrun.
  assert (H0 : inv vq0).
  { unfold vq0. split; cbn [fst snd]; [by rewrite length_replicate|..].
    - intros j Hj. by rewrite clear_marks in Hj.
    - intros j Hj. by apply elem_of_nil in Hj.
    - intros j Hj. by rewrite clear_marks in Hj. }
  destruct (seed_loop_inv (fun x => x) (fun x => (height - 1) * width + x)
              (seqZ 0 (width - 0)) vq0 H0) as (H1 & _ & Hseed1).
  { intros x j Hx Hj. apply elem_of_seqZ in Hx. left. exists x. split; [lia|done]. }
  destruct (seed_loop_inv (fun y => y * width) (fun y => y * width + (width - 1))
              (seqZ 0 (height - 0)) vq1 H1) as (H2 & Hm2 & Hseed2).
  { intros y j Hy Hj. apply elem_of_seqZ in Hy. right. exists y. split; [lia|done]. }
  cbn zeta in *.
  destruct (fill_loop_inv _ vq2 visited H2 Hrun) as [[Hlen Hsound _ Hclosed] Hm].
  cbn [fst snd] in *. split; [done|]. intros i. split; [apply Hsound|].
  induction 1 as [i [[x [Hx Hi]]|[y [Hy Hi]]] Hb | i j Hi IH Hj Hadj Hb].
  - apply Hm, Hm2. apply (Hseed1 x); [apply elem_of_seqZ; lia|done..].
  - apply Hm. apply (Hseed2 y); [apply elem_of_seqZ; lia|done..].
  - destruct (Hclosed i IH) as [Hq|Hc]; [by apply elem_of_nil in Hq|auto].
Qed.
End FillHoles.

(** X4. [fillHoles] keeps every foreground pixel, leaves at zero every
    background pixel that a path of background pixels joins to the border
    of the raster, and sets every other background pixel to one. *)
Theorem fillHoles_spec (mask : list Z) (width height : Z) (out : list Z) (i : Z) :
  Analysis.fillHoles mask width height = Some out ->
  0 <= i < Z.of_nat (length mask) ->
  (JS.test mask i = true -> JS.get out i = JS.get mask i) /\
  (outside mask width height i -> JS.get out i = Some 0) /\
  (JS.test mask i = false -> ~ outside mask width height i -> JS.get out i = Some 1).
Proof.
  unfold Analysis.fillHoles. cbn zeta. intros Hrun Hi.
  destruct (Analysis.fill_loop _ _ _ _) as [visited|] eqn:Hloop; [|done].
  apply fillHoles_marks in Hloop as [Hlen Hmarks].
  cbn in Hrun. inversion Hrun; subst out; clear Hrun.
  destruct (lookup_lt_is_Some_2 mask (Z.to_nat i) ltac:(lia)) as [o Ho].
  destruct (lookup_lt_is_Some_2 visited (Z.to_nat i) ltac:(lia)) as [v Hv].
  assert (Hget : forall l : list Z, JS.get l i = l !! Z.to_nat i).
  { intros l. unfold JS.get. destruct (Z.ltb_spec i 0); [lia|done]. }
  assert (Hto : JS.test mask i = JS.truthy o).
  { unfold JS.test. by rewrite Hget, Ho. }
  assert (Htv : JS.test visited i = JS.truthy v).
  { unfold JS.test. by rewrite Hget, Hv. }
  rewrite !Hget, Ho. rewrite lookup_zip_with, Ho, Hv. cbn [mbind option_bind].
  specialize (Hmarks i). rewrite Htv in Hmarks. rewrite Hto.
  repeat split.
  - intros ->. done.
  - intros Hout. pose proof Hout as Hout'. apply Hmarks in Hout as ->.
    rewrite andb_false_r. f_equal.
    assert (Hb : background mask i).
    { clear -Hout'. by destruct Hout'. }
    destruct Hb as [_ Hb]. rewrite Hto in Hb. unfold JS.truthy in Hb.
    destruct (Z.eqb_spec o 0); [done|done].
  - intros -> Hnot. destruct (JS.truthy v) eqn:E; [|done].
    exfalso. apply Hnot, Hmarks. done.
Qed.

Lemma fillHoles_spec_witness :
  (JS.test ring_3x3 12 = true -> JS.get (<[12%nat := 1]> ring_3x3) 12 = JS.get ring_3x3 12) /\
  (outside ring_3x3 5 5 12 -> JS.get (<[12%nat := 1]> ring_3x3) 12 = Some 0) /\
  (JS.test ring_3x3 12 = false -> ~ outside ring_3x3 5 5 12 ->
     JS.get (<[12%nat := 1]> ring_3x3) 12 = Some 1).
Proof.
  apply (fillHoles_spec ring_3x3 5 5 (<[12%nat := 1]> ring_3x3) 12);
    [vm_compute; reflexivity | cbn; lia].
Defined.

(** ** Component searches *)

Lemma test_put_iff (v : list Z) (n j : Z) :
  0 <= n < Z.of_nat (length v) ->
  JS.test (JS.put v n 1) j = true <-> j = n \/ JS.test v j = true.
Proof.
  intros Hn. destruct (decide (n = j)) as [<-|Hne].
  - rewrite test_put_eq by done. tauto.
  - rewrite test_put_ne by done. split; [tauto|]. intros [?|?]; [congruence|done].
Qed.

Section SearchProperties.
Variables (elig : Z -> Z -> bool) (nbrs : Z -> list Z) (L : nat).
Hypothesis elig_range : forall i n, elig i n = true -> 0 <= n < Z.of_nat L.

Local Abbreviation step := (search_step elig nbrs).

(** The pass over the candidates [ns] of the popped pixel [idx]. *)
Lemma visit_fold idx ns v q :
  length v = L ->
  let vq' := foldl (visit elig idx) (v, q) ns in
  exists news,
    vq'.2 = news ++ q /\ NoDup news /\
    (forall n, n ∈ news -> n ∈ ns /\ elig idx n = true /\ JS.test v n = false) /\
    (forall j, JS.test vq'.1 j = true <-> JS.test v j = true \/ j ∈ news) /\
    (forall n, n ∈ ns -> elig idx n = true -> JS.test vq'.1 n = true) /\
    length vq'.1 = L /\
    work vq' = work (v, q).
Proof.
  revert v q. induction ns as [|n ns IH]; intros v q Hlen.
  { exists []. cbn. split; [done|]. split; [constructor|].
    split; [intros n Hn; by apply elem_of_nil in Hn|].
    split; [intros j; rewrite elem_of_nil; tauto|].
    split; [intros n Hn; by apply elem_of_nil in Hn|]. done. }
  cbn [foldl].
  assert (Hv : visit elig idx (v, q) n =
    if elig idx n && negb (JS.test v n) then (JS.put v n 1, n :: q) else (v, q)) by done.
  rewrite Hv. clear Hv.
  destruct (elig idx n && negb (JS.test v n)) eqn:E.
  - apply andb_true_iff in E as [He Hv]. apply negb_true_iff in Hv.
    pose proof (elig_range _ _ He) as Hr. rewrite <- Hlen in Hr.
    destruct (IH (JS.put v n 1) (n :: q)) as (news & Hq & Hnd & Hnew & Hmarks & Hall & Hl & Hw).
    { by rewrite length_put. }
    cbn zeta in *. exists (news ++ [n]).
    split; [by rewrite Hq, <- app_assoc|].
    split.
    { apply NoDup_app. split; [done|]. split; [|apply NoDup_singleton].
      intros x Hx Hxn. apply list_elem_of_singleton in Hxn as ->.
      destruct (Hnew n Hx) as (_ & _ & Hf). rewrite test_put_eq in Hf; done. }
    split.
    { intros m Hm. apply elem_of_app in Hm as [Hm|Hm].
      - destruct (Hnew m Hm) as (Hin & Hem & Hf). split; [by right|]. split; [done|].
        destruct (JS.test v m) eqn:Evm; [|done].
        rewrite test_put_mono in Hf; done.
      - apply list_elem_of_singleton in Hm as ->. split; [by left|done]. }
    split.
    { intros j. rewrite Hmarks, test_put_iff by done.
      rewrite elem_of_app, list_elem_of_singleton. tauto. }
    split.
    { intros m Hm Hem. apply elem_of_cons in Hm as [->|Hm]; [|auto].
      apply Hmarks. left. by apply test_put_eq. }
    split; [done|].
    rewrite Hw. unfold work. cbn [fst snd length].
    rewrite <- (zeros_mark v n) by done. lia.
  - destruct (IH v q Hlen) as (news & Hq & Hnd & Hnew & Hmarks & Hall & Hl & Hw).
    cbn zeta in *. exists news.
    split; [done|]. split; [done|].
    split.
    { intros m Hm. destruct (Hnew m Hm) as (? & ? & ?). split; [by right|done]. }
    split; [done|].
    split; [|done].
    intros m Hm Hem. apply elem_of_cons in Hm as [->|Hm]; [|auto].
    rewrite Hem in E. cbn in E. apply negb_false_iff in E.
    apply Hmarks. by left.
Qed.

(** The search started with the marks [v0] at the pixel [seed]. *)
Lemma search_inv (v0 : list Z) (seed : Z) (fuel : nat) (v q c v' c' : list Z) :
  length v = L ->
  NoDup (q ++ c) ->
  (forall j, JS.test v j = true <-> JS.test v0 j = true \/ j ∈ q ++ c) ->
  (forall j, j ∈ q ++ c -> JS.test v0 j = false /\ rtc step seed j) ->
  (forall j j', j ∈ c -> step j j' -> JS.test v j' = true) ->
  search elig nbrs fuel v q c = Some (v', c') ->
  length v' = L /\ NoDup c' /\
  (forall j, JS.test v' j = true <-> JS.test v0 j = true \/ j ∈ c') /\
  (forall j, j ∈ c' -> JS.test v0 j = false /\ rtc step seed j) /\
  (forall j j', j ∈ c' -> step j j' -> JS.test v' j' = true) /\
  (forall j, j ∈ q ++ c -> j ∈ c').
Proof.
  revert v q c. induction fuel as [|fuel IH]; intros v q c Hlen Hnd Hmarks Hreach Hclosed Hrun.
  { destruct q; [|done]. cbn in Hrun. inversion Hrun; subst. done. }
  destruct q as [|idx q]; [cbn in Hrun; inversion Hrun; subst; done|].
  cbn [search] in Hrun.
  destruct (visit_fold idx (nbrs idx) v q Hlen)
    as (news & Hq & Hnews & Hnew & Hm1 & Hall & Hl & _).
  cbn zeta in *.
  set (vq := foldl (visit elig idx) (v, q) (nbrs idx)) in *.
  rewrite Hq in Hrun.
  assert (Hfresh : forall n, n ∈ news -> n ∉ (idx :: q) ++ c).
  { intros n Hn Hin. destruct (Hnew n Hn) as (_ & _ & Hf).
    assert (JS.test v n = true) by (apply Hmarks; by right). congruence. }
  destruct (IH vq.1 (news ++ q) (c ++ [idx])) as (R1 & R2 & R3 & R4 & R5 & R6); try done.
  - apply (NoDup_Permutation_proper _ (news ++ ((idx :: q) ++ c))).
    { rewrite <- !app_assoc. apply Permutation_app_head.
      cbn. rewrite Permutation_middle. apply Permutation_app_head.
      symmetry. apply Permutation_cons_append. }
    apply NoDup_app. split; [done|]. split; [|done]. intros n Hn. by apply Hfresh.
  - intros j. rewrite Hm1, Hmarks. list_elems. tauto.
  - intros j Hj.
    assert (Hidx : rtc step seed idx) by (apply Hreach; by left).
    rewrite !elem_of_app, list_elem_of_singleton in Hj.
    destruct Hj as [[Hj|Hj]|[Hj|Hj]].
    + destruct (Hnew j Hj) as (Hin & He & Hf). split.
      * destruct (JS.test v0 j) eqn:E0; [|done].
        assert (JS.test v j = true) by (apply Hmarks; by left). congruence.
      * eapply rtc_r; [exact Hidx|]. by split.
    + apply Hreach. rewrite elem_of_app. left. by right.
    + apply Hreach. rewrite elem_of_app. by right.
    + subst j. apply Hreach. by left.
  - intros j j' Hj Hstep. apply elem_of_app in Hj as [Hj|Hj].
    + apply Hm1. left. by apply (Hclosed j).
    + apply list_elem_of_singleton in Hj as ->. destruct Hstep as [Hin He]. by apply Hall.
  - split; [done|]. split; [done|]. split; [done|]. split; [done|]. split; [done|].
    intros j Hj. apply R6. revert Hj. list_elems. tauto.
Qed.

Lemma search_spec (v0 : list Z) (seed : Z) (fuel : nat) (v' c' : list Z) :
  length v0 = L ->
  0 <= seed < Z.of_nat L ->
  JS.test v0 seed = false ->
  (forall j j', rtc step seed j -> step j j' ->
     JS.test v0 j' = true -> JS.test v0 j = true) ->
  search elig nbrs fuel (JS.put v0 seed 1) [seed] [] = Some (v', c') ->
  length v' = L /\ NoDup c' /\
  (forall j, j ∈ c' <-> rtc step seed j) /\
  (forall j, JS.test v' j = true <-> JS.test v0 j = true \/ j ∈ c') /\
  (forall j, j ∈ c' -> JS.test v0 j = false).
Proof.
  intros Hlen Hseed Hclear Hback Hrun.
  destruct (search_inv v0 seed fuel (JS.put v0 seed 1) [seed] [] v' c')
    as (R1 & R2 & R3 & R4 & R5 & R6); try done.
  - by rewrite length_put.
  - apply NoDup_singleton.
  - intros j. rewrite test_put_iff by lia. cbn. rewrite list_elem_of_singleton. tauto.
  - intros j Hj. cbn in Hj. apply list_elem_of_singleton in Hj as ->. done.
  - intros j j' Hj. by apply elem_of_nil in Hj.
  - split; [done|]. split; [done|]. split; [|split; [done|intros j Hj; by apply R4]].
    intros j. split; [intros Hj; by apply R4|].
    revert j. apply rtc_ind_r.
    + apply R6. by left.
    + intros j k Hij Hjk IH. assert (Hv : JS.test v' k = true) by (by apply (R5 j)).
      apply R3 in Hv as [Hv|Hv]; [|done].
      destruct (R4 j IH) as [Hf _].
      rewrite (Hback j k) in Hf; done.
Qed.

Lemma search_total (fuel : nat) (v q c : list Z) :
  length v = L -> (work (v, q) <= fuel)%nat ->
  exists v' c', search elig nbrs fuel v q c = Some (v', c').
Proof.
  revert v q c. induction fuel as [|fuel IH]; intros v q c Hlen Hwork.
  - unfold work in Hwork. cbn in *. destruct q; [|cbn in Hwork; lia]. eauto.
  - destruct q as [|idx q]; [cbn; eauto|].
    cbn [search].
    destruct (visit_fold idx (nbrs idx) v q Hlen) as (news & _ & _ & _ & _ & _ & Hl & Hw).
    cbn zeta in *. apply IH; [done|].
    destruct (foldl _ _ _) as [v1 q1]. cbn [fst snd] in *.
    unfold work in *. cbn [fst snd length] in *. lia.
Qed.
End SearchProperties.

(** *** Components of a mask *)

Section Components.
Variables (elig : Z -> Z -> bool) (nbrs : Z -> list Z) (mask : list Z).
Hypothesis elig_fg : forall i n, elig i n = true -> foreground mask n.
Hypothesis step_sym : forall i j,
  foreground mask i -> search_step elig nbrs i j -> search_step elig nbrs j i.

Local Abbreviation step := (search_step elig nbrs).

Local Abbreviation marks_inv := (marks_inv elig nbrs mask).

Lemma linked_fg i j : foreground mask i -> rtc step i j -> foreground mask j.
Proof.
  intros Hi Hij. induction Hij as [|i j k [_ He] _ IH]; [done|].
  apply IH. by apply (elig_fg i).
Qed.

Lemma linked_sym i j : foreground mask i -> rtc step i j -> rtc step j i.
Proof.
  intros Hi Hij. induction Hij as [|i j k Hstep Hjk IH]; [done|].
  pose proof Hstep as [_ He].
  eapply rtc_r; [apply IH; by apply (elig_fg i)|]. by apply step_sym.
Qed.

Lemma linked_class i j k :
  foreground mask i -> rtc step i j -> (rtc step i k <-> rtc step j k).
Proof.
  intros Hi Hij. split; intros H.
  - by etrans; [apply linked_sym|].
  - by etrans.
Qed.

Lemma component_size i j (c1 c2 : list Z) :
  foreground mask i -> rtc step i j ->
  NoDup c1 -> (forall k, k ∈ c1 <-> rtc step i k) ->
  NoDup c2 -> (forall k, k ∈ c2 <-> rtc step j k) ->
  length c1 = length c2.
Proof.
  intros Hi Hij Hn1 H1 Hn2 H2. apply Permutation_length.
  apply NoDup_Permutation; [done..|].
  intros k. rewrite H1, H2. by apply linked_class.
Qed.

Lemma marks_inv_clear : marks_inv (replicate (length mask) 0).
Proof.
  split; [by rewrite length_replicate|].
  split; intros j; rewrite clear_marks; done.
Qed.

(** One search adds the component of its seed to the marks. *)
Lemma component_of_seed (v : list Z) (seed : Z) (fuel : nat) (v' c' : list Z) :
  marks_inv v ->
  foreground mask seed ->
  JS.test v seed = false ->
  search elig nbrs fuel (JS.put v seed 1) [seed] [] = Some (v', c') ->
  marks_inv v' /\ NoDup c' /\
  (forall j, j ∈ c' <-> rtc step seed j) /\
  (forall j, JS.test v' j = true <-> JS.test v j = true \/ j ∈ c') /\
  (forall j, j ∈ c' -> JS.test v j = false).
Proof.
  intros (Hlen & Hfg & Hclosed) Hseed Hclear Hrun.
  destruct (search_spec elig nbrs (length mask)
              ltac:(intros i n He; by destruct (elig_fg i n He)) v seed fuel v' c')
    as (R1 & R2 & R3 & R4 & R5); try done.
  - by destruct Hseed.
  - intros j j' Hj Hstep Hv. apply (Hclosed j'); [done|].
    apply step_sym; [|done]. by apply (linked_fg seed).
  - split; [|done]. split; [done|]. split.
    + intros j Hj. apply R4 in Hj as [Hj|Hj]; [auto|].
      apply (linked_fg seed); [done|]. by apply R3.
    + intros j j' Hj Hstep. apply R4. apply R4 in Hj as [Hj|Hj].
      * left. by apply (Hclosed j).
      * right. apply R3. eapply rtc_r; [by apply R3|done].
Qed.
End Components.

(** *** The two searches of the source *)

Lemma neighbours_sym i j width :
  j ∈ Analysis.neighbours i width -> i ∈ Analysis.neighbours j width.
Proof.
  unfold Analysis.neighbours. list_elems. intros [->|[->|[->|[->|[]]]]].
  - right; left; lia.
  - left; lia.
  - right; right; right; left; lia.
  - right; right; left; lia.
Qed.

Lemma not_adjacent_sym n idx width :
  Analysis.not_adjacent n idx width = Analysis.not_adjacent idx n width.
Proof.
  unfold Analysis.not_adjacent. cbn zeta. f_equal. lia.
Qed.

Lemma elig4_fg mask width i n : elig4 mask width i n = true -> foreground mask n.
Proof.
  unfold elig4, foreground. intros H.
  apply andb_true_iff in H as [H _]. apply andb_true_iff in H as [Hr Hm].
  split; [lia|done].
Qed.

Lemma step4_sym mask width i j :
  foreground mask i ->
  search_step (elig4 mask width) (fun i => Analysis.neighbours i width) i j ->
  search_step (elig4 mask width) (fun i => Analysis.neighbours i width) j i.
Proof.
  intros [Hr Hm] [Hin He]. split; [by apply neighbours_sym|].
  unfold elig4 in *. rewrite Hm.
  apply andb_true_iff in He as [_ Hadj]. rewrite (not_adjacent_sym i j), Hadj.
  rewrite !andb_true_r. apply negb_true_iff. lia.
Qed.

Lemma component_loop_search (mask : list Z) (width : Z) (fuel : nat)
    (visited queue component : list Z) :
  Analysis.component_loop fuel mask width visited queue component =
  search (elig4 mask width) (fun i => Analysis.neighbours i width)
    fuel visited queue component.
Proof.
  revert visited queue component.
  induction fuel as [|fuel IH]; intros v q c; destruct q as [|idx q]; try done.
  cbn [Analysis.component_loop search].
  match goal with
  | |- Analysis.component_loop _ _ _ ?a.1 ?a.2 _ = search _ _ _ ?b.1 ?b.2 _ =>
      replace a with b; [apply IH|]
  end.
  generalize (v, q). induction (Analysis.neighbours idx width) as [|n ns IHn];
    intros vq; [done|].
  cbn [foldl]. rewrite <- IHn. f_equal.
  unfold visit, elig4.
  destruct ((n <? 0) || (n >=? Z.of_nat (length mask))); [done|].
  destruct (JS.test mask n); [|done].
  destruct (JS.test vq.1 n); cbn; [by rewrite andb_false_r|].
  by destruct (Analysis.not_adjacent n idx width).
Qed.

Lemma around_sym i j width :
  j ∈ ObjectDetection.around i width -> i ∈ ObjectDetection.around j width.
Proof.
  unfold ObjectDetection.around. list_elems.
  intros [->|[->|[->|[->|[->|[->|[->|[->|[]]]]]]]]].
  - right; left; lia.
  - left; lia.
  - right; right; right; left; lia.
  - right; right; left; lia.
  - do 7 right; left; lia.
  - do 6 right; left; lia.
  - do 5 right; left; lia.
  - do 4 right; left; lia.
Qed.

Lemma elig8_fg mask i n : elig8 mask i n = true -> foreground mask n.
Proof.
  unfold elig8, foreground. intros H. apply andb_true_iff in H as [Hr Hm].
  split; [lia|done].
Qed.

Lemma step8_sym mask width i j :
  foreground mask i ->
  search_step (elig8 mask) (fun i => ObjectDetection.around i width) i j ->
  search_step (elig8 mask) (fun i => ObjectDetection.around i width) j i.
Proof.
  intros [Hr Hm] [Hin He]. split; [by apply around_sym|].
  unfold elig8. rewrite Hm, andb_true_r. apply negb_true_iff. lia.
Qed.

Lemma component_from_search (mask : list Z) (width : Z) (fuel : nat)
    (visited stack component : list Z) :
  ObjectDetection.component_from fuel mask width visited stack component =
  search (elig8 mask) (fun i => ObjectDetection.around i width)
    fuel visited stack component.
Proof.
  revert visited stack component.
  induction fuel as [|fuel IH]; intros v q c; destruct q as [|idx q]; try done.
  cbn [ObjectDetection.component_from search].
  match goal with
  | |- ObjectDetection.component_from _ _ _ ?a.1 ?a.2 _ = search _ _ _ ?b.1 ?b.2 _ =>
      replace a with b; [apply IH|]
  end.
  generalize (v, q). induction (ObjectDetection.around idx width) as [|n ns IHn];
    intros vq; [done|].
  cbn [foldl]. rewrite <- IHn. f_equal.
  unfold visit, elig8, ObjectDetection.push.
  destruct ((n <? 0) || (n >=? Z.of_nat (length mask))); [done|].
  destruct (JS.test mask n); [|done].
  by destruct (JS.test vq.1 n).
Qed.

(** *** [removeSmallComponents] *)

Lemma clear_get_in (out c : list Z) (j : Z) :
  j ∈ c -> 0 <= j < Z.of_nat (length out) ->
  JS.get (foldl (fun out idx => JS.put out idx 0) out c) j = Some 0.
Proof.
  intros Hin Hr.
  apply (writes_get (fun p : Z => p) (fun _ => 0) c out j 0); [lia|lia|eauto|done].
Qed.

Lemma clear_get_out (out c : list Z) (j : Z) :
  j ∉ c -> JS.get (foldl (fun out idx => JS.put out idx 0) out c) j = JS.get out j.
Proof.
  intros Hout.
  apply (writes_untouched (fun p : Z => p) (fun _ => 0) c out j).
  intros p Hp ->. done.
Qed.

Section RemoveSmall.
Variables (mask : list Z) (width minArea : Z).

Local Abbreviation elig := (elig4 mask width).
Local Abbreviation nbrs := (fun i => Analysis.neighbours i width).
Local Abbreviation inv := (marks_inv elig nbrs mask).

Local Abbreviation small_inv := (small_inv mask width minArea).

Lemma small_step (seen : list Z) (i : Z) (st : list Z * list Z) :
  0 <= i < Z.of_nat (length mask) ->
  small_inv seen st ->
  exists st',
    (if negb (JS.test mask i) || JS.test st.2 i then Some (st.1, st.2)
     else
       '(visited', component) ←
         Analysis.component_loop (S (length mask)) mask width (JS.put st.2 i 1) [i] [];
       if Z.of_nat (length component) <? minArea
       then Some (foldl (fun out idx => JS.put out idx 0) st.1 component, visited')
       else Some (st.1, visited')) = Some st' /\
    small_inv (seen ++ [i]) st'.
Proof.
  intros Hi (Hlen & Hinv & Hseen & Hout & Hspec). destruct st as [out v]. cbn [fst snd] in *.
  destruct (JS.test mask i) eqn:Em; cbn [negb orb].
  2:{ eexists. split; [done|]. repeat (split; [done|]). cbn [fst snd].
      split; [|done]. intros j Hj Hfg. apply elem_of_app in Hj as [Hj|Hj]; [auto|].
      apply list_elem_of_singleton in Hj as ->. destruct Hfg. congruence. }
  destruct (JS.test v i) eqn:Ev.
  { eexists. split; [done|]. repeat (split; [done|]). cbn [fst snd].
    split; [|done]. intros j Hj Hfg. apply elem_of_app in Hj as [Hj|Hj]; [auto|].
    by apply list_elem_of_singleton in Hj as ->. }
  rewrite component_loop_search.
  pose proof Hinv as (Hvl & _ & _).
  destruct (search_total elig nbrs (length mask)
              ltac:(intros a n He; by destruct (elig4_fg mask width a n He))
              (S (length mask)) (JS.put v i 1) [i] []) as (v' & c' & Hrun).
  { by rewrite length_put. }
  { unfold work. cbn [fst snd length].
    pose proof (zeros_mark v i ltac:(lia) Ev). pose proof (zeros_le v). lia. }
  rewrite Hrun. cbn [mbind option_bind].
  destruct (component_of_seed elig nbrs mask (elig4_fg mask width) (step4_sym mask width)
              v i _ v' c' Hinv (conj Hi Em) Ev Hrun) as (Hinv' & Hnd & Hc & Hmarks & Hfresh).
  assert (Hseen' : forall j, j ∈ seen ++ [i] -> foreground mask j -> JS.test v' j = true).
  { intros j Hj Hfg. apply Hmarks. apply elem_of_app in Hj as [Hj|Hj]; [left; auto|].
    apply list_elem_of_singleton in Hj as ->. right. by apply Hc. }
  assert (Hsize : forall j comp, j ∈ c' -> NoDup comp ->
            (forall k, k ∈ comp <-> linked4 mask width j k) -> length comp = length c').
  { intros j comp Hj Hn Hcomp. symmetry.
    apply (component_size elig nbrs mask (elig4_fg mask width) (step4_sym mask width) i j);
      try done. by apply Hc. }
  destruct (Z.of_nat (length c') <? minArea) eqn:Esmall;
    eexists; (split; [done|]); unfold small_inv; cbn [fst snd];
    (split; [|split; [done|split; [done|split]]]).
  - by rewrite length_clear.
  - intros j Hj. rewrite clear_get_out; [apply Hout|].
    + destruct (JS.test v j) eqn:E; [|done].
      assert (JS.test v' j = true) by (apply Hmarks; by left). congruence.
    + intros Hin. assert (JS.test v' j = true) by (apply Hmarks; by right). congruence.
  - intros j Hj comp Hn Hcomp. apply Hmarks in Hj as [Hj|Hj].
    + rewrite clear_get_out; [by apply Hspec|].
      intros Hin. apply Hfresh in Hin. congruence.
    + rewrite (Hsize j comp Hj Hn Hcomp), Esmall.
      apply clear_get_in; [done|]. rewrite Hlen.
      apply (linked_fg elig nbrs mask (elig4_fg mask width) i j); [done|by apply Hc].
  - done.
  - intros j Hj. apply Hout.
    destruct (JS.test v j) eqn:E; [|done].
    assert (JS.test v' j = true) by (apply Hmarks; by left). congruence.
  - intros j Hj comp Hn Hcomp. apply Hmarks in Hj as [Hj|Hj].
    + by apply Hspec.
    + rewrite (Hsize j comp Hj Hn Hcomp), Esmall. apply Hout. by apply Hfresh.
Qed.

Lemma small_loop (idxs seen : list Z) (st : list Z * list Z) :
  Forall (fun i => 0 <= i < Z.of_nat (length mask)) idxs ->
  small_inv seen st ->
  exists st',
    foldl (fun st i =>
      '(out, visited) ← st;
      if negb (JS.test mask i) || JS.test visited i then Some (out, visited)
      else
        '(visited', component) ←
          Analysis.component_loop (S (length mask)) mask width (JS.put visited i 1) [i] [];
        if Z.of_nat (length component) <? minArea
        then Some (foldl (fun out idx => JS.put out idx 0) out component, visited')
        else Some (out, visited'))
      (Some st) idxs = Some st' /\
    small_inv (seen ++ idxs) st'.
Proof.
  intros Hin. revert seen st. induction Hin as [|i idxs Hi Hin IH]; intros seen st Hinv.
  { exists st. by rewrite app_nil_r. }
  cbn [foldl]. destruct (small_step seen i st Hi Hinv) as (st' & Hrun & Hinv').
  destruct st as [out v]. cbn [mbind option_bind fst snd] in *. rewrite Hrun.
  destruct (IH _ _ Hinv') as (st'' & Hrun' & Hinv'').
  exists st''. split; [done|]. by rewrite <- app_assoc in Hinv''.
Qed.
End RemoveSmall.

(** X5. With [minArea > 1], [removeSmallComponents] returns a mask of the
    same length in which a pixel that is not set keeps its value and a set
    pixel is cleared exactly when its component, the set pixels joined to it
    through the four neighbours in the raster, has fewer than [minArea]
    pixels. *)
Theorem removeSmallComponents_spec (mask : list Z) (width height minArea : Z) :
  1 < minArea ->
  exists out,
    Analysis.removeSmallComponents mask width height minArea = Some out /\
    length out = length mask /\
    forall i,
      (JS.test mask i = false -> JS.get out i = JS.get mask i) /\
      (foreground mask i ->
       forall comp, NoDup comp -> (forall k, k ∈ comp <-> linked4 mask width i k) ->
         JS.get out i =
           if Z.of_nat (length comp) <? minArea then Some 0 else JS.get mask i).
Proof.
  intros Harea. unfold Analysis.removeSmallComponents.
  destruct (Z.leb_spec minArea 1); [lia|].
  unfold JS.for_range.
  destruct (small_loop mask width minArea (seqZ 0 (Z.of_nat (length mask) - 0)) []
              (mask, replicate (length mask) 0))
    as ([out v] & Hrun & Hlen & Hinv & Hseen & Hout & Hspec).
  { apply Forall_forall. intros i Hi. apply elem_of_seqZ in Hi. lia. }
  { split; [done|]. split; [apply marks_inv_clear|]. cbn [fst snd].
    split; [intros j Hj; by apply elem_of_nil in Hj|].
    split; [done|]. intros j Hj. by rewrite clear_marks in Hj. }
  rewrite Hrun. cbn [fst snd fmap option_fmap option_map] in *.
  exists out. split; [done|]. split; [done|]. intros i. split.
  - intros Hi. apply Hout. destruct (JS.test v i) eqn:E; [|done].
    destruct Hinv as (_ & Hfg & _). destruct (Hfg i E). congruence.
  - intros Hfg. apply Hspec. apply Hseen; [|done].
    destruct Hfg. apply elem_of_seqZ. lia.
Qed.

Lemma removeSmallComponents_spec_witness :
  exists out,
    Analysis.removeSmallComponents [1; 0; 1; 1] 4 1 2 = Some out /\
    length out = length [1; 0; 1; 1] /\
    forall i,
      (JS.test [1; 0; 1; 1] i = false -> JS.get out i = JS.get [1; 0; 1; 1] i) /\
      (foreground [1; 0; 1; 1] i ->
       forall comp, NoDup comp -> (forall k, k ∈ comp <-> linked4 [1; 0; 1; 1] 4 i k) ->
         JS.get out i =
           if Z.of_nat (length comp) <? 2 then Some 0 else JS.get [1; 0; 1; 1] i).
Proof.
  apply (removeSmallComponents_spec [1; 0; 1; 1] 4 1 2). lia.
Defined.

(** *** [floodFillComponents] *)

Section FloodFill.
Variables (mask : list Z) (width : Z).

Local Abbreviation elig := (elig8 mask).
Local Abbreviation nbrs := (fun i => ObjectDetection.around i width).
Local Abbreviation flood_inv := (flood_inv mask width).

Lemma flood_step (seen : list Z) (i : Z) (st : list Z * list (list Z)) :
  0 <= i < Z.of_nat (length mask) ->
  flood_inv seen st ->
  exists st',
    (if negb (JS.test mask i) || JS.test st.1 i then Some (st.1, st.2)
     else
       '(visited', component) ←
         ObjectDetection.component_from (S (length mask)) mask width (JS.put st.1 i 1) [i] [];
       Some (visited', st.2 ++ [component])) = Some st' /\
    flood_inv (seen ++ [i]) st'.
Proof.
  intros Hi (Hinv & Hseen & Hnd & Hmem & Hcomp). destruct st as [v comps].
  cbn [fst snd] in *.
  destruct (JS.test mask i) eqn:Em; cbn [negb orb].
  2:{ eexists. split; [done|]. unfold flood_inv. cbn [fst snd].
      split; [done|]. split; [|done].
      intros j Hj Hfg. apply elem_of_app in Hj as [Hj|Hj]; [auto|].
      apply list_elem_of_singleton in Hj as ->. destruct Hfg. congruence. }
  destruct (JS.test v i) eqn:Ev.
  { eexists. split; [done|]. unfold flood_inv. cbn [fst snd].
    split; [done|]. split; [|done].
    intros j Hj Hfg. apply elem_of_app in Hj as [Hj|Hj]; [auto|].
    by apply list_elem_of_singleton in Hj as ->. }
  rewrite component_from_search.
  pose proof Hinv as (Hvl & _ & _).
  destruct (search_total elig nbrs (length mask)
              ltac:(intros a n He; by destruct (elig8_fg mask a n He))
              (S (length mask)) (JS.put v i 1) [i] []) as (v' & c' & Hrun).
  { by rewrite length_put. }
  { unfold work. cbn [fst snd length].
    pose proof (zeros_mark v i ltac:(lia) Ev). pose proof (zeros_le v). lia. }
  rewrite Hrun. cbn [mbind option_bind].
  destruct (component_of_seed elig nbrs mask (elig8_fg mask) (step8_sym mask width)
              v i _ v' c' Hinv (conj Hi Em) Ev Hrun) as (Hinv' & Hndc & Hc & Hmarks & Hfresh).
  eexists. split; [done|]. unfold flood_inv. cbn [fst snd].
  rewrite concat_app. cbn [concat]. rewrite app_nil_r.
  split; [done|]. split; [|split; [|split]].
  - intros j Hj Hfg. apply Hmarks. apply elem_of_app in Hj as [Hj|Hj]; [left; auto|].
    apply list_elem_of_singleton in Hj as ->. right. by apply Hc.
  - apply NoDup_app. split; [done|]. split; [|done].
    intros j Hj Hin. apply Hmem in Hj. apply Hfresh in Hin. congruence.
  - intros j. rewrite elem_of_app, Hmem, Hmarks. tauto.
  - apply Forall_app. split; [done|]. apply Forall_singleton.
    exists i. split; [done|]. apply Hc.
Qed.

Lemma flood_loop (idxs seen : list Z) (st : list Z * list (list Z)) :
  Forall (fun i => 0 <= i < Z.of_nat (length mask)) idxs ->
  flood_inv seen st ->
  exists st',
    foldl (fun st idx =>
      '(visited, components) ← st;
      if negb (JS.test mask idx) || JS.test visited idx then Some (visited, components)
      else
        '(visited', component) ←
          ObjectDetection.component_from (S (length mask)) mask width
            (JS.put visited idx 1) [idx] [];
        Some (visited', components ++ [component]))
      (Some st) idxs = Some st' /\
    flood_inv (seen ++ idxs) st'.
Proof.
  intros Hin. revert seen st. induction Hin as [|i idxs Hi Hin IH]; intros seen st Hinv.
  { exists st. by rewrite app_nil_r. }
  cbn [foldl]. destruct (flood_step seen i st Hi Hinv) as (st' & Hrun & Hinv').
  destruct st as [v comps]. cbn [mbind option_bind fst snd] in *. rewrite Hrun.
  destruct (IH _ _ Hinv') as (st'' & Hrun' & Hinv'').
  exists st''. split; [done|]. by rewrite <- app_assoc in Hinv''.
Qed.
End FloodFill.

(** X6. [floodFillComponents] returns, for every mask, a list of components
    that partitions the set pixels: no pixel occurs twice, the pixels that
    occur are the set pixels, and each component consists of the pixels
    linked to one set pixel through the eight indices around a pixel. *)
Theorem floodFillComponents_partition (mask : list Z) (width height : Z) :
  exists comps,
    ObjectDetection.floodFillComponents mask width height = Some comps /\
    NoDup (concat comps) /\
    (forall i, i ∈ concat comps <-> foreground mask i) /\
    Forall (component8 mask width) comps.
Proof.
  unfold ObjectDetection.floodFillComponents, JS.for_range.
  destruct (flood_loop mask width (seqZ 0 (Z.of_nat (length mask) - 0)) []
              (replicate (length mask) 0, []))
    as ([v comps] & Hrun & Hinv & Hseen & Hnd & Hmem & Hcomp).
  { apply Forall_forall. intros i Hi. apply elem_of_seqZ in Hi. lia. }
  { split; [apply marks_inv_clear|]. cbn [fst snd concat].
    split; [intros j Hj; by apply elem_of_nil in Hj|].
    split; [constructor|].
    split; [|constructor].
    intros j. rewrite clear_marks, elem_of_nil. split; [done|discriminate]. }
  rewrite Hrun. cbn [fst snd fmap option_fmap option_map] in *.
  exists comps. split; [done|]. split; [done|]. split; [|done].
  intros i. rewrite Hmem. split.
  - destruct Hinv as (_ & Hfg & _). apply Hfg.
  - intros Hfg. apply Hseen; [|done]. destruct Hfg. apply elem_of_seqZ. lia.
Qed.

(** ** Classification *)

Section Classify.
Import ObjectDetection.

Lemma Qmax_ge_l (a b : Q) : (a <= JS.Qmax a b)%Q.
Proof.
  unfold JS.Qmax. destruct (JS.Qltb a b) eqn:E; [|lra].
  apply Qltb_true in E. lra.
Qed.

Lemma clamp_range (v : Q) : (0 <= clamp v <= 1)%Q.
Proof.
  split; [|apply clamp_upper]. unfold clamp, JS.Qmin.
  pose proof (Qmax_ge_l 0 v). destruct (JS.Qltb (JS.Qmax 0 v) 1); lra.
Qed.

Lemma clamp_id (v : Q) : (0 <= v <= 1)%Q -> (clamp v == v)%Q.
Proof.
  intros [H0 H1]. unfold clamp, JS.Qmin, JS.Qmax.
  destruct (JS.Qltb 0 v) eqn:E0.
  - destruct (JS.Qltb v 1) eqn:E1; [reflexivity|]. apply Qltb_false in E1. lra.
  - apply Qltb_false in E0. destruct (JS.Qltb 0 1) eqn:E1; [lra|].
    apply Qltb_false in E1. lra.
Qed.

Lemma sort_head_elem {A} (before : A -> A -> bool) (l : list A) (x : A) (rest : list A) :
  JS.sort before l = x :: rest -> x ∈ l.
Proof.
  intros Heq. rewrite <- (sort_perm before l), Heq. by left.
Qed.

Lemma sort_nil {A} (before : A -> A -> bool) (l : list A) :
  JS.sort before l = [] -> l = [].
Proof.
  intros Heq. apply Permutation_nil_r. by rewrite <- Heq, sort_perm.
Qed.
End Classify.

(** X7. [classifyUrbanFeature] returns a category only when the component
    passes that category's size test (building: at least 1000 pixels;
    bridge: major axis at least 40 and minor axis at most 80; border wall:
    major axis at least 35; river: at least 900 pixels); the shape score of
    such a category lies between 0.5 and 1, the fallback "urban feature"
    scores between 0.35 and 0.75, and a note is always given. *)
Theorem classifyUrbanFeature_gates (metrics : ObjectDetection.ClassificationMetrics) :
  let c := ObjectDetection.classifyUrbanFeature metrics in
  category_gate metrics (ObjectDetection.c_categoryId c) /\
  (ObjectDetection.c_categoryId c <> ObjectDetection.urban_feature ->
   (1 # 2 <= ObjectDetection.c_shapeScore c <= 1)%Q) /\
  (ObjectDetection.c_categoryId c = ObjectDetection.urban_feature ->
   (35 # 100 <= ObjectDetection.c_shapeScore c <= 75 # 100)%Q) /\
  is_Some (ObjectDetection.c_notes c).
Proof.
  unfold ObjectDetection.classifyUrbanFeature. cbn zeta.
  match goal with
  | |- context [JS.sort ?f ?l] => set (before := f); set (cands := l)
  end.
  assert (Hok : Forall (candidate_ok metrics) cands).
  { subst cands.
    repeat match goal with
    | |- Forall _ (if ?c then _ else _) => destruct c eqn:?
    | |- Forall _ (_ ++ _) => apply Forall_app; split
    | |- Forall _ [_] => apply Forall_singleton
    | |- Forall _ [] => constructor
    end.
    all: repeat match goal with
         | H : _ && _ = true |- _ => apply andb_true_iff in H as [? ?]
         end.
    all: unfold candidate_ok; cbn [ObjectDetection.cand_categoryId
           ObjectDetection.cand_score category_gate].
    all: split; [lia|]; split; [done|].
    all: match goal with
         | |- context [ObjectDetection.clamp ?v] =>
             pose proof (clamp_range v); lra
         end. }
  destruct (JS.sort before cands) as [|best rest] eqn:Hsort.
  - cbn. split; [done|]. split; [done|]. split; [|eauto]. intros _.
    match goal with
    | |- context [ObjectDetection.clamp ?v] => pose proof (clamp_range v); lra
    end.
  - apply sort_head_elem in Hsort.
    rewrite Forall_forall in Hok. destruct (Hok best Hsort) as (Hgate & Hcat & Hscore).
    cbn. split; [done|]. split; [|split; [done|eauto]].
    intros _. rewrite clamp_id; lra.
Qed.

(** ** The boxes of the detector *)

Section Boxes.
Import ObjectDetection.

Lemma zhangSuenThin_returns (mask : list Z) (width height : Z) :
  exists out, zhangSuenThin mask width height = Some out.
Proof.
  apply thin_loop_enough_fuel. pose proof (set_pixels_le_length mask). lia.
Qed.


End Boxes.


(** ** The detector as a whole *)

Section Detector.
Import ObjectDetection.

(** What the greedy pass of [nonMaximumSuppression] returns. *)
Lemma nms_sorted_apart (boxes : list DetectionBox) (t : Q) :
  StronglySorted (apart t) (nonMaximumSuppression boxes t) /\
  StronglySorted descending (nonMaximumSuppression boxes t) /\
  nonMaximumSuppression boxes t `sublist_of` JS.sort more_confident boxes.
Proof.
  unfold nonMaximumSuppression. cbn zeta.
  destruct (nms_greedy t (JS.sort more_confident boxes) [] [])
    as [Hsub Hapart]; [done|constructor|].
  rewrite app_nil_l in Hsub. split; [done|]. split; [|done].
  eapply StronglySorted_sublist; [done|]. apply sort_descending.
Qed.









End Detector.


(** ** Non-maximum suppression: what is dropped, and applying it twice *)

Section Suppression.
Import ObjectDetection.

Lemma covered_mono t keep keep' b :
  (forall k, k ∈ keep -> k ∈ keep') -> covered t keep b -> covered t keep' b.
Proof.
  intros Hsub [Hin|(k & Hk & Hiou & Hconf)]; [left; auto|].
  right. exists k. auto.
Qed.

Lemma nms_fold_covered (t : Q) (rest pre keep : list DetectionBox) :
  StronglySorted descending (pre ++ rest) ->
  (forall k, k ∈ keep -> k ∈ pre) ->
  (forall b, b ∈ pre -> covered t keep b) ->
  forall b, b ∈ pre ++ rest ->
    covered t
      (foldl (fun keep box =>
                if existsb (fun k => JS.Qgeb (iou (bbox box) (bbox k)) t) keep
                then keep else keep ++ [box]) keep rest) b.
Proof.
  revert pre keep. induction rest as [|box rest IH]; intros pre keep Hsorted Hkeep Hcov b Hb.
  { cbn. rewrite app_nil_r in Hb. auto. }
  cbn [foldl].
  replace (pre ++ box :: rest) with ((pre ++ [box]) ++ rest) in *
    by (by rewrite <- app_assoc).
  assert (Hbefore : forall k, k ∈ pre -> (confidence box <= confidence k)%Q).
  { intros k Hk. apply StronglySorted_app_1_l in Hsorted.
    apply (StronglySorted_app_1_elem_of descending pre [box] k box Hsorted Hk). by left. }
  apply (IH (pre ++ [box])); [done| | |done].
  - intros k Hk. destruct (existsb _ keep).
    + apply elem_of_app. left. auto.
    + apply elem_of_app in Hk as [Hk|Hk]; apply elem_of_app; [left; auto|by right].
  - intros c Hc. apply elem_of_app in Hc as [Hc|Hc].
    + eapply covered_mono; [|by apply Hcov].
      intros k Hk. destruct (existsb _ keep); [done|]. apply elem_of_app. by left.
    + apply list_elem_of_singleton in Hc as ->.
      destruct (existsb _ keep) eqn:E.
      * apply existsb_exists in E as (k & Hk & Hge). apply list_elem_of_In in Hk.
        right. exists k. split; [done|]. split; [|by apply Hbefore, Hkeep].
        unfold JS.Qgeb in Hge. by apply Qle_bool_iff in Hge.
      * left. apply elem_of_app. right. by left.
Qed.

(** Insertion into a list none of whose elements the new one precedes. *)
Lemma insert_sorted_last {A} (before : A -> A -> bool) (x : A) (l : list A) :
  (forall y, y ∈ l -> before x y = false) -> JS.insert_sorted before x l = l ++ [x].
Proof.
  induction l as [|y l IH]; intros Hall; [done|].
  cbn [JS.insert_sorted]. rewrite (Hall y) by (by left). cbn. f_equal.
  apply IH. intros z Hz. apply Hall. by right.
Qed.

Lemma sort_from_sorted (l acc : list DetectionBox) :
  StronglySorted descending (acc ++ l) ->
  foldl (fun acc x => JS.insert_sorted more_confident x acc) acc l = acc ++ l.
Proof.
  revert acc. induction l as [|x l IH]; intros acc Hsorted.
  { cbn. by rewrite app_nil_r. }
  cbn [foldl].
  replace (acc ++ x :: l) with ((acc ++ [x]) ++ l) in * by (by rewrite <- app_assoc).
  rewrite insert_sorted_last; [by apply IH|].
  intros y Hy. apply more_confident_false.
  apply StronglySorted_app_1_l in Hsorted.
  apply (StronglySorted_app_1_elem_of descending acc [x] y x Hsorted Hy). by left.
Qed.

Lemma nms_fold_apart (t : Q) (rest keep : list DetectionBox) :
  StronglySorted (apart t) (keep ++ rest) ->
  foldl (fun keep box =>
           if existsb (fun k => JS.Qgeb (iou (bbox box) (bbox k)) t) keep
           then keep else keep ++ [box]) keep rest = keep ++ rest.
Proof.
  revert keep. induction rest as [|box rest IH]; intros keep Hsorted.
  { cbn. by rewrite app_nil_r. }
  cbn [foldl].
  replace (keep ++ box :: rest) with ((keep ++ [box]) ++ rest) in *
    by (by rewrite <- app_assoc).
  destruct (existsb _ keep) eqn:E; [|by apply IH].
  exfalso. apply existsb_exists in E as (k & Hk & Hge). apply list_elem_of_In in Hk.
  apply StronglySorted_app_1_l in Hsorted.
  pose proof (StronglySorted_app_1_elem_of (apart t) keep [box] k box Hsorted Hk
                ltac:(by left)) as Hap.
  unfold apart in Hap. unfold JS.Qgeb in Hge. apply Qle_bool_iff in Hge. lra.
Qed.
End Suppression.

(** X10. [nonMaximumSuppression] drops a box only for a reason: every input
    box is returned, or has an IoU of at least the threshold with a returned
    box whose confidence is at least its own. *)
Theorem nms_accounts_for_every_box (boxes : list ObjectDetection.DetectionBox) (t : Q)
    (b : ObjectDetection.DetectionBox) :
  b ∈ boxes -> covered t (ObjectDetection.nonMaximumSuppression boxes t) b.
Proof.
  intros Hb. unfold ObjectDetection.nonMaximumSuppression. cbn zeta.
  apply (nms_fold_covered t (JS.sort ObjectDetection.more_confident boxes) [] []).
  - apply sort_descending.
  - intros k Hk. by apply elem_of_nil in Hk.
  - intros c Hc. by apply elem_of_nil in Hc.
  - cbn [app]. by rewrite sort_perm.
Qed.

Lemma nms_accounts_for_every_box_witness :
  covered (35 # 100) (ObjectDetection.nonMaximumSuppression three_boxes (35 # 100))
    (plain_box "a" (5 # 10) 0 0 10 10).
Proof.
  apply (nms_accounts_for_every_box three_boxes (35 # 100)
           (plain_box "a" (5 # 10) 0 0 10 10)).
  by left.
Defined.

(** X11. [nonMaximumSuppression] is idempotent: applied with the same
    threshold to its own result, it returns that result. *)
Theorem nms_idempotent (boxes : list ObjectDetection.DetectionBox) (t : Q) :
  ObjectDetection.nonMaximumSuppression
    (ObjectDetection.nonMaximumSuppression boxes t) t
  = ObjectDetection.nonMaximumSuppression boxes t.
Proof.
  destruct (nms_sorted_apart boxes t) as (Hapart & Hsorted & _).
  set (R := ObjectDetection.nonMaximumSuppression boxes t) in *.
  unfold ObjectDetection.nonMaximumSuppression at 1. cbn zeta.
  unfold JS.sort. rewrite (sort_from_sorted R []) by done. cbn [app].
  by apply (nms_fold_apart t R []).
Qed.

(** ** Percentiles and normalisation *)

Section Ascending.

Lemma insert_sorted_ascending (x : Q) (l : list Q) :
  StronglySorted Qle l -> StronglySorted Qle (JS.insert_sorted JS.Qltb x l).
Proof.
  induction 1 as [|y l Hl IH Hy]; [repeat constructor|].
  cbn [JS.insert_sorted]. destruct (JS.Qltb x y) eqn:E.
  - apply Qltb_true in E. constructor; [by constructor|].
    constructor; [lra|]. eapply Forall_impl; [exact Hy|]. intros z Hz. cbn in Hz. lra.
  - apply Qltb_false in E. constructor; [done|].
    rewrite (insert_sorted_perm JS.Qltb x l). by constructor.
Qed.

Lemma sort_ascending (l : list Q) : StronglySorted Qle (JS.sort JS.Qltb l).
Proof.
  unfold JS.sort.
  assert (Hgen : forall acc, StronglySorted Qle acc ->
            StronglySorted Qle (foldl (fun acc x => JS.insert_sorted JS.Qltb x acc) acc l)).
  { induction l as [|x l IH]; intros acc Hacc; [done|].
    cbn [foldl]. apply IH. by apply insert_sorted_ascending. }
  apply Hgen. constructor.
Qed.

Lemma sorted_lookup_le (l : list Q) (i j : nat) (a b : Q) :
  StronglySorted Qle l -> (i <= j)%nat -> l !! i = Some a -> l !! j = Some b -> (a <= b)%Q.
Proof.
  intros Hs Hij Ha Hb. destruct (decide (i = j)) as [->|Hne].
  - rewrite Ha in Hb. inversion Hb. lra.
  - apply (StronglySorted_lookup Qle l i j a b Hs); [lia|done..].
Qed.

Lemma round_mono (x y : Q) : (x <= y)%Q -> JS.round x <= JS.round y.
Proof. intros H. unfold JS.round. apply Qfloor_resp_le. lra. Qed.

Lemma round_comp (x y : Q) : (x == y)%Q -> JS.round x = JS.round y.
Proof. intros H. unfold JS.round. apply Qfloor_comp. by rewrite H. Qed.

Lemma round_Z (z : Z) : JS.round (inject_Z z) = z.
Proof.
  unfold JS.round. apply Z.le_antisymm.
  - pose proof (Qfloor_le (inject_Z z + (1 # 2))) as Hle.
    assert (Hlt : (inject_Z (Qfloor (inject_Z z + (1 # 2))) < inject_Z (z + 1))%Q).
    { rewrite inject_Z_plus. change (inject_Z 1) with 1%Q. lra. }
    rewrite <- Zlt_Qlt in Hlt. lia.
  - rewrite <- (Qfloor_Z z) at 1. apply Qfloor_resp_le. lra.
Qed.

Lemma percentile_index_range (n : Z) (p : Q) :
  0 < n -> 0 <= Analysis.percentile_index n p < n.
Proof. unfold Analysis.percentile_index. lia. Qed.

Lemma percentile_index_mono (n : Z) (p q : Q) :
  0 < n -> (p <= q)%Q ->
  Analysis.percentile_index n p <= Analysis.percentile_index n q.
Proof.
  intros Hn Hpq. unfold Analysis.percentile_index.
  assert (JS.round (p / 100 * inject_Z (n - 1)) <= JS.round (q / 100 * inject_Z (n - 1))).
  { apply round_mono.
    assert (0 <= inject_Z (n - 1))%Q.
    { change 0%Q with (inject_Z 0). rewrite <- Zle_Qle. lia. }
    apply Qmult_le_compat_r; [|done]. unfold Qdiv.
    apply Qmult_le_compat_r; [done|]. apply Qinv_le_0_compat. lra. }
  lia.
Qed.

(** The percentile of a raster with a finite sample, as a lookup in the
    sorted samples. *)
Lemma percentile_lookup (values : list JS.num) (p : Q) :
  Analysis.finite_samples values <> [] ->
  JS.sort JS.Qltb (Analysis.finite_samples values)
    !! Z.to_nat (Analysis.percentile_index
                   (Z.of_nat (length (Analysis.finite_samples values))) p)
  = Some (Analysis.percentile values p).
Proof.
  intros Hne. unfold Analysis.percentile. cbn zeta.
  destruct (Analysis.finite_samples values) as [|v0 arr] eqn:E; [done|].
  set (n := Z.of_nat (length (v0 :: arr))).
  assert (Hn : 0 < n) by (unfold n; cbn [length]; lia).
  pose proof (percentile_index_range n p Hn) as Hidx.
  unfold JS.get. destruct (Z.ltb_spec (Analysis.percentile_index n p) 0); [lia|].
  destruct (lookup_lt_is_Some_2 (JS.sort JS.Qltb (v0 :: arr))
              (Z.to_nat (Analysis.percentile_index n p))) as [v Hv].
  { rewrite (Permutation_length (sort_perm JS.Qltb (v0 :: arr))).
    assert (Z.of_nat (length (v0 :: arr)) = n) by done. lia. }
  by rewrite Hv.
Qed.
End Ascending.

(** X12. [percentile] (the same function in both files) returns 0 for a
    raster without a finite sample and otherwise one of the finite samples;
    it is monotone in [p], and the percentiles 0 and 100 are the least and
    the greatest finite sample. *)
Theorem percentile_spec (values : list JS.num) :
  (forall p, ObjectDetection.percentile values p = Analysis.percentile values p) /\
  (Analysis.finite_samples values = [] -> forall p, Analysis.percentile values p = 0%Q) /\
  (Analysis.finite_samples values <> [] ->
     forall p, Analysis.percentile values p ∈ Analysis.finite_samples values) /\
  (forall p q, (p <= q)%Q ->
     (Analysis.percentile values p <= Analysis.percentile values q)%Q) /\
  (forall v, v ∈ Analysis.finite_samples values ->
     (Analysis.percentile values 0 <= v <= Analysis.percentile values 100)%Q).
Proof.
  split; [done|]. split.
  { intros Hnil p. unfold Analysis.percentile. by rewrite Hnil. }
  set (arr := Analysis.finite_samples values).
  set (n := Z.of_nat (length arr)).
  pose proof (sort_ascending arr) as Hsorted.
  pose proof (sort_perm JS.Qltb arr) as Hperm.
  split; [|split].
  - intros Hne p. rewrite <- Hperm.
    apply (list_elem_of_lookup_2 _ _ _ (percentile_lookup values p Hne)).
  - intros p q Hpq. destruct (decide (arr = [])) as [Hnil|Hne].
    { unfold Analysis.percentile. fold arr. rewrite Hnil. lra. }
    assert (Hn : 0 < n).
    { unfold n. destruct arr; [done|]. cbn [length]. lia. }
    pose proof (percentile_index_range n p Hn).
    pose proof (percentile_index_range n q Hn).
    pose proof (percentile_index_mono n p q Hn Hpq).
    eapply (sorted_lookup_le _ _ _ _ _ Hsorted);
      [|apply (percentile_lookup values p Hne)|apply (percentile_lookup values q Hne)].
    fold arr n. lia.
  - intros v Hv.
    assert (Hne : arr <> []) by (intros Hnil; rewrite Hnil in Hv; by apply elem_of_nil in Hv).
    assert (Hn : 0 < n).
    { unfold n. destruct arr; [done|]. cbn [length]. lia. }
    rewrite <- Hperm in Hv. apply list_elem_of_lookup_1 in Hv as [k Hk].
    pose proof (lookup_lt_Some _ _ _ Hk) as Hlt.
    rewrite (Permutation_length Hperm) in Hlt.
    assert (H0 : Analysis.percentile_index n 0 = 0).
    { unfold Analysis.percentile_index.
      assert (JS.round (0 / 100 * inject_Z (n - 1)) = 0).
      { rewrite (round_comp _ (inject_Z 0)); [apply round_Z|].
        change (inject_Z 0) with 0%Q. field. }
      lia. }
    assert (H100 : Analysis.percentile_index n 100 = n - 1).
    { unfold Analysis.percentile_index.
      assert (JS.round (100 / 100 * inject_Z (n - 1)) = n - 1).
      { rewrite (round_comp _ (inject_Z (n - 1))); [apply round_Z|]. field. }
      lia. }
    split.
    + eapply (sorted_lookup_le _ _ k _ _ Hsorted); [|apply (percentile_lookup values 0 Hne)|exact Hk].
      fold arr n. rewrite H0. lia.
    + eapply (sorted_lookup_le _ k _ _ _ Hsorted); [|exact Hk|apply (percentile_lookup values 100 Hne)].
      fold arr n. rewrite H100. unfold n. lia.
Qed.

Section Stretch.

Lemma normalize_sample_fin (lo range v : Q) :
  (0 < range)%Q ->
  Analysis.normalize_sample lo range (JS.Fin v)
  = Z.min 255 (Z.max 0 (JS.round ((v + - lo) / range * 255))).
Proof.
  intros Hr. unfold Analysis.normalize_sample. cbn [JS.sub JS.neg JS.add JS.div].
  destruct (Qeq_bool range 0) eqn:E; [apply Qeq_bool_eq in E; lra|]. done.
Qed.

Lemma normalize_sample_byte (lo range : Q) (v : JS.num) :
  0 <= Analysis.normalize_sample lo range v <= 255.
Proof.
  unfold Analysis.normalize_sample. destruct (JS.mul _ _); lia.
Qed.

Lemma stretch_map (lo hi : Q) (values : list JS.num) :
  stretch lo hi values
    (Analysis.normalize_sample lo (JS.Qmax (1 # 1000000) (hi - lo)) <$> values).
Proof.
  set (range := JS.Qmax (1 # 1000000) (hi - lo)).
  assert (Hr : (0 < range)%Q).
  { pose proof (Qmax_ge_l (1 # 1000000) (hi - lo)). fold range in H. lra. }
  assert (Hlook : forall (i : nat) a x,
            values !! i = Some (JS.Fin a) ->
            (Analysis.normalize_sample lo range <$> values) !! i = Some x ->
            x = Z.min 255 (Z.max 0 (JS.round ((a + - lo) / range * 255)))).
  { intros i a x Ha Hx. rewrite list_lookup_fmap, Ha in Hx. cbn in Hx.
    inversion Hx. by apply normalize_sample_fin. }
  assert (Hscale : forall a b, (a <= b)%Q ->
            ((a + - lo) / range * 255 <= (b + - lo) / range * 255)%Q).
  { intros a b Hab. apply Qmult_le_compat_r; [|lra]. unfold Qdiv.
    apply Qmult_le_compat_r; [lra|]. apply Qinv_le_0_compat. lra. }
  split; [by rewrite length_fmap|]. split; [|split; [|split]].
  - apply Forall_fmap, Forall_forall. intros v _. apply normalize_sample_byte.
  - intros i j a b x y Ha Hb Hab Hx Hy.
    rewrite (Hlook i a x Ha Hx), (Hlook j b y Hb Hy).
    pose proof (round_mono _ _ (Hscale a b Hab)). lia.
  - intros i a Ha Hlo. rewrite list_lookup_fmap, Ha. cbn. f_equal.
    rewrite normalize_sample_fin by done.
    assert (JS.round ((a + - lo) / range * 255) <= 0); [|lia].
    rewrite <- (round_Z 0). apply round_mono.
    eapply Qle_trans; [apply (Hscale a lo Hlo)|]. change (inject_Z 0) with 0%Q.
    assert (H0 : ((lo + - lo) / range * 255 == 0)%Q) by (field; lra).
    rewrite H0. lra.
  - intros i a Ha Hgap Hhi. rewrite list_lookup_fmap, Ha. cbn. f_equal.
    rewrite normalize_sample_fin by done.
    assert (255 <= JS.round ((a + - lo) / range * 255)); [|lia].
    pose proof (round_mono (inject_Z 255) ((a + - lo) / range * 255)) as Hm.
    rewrite round_Z in Hm. apply Hm.
    assert (Hrange : (range == hi - lo)%Q).
    { unfold range, JS.Qmax. destruct (JS.Qltb (1 # 1000000) (hi - lo)) eqn:E;
        [reflexivity|]. apply Qltb_false in E. clear -E Hgap. lra. }
    clearbody range.
    assert (H1 : (1 <= (a + - lo) / range)%Q).
    { apply Qle_shift_div_l; [done|]. lra. }
    change (inject_Z 255) with 255%Q.
    set (t := ((a + - lo) / range)%Q) in *. clearbody t. lra.
Qed.
End Stretch.

(** X13. [normalizeToUint8] (cut-offs: percentiles 2 and 98) and the
    detector's [normalize] (percentiles 2 and 99.5) return as many bytes as
    there are samples, each between 0 and 255; among finite samples a greater
    sample never gets a smaller byte; a finite sample at or below the lower
    cut-off gets 0, and one at or above the upper cut-off gets 255 when the
    cut-offs are at least 1e-6 apart. *)
Theorem normalize_stretch (values : list JS.num) :
  stretch (Analysis.percentile values 2) (Analysis.percentile values 98) values
    (Analysis.normalizeToUint8 values) /\
  stretch (ObjectDetection.percentile values 2) (ObjectDetection.percentile values (995 # 10))
    values (ObjectDetection.normalize values).
Proof. split; apply stretch_map. Qed.

(** ** Resampling *)

Section Resample.



Lemma get_in_range {A} (a : list A) (i : Z) :
  0 <= i < Z.of_nat (length a) -> is_Some (JS.get a i).
Proof.
  intros Hi. unfold JS.get. destruct (Z.ltb_spec i 0); [lia|].
  apply lookup_lt_is_Some_2. lia.
Qed.

End Resample.



(** ** Thinning: what the skeleton keeps *)

Section Skeleton.
Import ObjectDetection.
Variables (width height : Z).

Local Abbreviation thinned := (thinned width height).
Local Abbreviation interior :=
  (fun i => exists y x, 1 <= y < height - 1 /\ 1 <= x < width - 1 /\ i = y * width + x).

Lemma thinned_refl a : thinned a a.
Proof. split; [done|]. intros i. by left. Qed.

Lemma thinned_trans a b c : thinned a b -> thinned b c -> thinned a c.
Proof.
  intros [Hl1 H1] [Hl2 H2]. split; [congruence|]. intros i.
  destruct (H2 i) as [Heq|[H0 Hint]]; [|right; done].
  rewrite Heq. apply H1.
Qed.

Lemma thinned_clear (img toRemove : list Z) :
  Forall interior toRemove -> thinned img (clear_pixels img toRemove).
Proof.
  unfold clear_pixels. intros Hall. revert img.
  induction Hall as [|i rs Hi Hall IH]; intros img; [apply thinned_refl|].
  cbn [foldl]. eapply thinned_trans; [|apply IH].
  split; [apply length_put|]. intros j.
  destruct (decide (i = j)) as [<-|Hne]; [|left; by apply get_put_ne].
  destruct (decide (0 <= i /\ (Z.to_nat i < length img)%nat)) as [[? ?]|Hout].
  - right. split; [by apply get_put_eq|done].
  - left. unfold JS.put, JS.get. destruct (Z.ltb_spec i 0); [done|].
    rewrite list_insert_ge; [done|lia].
Qed.

Lemma thin_pass_interior (img : list Z) (pass : Z) :
  Forall interior (thin_pass img width height pass).
Proof.
  unfold thin_pass.
  apply (for_range_invariant (Forall interior)); [done|].
  intros y rs Hy Hrs.
  apply (for_range_invariant (Forall interior)); [done|].
  intros x rs' Hx Hrs'.
  destruct (removable img width pass x y); [|done].
  apply Forall_app. split; [done|]. apply Forall_singleton. exists y, x. lia.
Qed.

Lemma thin_round_thinned (img : list Z) :
  thinned img (thin_round img width height).1.
Proof.
  rewrite thin_round_unfold. cbn zeta. cbn [fst].
  eapply thinned_trans; apply thinned_clear, thin_pass_interior.
Qed.

(** The loop returns a thinned image which a further round leaves alone. *)
Lemma thin_loop_thinned (fuel : nat) (img out : list Z) :
  thin_loop fuel img width height = Some out ->
  thinned img out /\ thin_round out width height = (out, false).
Proof.
  revert img. induction fuel as [|fuel IH]; intros img Hrun; [done|].
  cbn [thin_loop] in Hrun.
  pose proof (thin_round_thinned img) as Hstep.
  destruct (thin_round_measure img width height) as [_ Hsame].
  destruct (thin_round img width height) as [img' changing] eqn:E. cbn [fst snd] in *.
  destruct changing.
  - destruct (IH img' Hrun) as [Hrest Hfix]. split; [|done].
    by eapply thinned_trans.
  - inversion Hrun; subst out. specialize (Hsame eq_refl). subst img'.
    split; [apply thinned_refl|done].
Qed.
End Skeleton.

(** X15. [zhangSuenThin] returns an image of the length of the mask that
    differs from the mask only by zeros written at pixels off the border of
    the raster: it sets no pixel, and it leaves the first and last row and
    column as they are. Thinning the result again returns it unchanged. *)
Theorem zhangSuenThin_skeleton (mask : list Z) (width height : Z) :
  exists skel,
    ObjectDetection.zhangSuenThin mask width height = Some skel /\
    thinned width height mask skel /\
    (forall i, JS.test skel i = true -> JS.test mask i = true) /\
    (forall y x, 0 <= y < height -> 0 <= x < width ->
       y = 0 \/ y = height - 1 \/ x = 0 \/ x = width - 1 ->
       JS.get skel (y * width + x) = JS.get mask (y * width + x)) /\
    ObjectDetection.zhangSuenThin skel width height = Some skel.
Proof.
  destruct (zhangSuenThin_returns mask width height) as [skel Hrun].
  exists skel. split; [done|].
  destruct (thin_loop_thinned width height _ mask skel Hrun) as [Hthin Hfix].
  split; [done|]. destruct Hthin as [Hlen Hpix]. split; [|split].
  - intros i Hi. unfold JS.test in *.
    destruct (Hpix i) as [<-|[H0 _]]; [done|]. by rewrite H0 in Hi.
  - intros y x Hy Hx Hborder.
    destruct (Hpix (y * width + x)) as [Heq|[_ (y' & x' & Hy' & Hx' & Hi)]]; [done|].
    apply raster_index_inj in Hi; lia.
  - unfold ObjectDetection.zhangSuenThin. cbn [ObjectDetection.thin_loop].
    by rewrite Hfix.
Qed.

(** ** The morphological close of the detector *)

(** X16. The detector's [applyMorphology] is the closing of analysis.ts with
    radius 1. Hence, on a mask of [width * height] pixels, it keeps every set
    pixel of the raster, and applying it twice gives what one application
    gives. *)
Theorem applyMorphology_closing (mask : list Z) (width height : Z) :
  ObjectDetection.applyMorphology mask width height = Analysis.closing mask width height 1 /\
  (length mask = Z.to_nat (width * height) ->
   (forall y x, 0 <= y < height -> 0 <= x < width ->
      JS.test mask (y * width + x) = true ->
      JS.test (ObjectDetection.applyMorphology mask width height) (y * width + x) = true) /\
   ObjectDetection.applyMorphology
     (ObjectDetection.applyMorphology mask width height) width height
   = ObjectDetection.applyMorphology mask width height).
Proof.
  assert (Heq : forall m,
    ObjectDetection.applyMorphology m width height = Analysis.closing m width height 1).
  { intros m. unfold ObjectDetection.applyMorphology, Analysis.closing. cbn zeta.
    change (ObjectDetection.operate m (replicate (length m) 0) width height
              ObjectDetection.op_dilate) with (Analysis.dilate m width height 1).
    rewrite <- (length_dilate width height 1 m). reflexivity. }
  split; [apply Heq|]. intros Hlen. rewrite !Heq. split.
  - intros y x Hy Hx Hset. unfold Analysis.closing.
    rewrite erode_test; [|lia|by rewrite length_dilate|done..].
    apply erode_val_true. intros [qy qx] Hq.
    pose proof Hq as [[Hqy Hqx] _]. cbn in Hqy, Hqx. cbn [fst snd].
    rewrite dilate_test by (done || lia). apply dilate_val_true.
    exists (y, x). split; [|done]. by apply (tap_sym width height 1 (y, x) (qy, qx)).
  - unfold Analysis.closing at 1 3. apply erode_ext; [lia| |].
    + unfold Analysis.closing. by rewrite !length_dilate, length_erode, length_dilate.
    + apply dilate_closing_pixels; [lia|done].
Qed.

(** ** A raster compared with itself *)

Section Flat.

Lemma blank_replicate (mask : list Z) : blank mask <-> mask = replicate (length mask) 0.
Proof.
  split.
  - intros H. induction H as [|v l -> _ IH]; [done|]. cbn. by rewrite <- IH.
  - intros ->. apply Forall_replicate. done.
Qed.

Lemma blank_test (mask : list Z) (i : Z) : blank mask -> JS.test mask i = false.
Proof.
  intros H. apply blank_replicate in H. rewrite H. apply clear_marks.
Qed.

Lemma blank_item (mask : list Z) (i : Z) : blank mask -> JS.item mask i = 0.
Proof.
  intros H. unfold JS.item, JS.get. destruct (i <? 0); [done|].
  destruct (mask !! Z.to_nat i) as [v|] eqn:E; [|done].
  unfold blank in H. rewrite Forall_lookup in H. by rewrite (H _ _ E).
Qed.

Lemma put_blank (mask : list Z) (i : Z) : blank mask -> JS.put mask i 0 = mask.
Proof.
  intros H. unfold JS.put. destruct (i <? 0); [done|].
  destruct (mask !! Z.to_nat i) as [v|] eqn:E.
  - apply list_insert_id. unfold blank in H. rewrite Forall_lookup in H.
    by rewrite <- (H _ _ E).
  - apply list_insert_ge. by apply lookup_ge_None.
Qed.

(** *** The difference and its display *)

Lemma diff_self (a : list JS.num) : Forall still (Analysis.absoluteDifference a a).
Proof.
  apply Forall_lookup. intros i v Hv.
  destruct (a !! i) as [x|] eqn:Ex.
  - rewrite (absoluteDifference_lookup a a i x Ex), Ex in Hv. cbn in Hv.
    inversion Hv; subst v. destruct x; cbn [JS.abs JS.sub JS.neg JS.add still]; try done.
    assert (Hz : (q + - q == 0)%Q) by ring. rewrite Hz. reflexivity.
  - apply lookup_lt_Some in Hv. unfold Analysis.absoluteDifference in Hv.
    rewrite length_fmap, length_seqZ in Hv. apply lookup_ge_None in Ex. lia.
Qed.

Lemma still_finite (values : list JS.num) (q : Q) :
  Forall still values -> q ∈ Analysis.finite_samples values -> (q == 0)%Q.
Proof.
  intros Hall Hq. apply finite_samples_Forall in Hq.
  rewrite Forall_forall in Hall. apply (Hall _ Hq).
Qed.

Lemma percentile_zero_or_sample (values : list JS.num) (p : Q) :
  Analysis.percentile values p = 0%Q \/
  Analysis.percentile values p ∈ Analysis.finite_samples values.
Proof.
  destruct (decide (Analysis.finite_samples values = [])) as [Hnil|Hne].
  - left. unfold Analysis.percentile. by rewrite Hnil.
  - right. rewrite <- (sort_perm JS.Qltb (Analysis.finite_samples values)).
    apply (list_elem_of_lookup_2 _ _ _ (percentile_lookup values p Hne)).
Qed.

Lemma percentile_still (values : list JS.num) (p : Q) :
  Forall still values -> (Analysis.percentile values p == 0)%Q.
Proof.
  intros Hall. destruct (percentile_zero_or_sample values p) as [->|Hin]; [reflexivity|].
  by apply (still_finite values).
Qed.

Lemma normalize_still (values : list JS.num) :
  Forall still values -> blank (Analysis.normalizeToUint8 values).
Proof.
  intros Hall. unfold Analysis.normalizeToUint8. cbn zeta.
  pose proof (percentile_still values 2 Hall) as H2.
  set (p2 := Analysis.percentile values 2) in *.
  set (range := JS.Qmax (1 # 1000000) _).
  assert (Hr : (0 < range)%Q).
  { pose proof (Qmax_ge_l (1 # 1000000) (Analysis.percentile values 98 - p2)).
    fold range in H. lra. }
  clearbody range p2.
  apply Forall_fmap. eapply Forall_impl; [exact Hall|].
  intros v Hv. unfold compose. destruct v as [q| | |]; try done.
  cbn [still] in Hv. rewrite normalize_sample_fin by done.
  rewrite (round_comp _ (inject_Z 0)); [by rewrite round_Z|].
  rewrite Hv, H2. change (inject_Z 0) with 0%Q. field. lra.
Qed.
End Flat.

(** *** The mask of a flat difference *)

Section FlatMask.

Lemma foldl_invariant {S B} (P : S -> Prop) (f : S -> B -> S) (l : list B) (s : S) :
  P s -> (forall s x, P s -> P (f s x)) -> P (foldl f s l).
Proof.
  intros Hs Hf. revert s Hs. induction l as [|x l IH]; intros s Hs; [done|].
  cbn. apply IH. by apply Hf.
Qed.

Lemma foldl_invariant_elem {S B} (P : S -> Prop) (f : S -> B -> S) (l : list B) (s : S) :
  P s -> (forall s x, x ∈ l -> P s -> P (f s x)) -> P (foldl f s l).
Proof.
  intros Hs Hf. revert s Hs. induction l as [|x l IH]; intros s Hs; [done|].
  cbn. apply IH.
  - intros s' x' Hx'. apply Hf. by right.
  - apply Hf; [by left|done].
Qed.

Lemma fmap_blank {A} (f : Z -> A) (c : A) (diff : list Z) :
  blank diff -> f 0 = c -> f <$> diff = replicate (length diff) c.
Proof.
  intros H Hf. induction H as [|v l -> _ IH]; [done|]. cbn. by rewrite Hf, IH.
Qed.

Lemma zip_with_blank {B} (f : Z -> B -> Z) (c : Z) (diff : list Z) (local : list B)
    (P : B -> Prop) :
  blank diff -> Forall P local -> length local = length diff ->
  (forall l, P l -> f 0 l = c) ->
  zip_with f diff local = replicate (length diff) c.
Proof.
  intros H. revert local. induction H as [|v d -> _ IH]; intros local Hl Hlen Hf.
  { by destruct local. }
  destruct local as [|l local]; [done|]. inversion Hl; subst. cbn.
  rewrite Hf by done. f_equal. apply IH; [done|by inversion Hlen|done].
Qed.

Lemma local_sum_blank (values : list Z) (width height radius y x : Z) :
  blank values -> (Analysis.local_sum_count values width height radius y x).1 = 0.
Proof.
  intros Hb. unfold Analysis.local_sum_count.
  apply (foldl_invariant (fun acc : Z * Z => acc.1 = 0)); [done|].
  intros acc dy Hacc. cbn zeta. destruct (_ || _); [done|].
  apply (foldl_invariant (fun acc : Z * Z => acc.1 = 0)); [done|].
  intros acc' dx Hacc'. cbn zeta. destruct (_ || _); [done|].
  cbn [fst]. rewrite Hacc', blank_item by done. done.
Qed.

Lemma localAverage_blank (values : list Z) (width height radius : Z) :
  blank values ->
  Forall (fun q => q == 0)%Q (Analysis.localAverage values width height radius).
Proof.
  intros Hb. unfold Analysis.localAverage.
  apply (for_range_invariant (Forall (fun q => q == 0)%Q));
    [by apply Forall_replicate|].
  intros y out _ Hout.
  apply (for_range_invariant (Forall (fun q => q == 0)%Q)); [done|].
  intros x out' _ Hout'. unfold JS.put.
  destruct (_ <? 0); [done|]. apply Forall_insert; [done|].
  destruct (_ =? 0).
  - by rewrite blank_item.
  - rewrite local_sum_blank by done. change (inject_Z 0) with 0%Q.
    unfold Qdiv. ring.
Qed.

(** **** k-means on a flat difference *)

Lemma nearest_center_flat (centers : list Q) :
  Forall (fun c => c == 0)%Q centers -> Analysis.nearest_center centers 0 = 0.
Proof.
  intros Hall. unfold Analysis.nearest_center.
  assert (Hrest : forall cs, Forall (fun c => c == 0)%Q cs ->
    forall c d i, (d == 0)%Q ->
    (foldl (fun '(c, (minDist, idx)) center =>
              let dist := Qabs (inject_Z 0 - center) in
              let closer := match minDist with
                            | None => true
                            | Some d => JS.Qltb dist d
                            end in
              if closer then (c + 1, (Some dist, c)) else (c + 1, (minDist, idx)))
           (c, (Some d, i)) cs).2.2 = i).
  { induction 1 as [|center cs Hc _ IH]; intros c d i Hd; [done|].
    cbn [foldl]. cbn zeta.
    assert (Hdist : (Qabs (inject_Z 0 - center) == 0)%Q).
    { rewrite Hc. reflexivity. }
    destruct (JS.Qltb _ d) eqn:E.
    - apply Qltb_true in E. lra.
    - by apply IH. }
  destruct Hall as [|center cs Hc Hcs]; [done|].
  cbn [foldl]. cbn zeta. apply Hrest; [done|]. rewrite Hc. reflexivity.
Qed.

Lemma kmeans_iteration_flat (values : list Z) (cl : list Q * list Z) :
  blank values ->
  Forall (fun c => c == 0)%Q cl.1 ->
  Forall (fun c => c == 0)%Q (Analysis.kmeans_iteration values cl).1 /\
  length (Analysis.kmeans_iteration values cl).1 = length cl.1 /\
  blank (Analysis.kmeans_iteration values cl).2.
Proof.
  intros Hb Hc. unfold Analysis.kmeans_iteration. cbn zeta. cbn [fst snd].
  split; [|split].
  - apply Forall_lookup. intros i q Hq. rewrite list_lookup_imap in Hq.
    destruct (cl.1 !! i) as [center|] eqn:E; [|done]. cbn in Hq.
    inversion Hq; subst q. clear Hq.
    destruct (_ =? 0); [by apply (Forall_lookup_1 _ _ _ _ Hc E)|].
    match goal with
    | |- context [nth i ?sums 0%Z] =>
        assert (Hs : Forall (fun s => s = 0) sums)
    end.
    { apply (foldl_invariant_elem (Forall (fun s => s = 0))); [by apply Forall_replicate|].
      intros s [l v] Hlv Hs. cbn [fst snd].
      apply elem_of_zip_r in Hlv. unfold blank in Hb. rewrite Forall_forall in Hb.
      rewrite (Hb v Hlv). apply Forall_alter; [done|]. intros z _ ->. done. }
    rewrite nth_lookup.
    match goal with
    | |- context [default 0 (?sums !! i)] =>
        assert (Hz : default 0 (sums !! i) = 0);
          [destruct (sums !! i) as [z|] eqn:Ez;
             [cbn; by apply (Forall_lookup_1 _ _ _ _ Hs Ez)|done]|]
    end.
    rewrite Hz. change (inject_Z 0) with 0%Q. unfold Qdiv. ring.
  - by rewrite length_imap.
  - apply Forall_fmap, Forall_forall. intros v Hv. unfold compose.
    unfold blank in Hb. rewrite Forall_forall in Hb. rewrite (Hb v Hv).
    by rewrite nearest_center_flat.
Qed.

Lemma kmeans1D_flat (values : list Z) (clusters iterations : Z) :
  blank values ->
  Forall (fun c => c == 0)%Q (Analysis.kmeans1D values clusters iterations).1 /\
  length (Analysis.kmeans1D values clusters iterations).1 = Z.to_nat clusters /\
  blank (Analysis.kmeans1D values clusters iterations).2.
Proof.
  intros Hb. unfold Analysis.kmeans1D. cbn zeta.
  apply (for_range_invariant (fun cl : list Q * list Z =>
    Forall (fun c => c == 0)%Q cl.1 /\ length cl.1 = Z.to_nat clusters /\ blank cl.2)).
  - cbn [fst snd]. split; [|split].
    + apply Forall_fmap, Forall_forall. intros i _. unfold compose.
      by rewrite blank_item.
    + rewrite length_fmap, length_seqZ. done.
    + by apply Forall_replicate.
  - intros _ cl _ (Hc & Hl & _).
    destruct (kmeans_iteration_flat values cl Hb Hc) as (Hc' & Hl' & Hb').
    split; [done|]. split; [congruence|done].
Qed.

Lemma sort_unordered {A} (before : A -> A -> bool) (l : list A) :
  (forall x y, x ∈ l -> y ∈ l -> before x y = false) -> JS.sort before l = l.
Proof.
  intros Hall. unfold JS.sort.
  assert (Hgen : forall rest acc, acc ++ rest = l ->
            foldl (fun acc x => JS.insert_sorted before x acc) acc rest = l).
  { induction rest as [|x rest IH]; intros acc Heq.
    { cbn. by rewrite app_nil_r in Heq. }
    cbn [foldl]. apply IH.
    rewrite insert_sorted_last.
    - by rewrite <- app_assoc.
    - intros y Hy. apply Hall; rewrite <- Heq, elem_of_app; [right; by left|by left]. }
  by apply (Hgen l []).
Qed.

Lemma rank_threshold_elem {A} (sorted : list A) (c : Q) :
  sorted <> [] -> exists t, Analysis.rank_threshold sorted c = Some t /\ t ∈ sorted.
Proof.
  intros Hne. unfold Analysis.rank_threshold. cbn zeta.
  set (n := Z.of_nat (length sorted)).
  assert (Hn : 0 < n) by (unfold n; destruct sorted; [done|cbn [length]; lia]).
  set (idx := Z.max 0 (Z.min (n - 1) _)).
  assert (Hidx : 0 <= idx < n) by lia.
  destruct (get_in_range sorted idx Hidx) as [t Ht]. exists t. split; [done|].
  unfold JS.get in Ht. destruct (idx <? 0); [done|].
  by apply list_elem_of_lookup_2 in Ht.
Qed.
End FlatMask.

Lemma computeMask_blank (Math_sqrt : Q -> Q) (diff : list Z) (width height : Z)
    (options : Analysis.ChangeDetectionOptions) :
  blank diff ->
  (forall manual, Analysis.otsuManualThreshold options = Some manual -> (0 <= manual)%Q) ->
  Analysis.computeMask Math_sqrt diff width height options
  = replicate (length diff) (if flags_flat (Analysis.algorithm options) then 1 else 0).
Proof.
  intros Hb Hmanual. unfold Analysis.computeMask. cbn zeta.
  destruct (Analysis.algorithm options) eqn:Ealg; cbn [flags_flat].
  - (* otsu *)
    apply fmap_blank; [done|].
    destruct (Analysis.otsuManualThreshold options) as [manual|].
    + assert (0 <= JS.round (manual * 255)).
      { rewrite <- (round_Z 0) at 1. apply round_mono. change (inject_Z 0) with 0%Q.
        specialize (Hmanual manual eq_refl). nra. }
      destruct (Z.gtb_spec 0 (JS.round (manual * 255))); [lia|done].
    + destruct (otsuThreshold_first_best diff) as [Ht _].
      { eapply Forall_impl; [exact Hb|]. intros v ->. lia. }
      destruct (Z.gtb_spec 0 (Analysis.otsuThreshold diff)); [lia|done].
  - (* kmeans *)
    destruct (kmeans1D_flat diff
                (Z.max 2 (default 2 (Analysis.kmeansClusters options)))
                (Z.max 1 (default 6 (Analysis.kmeansIterations options))) Hb)
      as (Hc & Hl & Hlab).
    pose proof (length_kmeans_labels diff
                  (Z.max 2 (default 2 (Analysis.kmeansClusters options)))
                  (Z.max 1 (default 6 (Analysis.kmeansIterations options)))) as Hlen.
    destruct (Analysis.kmeans1D _ _ _) as [centers labels]. cbn [fst snd] in *.
    rewrite sort_unordered.
    2:{ intros [v1 i1] [v2 i2] H1 H2. cbn [fst].
        apply list_elem_of_lookup_1 in H1 as [k1 H1], H2 as [k2 H2].
        rewrite list_lookup_imap in H1, H2.
        destruct (centers !! k1) as [c1|] eqn:E1; [|done].
        destruct (centers !! k2) as [c2|] eqn:E2; [|done].
        cbn in H1, H2. inversion H1; inversion H2; subst.
        apply Qltb_false.
        rewrite (Forall_lookup_1 _ _ _ _ Hc E1), (Forall_lookup_1 _ _ _ _ Hc E2). lra. }
    assert (Hlast : exists v, last (imap (fun idx value => (value, Z.of_nat idx)) centers)
                      = Some (v, Z.of_nat (length centers - 1))).
    { rewrite last_lookup, length_imap, list_lookup_imap.
      destruct (lookup_lt_is_Some_2 centers (Init.Nat.pred (length centers))) as [v Hv].
      { rewrite Hl. lia. }
      rewrite Hv. cbn. exists v. do 3 f_equal. lia. }
    destruct Hlast as [v ->]. cbn [fmap option_fmap option_map default snd].
    rewrite <- Hlen. apply fmap_blank; [done|]. unfold id.
    destruct (Z.eqb_spec 0 (Z.of_nat (length centers - 1))); [|done]. lia.
  - (* adaptive *)
    apply (zip_with_blank _ _ _ _ (fun q => q == 0)%Q); [done| | |].
    + by apply localAverage_blank.
    + apply length_localAverage.
    + intros l Hl. unfold JS.Qgtb.
      assert (Hle : (inject_Z 0 <= l + 8)%Q) by (change (inject_Z 0) with 0%Q; lra).
      apply Qle_bool_iff in Hle. by rewrite Hle.
  - (* isolation_forest *)
    destruct diff as [|d diff]; [by destruct (Analysis.rank_threshold _ _)|].
    destruct (rank_threshold_elem (JS.sort Z.ltb (d :: diff))
                (JS.Qmin (1 # 2)
                   (JS.Qmax (5 # 10000) (default (1 # 100) (Analysis.contamination options)))))
      as (t & -> & Ht).
    { intros Hnil. pose proof (sort_perm Z.ltb (d :: diff)) as Hp.
      rewrite Hnil in Hp. by apply Permutation_nil_l in Hp. }
    rewrite (sort_perm Z.ltb (d :: diff)) in Ht.
    unfold blank in Hb. rewrite Forall_forall in Hb. rewrite (Hb t Ht).
    apply fmap_blank; [by apply Forall_forall|done].
  - (* lof *)
    apply (zip_with_blank _ _ _ _ (fun q => q == 0)%Q); [done| | |].
    + by apply localAverage_blank.
    + apply length_localAverage.
    + intros l Hl. unfold JS.Qgtb.
      assert (Hle : (inject_Z 0 - l <= 12)%Q) by (change (inject_Z 0) with 0%Q; lra).
      apply Qle_bool_iff in Hle. by rewrite Hle.
  - (* pca *)
    destruct diff as [|d diff]; [by destruct (Analysis.rank_threshold _ _)|].
    set (score := fun value : Z => Qabs _).
    assert (Hscores : score <$> d :: diff = replicate (length (d :: diff)) (score 0))
      by (by apply fmap_blank).
    rewrite Hscores.
    destruct (rank_threshold_elem
                (JS.sort JS.Qltb (replicate (length (d :: diff)) (score 0)))
                (JS.Qmin (1 # 2)
                   (JS.Qmax (5 # 10000) (default (1 # 100) (Analysis.contamination options)))))
      as (t & -> & Ht).
    { intros Hnil. pose proof (sort_perm JS.Qltb (replicate (length (d :: diff)) (score 0))) as Hp.
      rewrite Hnil in Hp. by apply Permutation_nil_l in Hp. }
    rewrite (sort_perm JS.Qltb _) in Ht. apply elem_of_replicate in Ht as [-> _].
    rewrite fmap_replicate. f_equal.
    unfold JS.Qgeb. assert (Hle : (score 0%Z <= score 0%Z)%Q) by lra.
    apply Qle_bool_iff in Hle. by rewrite Hle.
Qed.


Lemma count_set_replicate (n : nat) (c : Z) :
  Analysis.count_set (replicate n c) = if JS.truthy c then Z.of_nat n else 0.
Proof.
  unfold Analysis.count_set.
  assert (Hgen : forall acc,
    foldl (fun acc value => acc + (if JS.truthy value then 1 else 0)) acc (replicate n c)
    = acc + (if JS.truthy c then Z.of_nat n else 0)).
  { induction n as [|n IH]; intros acc; [cbn; destruct (JS.truthy c); lia|].
    cbn [replicate foldl]. rewrite IH. destruct (JS.truthy c); lia. }
  apply (Hgen 0).
Qed.

(** X17. The mask of a difference that is zero everywhere (with a manual
    Otsu threshold, if one is given, that is not negative): [otsu],
    [adaptive], [lof] and [kmeans] flag no pixel, whereas [isolation_forest]
    and [pca], which compare with [>=] against a rank taken from the same
    flat data, flag every pixel. *)
Theorem computeMask_flat (Math_sqrt : Q -> Q) (diff : list Z) (width height : Z)
    (options : Analysis.ChangeDetectionOptions) :
  blank diff ->
  (forall manual, Analysis.otsuManualThreshold options = Some manual -> (0 <= manual)%Q) ->
  let mask := Analysis.computeMask Math_sqrt diff width height options in
  (flags_flat (Analysis.algorithm options) = false ->
     blank mask /\ Analysis.count_set mask = 0) /\
  (flags_flat (Analysis.algorithm options) = true ->
     Forall (fun v => v = 1) mask /\ Analysis.count_set mask = Z.of_nat (length diff)) /\
  length mask = length diff.
Proof.
  intros Hb Hmanual mask. subst mask.
  rewrite (computeMask_blank Math_sqrt diff width height options Hb Hmanual).
  split; [|split].
  - intros ->. split; [by apply Forall_replicate|]. by rewrite count_set_replicate.
  - intros ->. split; [by apply Forall_replicate|]. by rewrite count_set_replicate.
  - apply length_replicate.
Qed.

Lemma computeMask_flat_witness :
  let mask := Analysis.computeMask (fun q => q) [0; 0; 0; 0] 2 2 otsu_options in
  (flags_flat Analysis.otsu = false -> blank mask /\ Analysis.count_set mask = 0) /\
  (flags_flat Analysis.otsu = true ->
     Forall (fun v => v = 1) mask /\ Analysis.count_set mask = 4) /\
  length mask = 4%nat.
Proof.
  apply (computeMask_flat (fun q => q) [0; 0; 0; 0] 2 2 otsu_options).
  - by repeat constructor.
  - intros manual Hm. discriminate Hm.
Defined.

(** *** Post-processing an empty mask *)

Section BlankMask.
Variables (mask : list Z) (width height : Z).
Hypothesis Hblank : blank mask.

Lemma erode_blank (radius : Z) : Analysis.erode mask width height radius = mask.
Proof.
  unfold Analysis.erode. destruct (Z.leb_spec radius 0); [done|].
  rewrite <- (proj1 (blank_replicate mask) Hblank).
  apply (for_range_invariant (fun out => out = mask)); [done|].
  intros y out Hy ->.
  apply (for_range_invariant (fun out => out = mask)); [done|].
  intros x out Hx ->.
  destruct (Analysis.erode_val mask width height radius y x) eqn:E; [|by apply put_blank].
  rewrite erode_val_true in E.
  specialize (E (y, x) (tap_refl width height radius ltac:(lia) (y, x) ltac:(cbn; lia)
                          ltac:(cbn; lia))).
  by rewrite blank_test in E.
Qed.

Lemma dilate_blank (radius : Z) : Analysis.dilate mask width height radius = mask.
Proof.
  unfold Analysis.dilate. destruct (Z.leb_spec radius 0); [done|].
  rewrite <- (proj1 (blank_replicate mask) Hblank).
  apply (for_range_invariant (fun out => out = mask)); [done|].
  intros y out Hy ->.
  apply (for_range_invariant (fun out => out = mask)); [done|].
  intros x out Hx ->.
  destruct (Analysis.dilate_val mask width height radius y x) eqn:E; [|by apply put_blank].
  rewrite dilate_val_true in E. destruct E as [q [_ Hq]].
  by rewrite blank_test in Hq.
Qed.

Lemma removeSmallComponents_blank (minArea : Z) :
  Analysis.removeSmallComponents mask width height minArea = Some mask.
Proof.
  unfold Analysis.removeSmallComponents. destruct (minArea <=? 1); [done|].
  match goal with
  | |- fst <$> ?loop = _ =>
      assert (Hloop : loop = Some (mask, replicate (length mask) 0)); [|by rewrite Hloop]
  end.
  apply (for_range_invariant (fun st => st = Some (mask, replicate (length mask) 0)));
    [done|].
  intros i st _ ->. cbn [mbind option_bind]. by rewrite blank_test.
Qed.

Hypothesis Hwidth : 0 < width.
Hypothesis Hheight : 0 < height.
Hypothesis Hlen : length mask = Z.to_nat (width * height).

(** In an empty mask every pixel is joined to the first row. *)
Lemma blank_outside (i : Z) :
  0 <= i < Z.of_nat (length mask) -> outside mask width height i.
Proof.
  intros Hi. remember (Z.to_nat i) as n eqn:Hn. revert i Hi Hn.
  induction n as [n IH] using lt_wf_ind. intros i Hi Hn.
  assert (Hback : background mask i) by (split; [done|by apply blank_test]).
  destruct (Z.lt_ge_cases i width) as [Hlt|Hge].
  - apply outside_border; [|done]. left. exists i. split; [lia|by left].
  - apply (outside_step mask width height (i - width) i); [| | |done].
    + apply (IH (Z.to_nat (i - width))); lia.
    + unfold Analysis.neighbours. list_elems. lia.
    + unfold Analysis.not_adjacent. cbn zeta.
      replace i with ((i - width) + 1 * width) at 1 3 by lia.
      rewrite Z.div_add by lia. rewrite !Z.rem_mod_nonneg by lia.
      rewrite Z.mod_add by lia. lia.
Qed.

Lemma fillHoles_blank : Analysis.fillHoles mask width height = Some mask.
Proof.
  destruct (fillHoles_total mask width height) as [out [Hrun Hout]].
  rewrite Hrun. f_equal. unfold Analysis.fillHoles in Hrun. cbn zeta in Hrun.
  destruct (Analysis.fill_loop _ _ _ _) as [visited|] eqn:Hloop; [|done].
  apply fillHoles_marks in Hloop as [Hvl Hmarks].
  cbn in Hrun. inversion Hrun; subst out; clear Hrun.
  apply list_eq. intros k. rewrite lookup_zip_with.
  destruct (mask !! k) as [o|] eqn:Eo; [|done]. cbn.
  destruct (lookup_lt_is_Some_2 visited k) as [v Ev].
  { rewrite Hvl. by apply lookup_lt_Some in Eo. }
  rewrite Ev. cbn. f_equal.
  assert (Hv : JS.test visited (Z.of_nat k) = true).
  { apply Hmarks, blank_outside. apply lookup_lt_Some in Eo. lia. }
  unfold JS.test, JS.get in Hv. destruct (Z.ltb_spec (Z.of_nat k) 0); [lia|].
  rewrite Nat2Z.id, Ev in Hv. rewrite Hv. by rewrite andb_false_r.
Qed.

Lemma postProcessMask_blank (options : Analysis.PostProcessOptions) :
  Analysis.postProcessMask mask width height options = Some mask.
Proof.
  unfold Analysis.postProcessMask, Analysis.opening, Analysis.closing. cbn zeta.
  rewrite !erode_blank, !dilate_blank.
  destruct (_ >? 0); destruct (_ >? 0); rewrite ?dilate_blank, ?erode_blank;
    (destruct (Analysis.fillHolesOpt options);
       [rewrite fillHoles_blank|]; cbn [mbind option_bind];
       (destruct (_ >? 1); [apply removeSmallComponents_blank|done])).
Qed.
End BlankMask.

(** X18. [analyzeChange] on a raster compared with itself (positive size,
    [width * height] samples, no negative manual threshold): the displayed
    difference is zero everywhere for every speckle filter; with [otsu],
    [kmeans], [adaptive] or [lof] no pixel is reported as changed, whatever
    the post-processing; with [isolation_forest] or [pca] and the
    post-processing off, every pixel is reported as changed. *)
Theorem self_comparison (Math_sqrt : Q -> Q) (Math_exp : JS.num -> JS.num)
    (f : Analysis.TiffReadResult) (options : Analysis.ChangeDetectionOptions) :
  0 < Analysis.width f -> 0 < Analysis.height f ->
  length (Analysis.data f) = Z.to_nat (Analysis.width f * Analysis.height f) ->
  (forall manual, Analysis.otsuManualThreshold options = Some manual -> (0 <= manual)%Q) ->
  exists r,
    Analysis.analyzeChange Math_sqrt Math_exp f f options = Some r /\
    blank (Analysis.diff r) /\
    (flags_flat (Analysis.algorithm options) = false ->
       blank (Analysis.mask r) /\ Analysis.changedPixels r = 0 /\
       exists q, Analysis.changePercentage r = JS.Fin q /\ (q == 0)%Q) /\
    (flags_flat (Analysis.algorithm options) = true ->
     no_post_processing (Analysis.postProcess options) ->
       Analysis.changedPixels r = Analysis.width f * Analysis.height f /\
       exists q, Analysis.changePercentage r = JS.Fin q /\ (q == 100)%Q).
Proof.
  intros Hw Hh Hlen Hmanual. unfold Analysis.analyzeChange. cbn zeta.
  rewrite !Z.eqb_refl. cbn [andb].
  set (fb := Analysis.applySpeckleFilter Math_exp (Analysis.data f) _ _ _ _).
  set (shown := Analysis.normalizeToUint8 (Analysis.absoluteDifference fb fb)).
  assert (Hshown : blank shown) by apply normalize_still, diff_self.
  assert (Hn : length shown = Z.to_nat (Analysis.width f * Analysis.height f)).
  { unfold shown, Analysis.normalizeToUint8, Analysis.absoluteDifference. cbn zeta.
    rewrite !length_fmap, length_seqZ, Nat2Z.id. unfold fb.
    by rewrite length_applySpeckleFilter. }
  rewrite (computeMask_blank Math_sqrt shown _ _ options Hshown Hmanual).
  assert (Hne : Qeq_bool (inject_Z (Analysis.width f * Analysis.height f)) 0 = false).
  { destruct (Qeq_bool _ 0) eqn:E; [|done]. apply Qeq_bool_eq in E.
    change 0%Q with (inject_Z 0) in E. rewrite inject_Z_injective in E. nia. }
  destruct (flags_flat (Analysis.algorithm options)) eqn:Eflag.
  - destruct (decide (no_post_processing (Analysis.postProcess options)))
      as [(Ho & Hc & Hf & Hm)|Hpost].
    + unfold Analysis.postProcessMask. cbn zeta.
      destruct (Z.gtb_spec (Analysis.openingRadius (Analysis.postProcess options)) 0); [lia|].
      destruct (Z.gtb_spec (Analysis.closingRadius (Analysis.postProcess options)) 0); [lia|].
      rewrite Hf. cbn [mbind option_bind].
      destruct (Z.gtb_spec (Analysis.minBlobArea (Analysis.postProcess options)) 1); [lia|].
      eexists. split; [reflexivity|]. cbn [Analysis.diff Analysis.mask
        Analysis.changedPixels Analysis.changePercentage].
      split; [done|]. split; [done|]. intros _ _.
      rewrite count_set_replicate, Hn. cbn [JS.truthy Z.eqb negb].
      split; [nia|]. cbn [JS.div JS.mul]. rewrite Hne. eexists. split; [reflexivity|].
      rewrite Z2Nat.id by nia. field. intros Hz.
      change 0%Q with (inject_Z 0) in Hz. rewrite inject_Z_injective in Hz. nia.
    + destruct (postProcessMask_total (replicate (length shown) 1)
                  (Analysis.width f) (Analysis.height f) (Analysis.postProcess options))
        as [out [-> _]].
      cbn [mbind option_bind]. eexists. split; [reflexivity|].
      cbn [Analysis.diff]. split; [done|]. split; [done|]. intros _ Hoff. done.
  - rewrite postProcessMask_blank; [|by apply Forall_replicate|done|done|].
    2:{ by rewrite length_replicate. }
    cbn [mbind option_bind]. eexists. split; [reflexivity|].
    cbn [Analysis.diff Analysis.mask Analysis.changedPixels Analysis.changePercentage].
    split; [done|]. split; [|done]. intros _.
    split; [by apply Forall_replicate|]. rewrite count_set_replicate. cbn [JS.truthy Z.eqb negb].
    split; [done|]. cbn [JS.div JS.mul]. rewrite Hne. eexists. split; [reflexivity|].
    change (inject_Z 0) with 0%Q. field. intros Hz.
    change 0%Q with (inject_Z 0) in Hz. rewrite inject_Z_injective in Hz. nia.
Qed.

Lemma self_comparison_witness :
  exists r,
    Analysis.analyzeChange (fun q => q) (fun v => v) block_scene block_scene otsu_options
      = Some r /\
    blank (Analysis.diff r) /\ Analysis.changedPixels r = 0.
Proof.
  destruct (self_comparison (fun q => q) (fun v => v) block_scene otsu_options)
    as (r & Hrun & Hdiff & Hnone & _).
  - cbn. lia.
  - cbn. lia.
  - reflexivity.
  - intros manual Hm. discriminate Hm.
  - exists r. split; [exact Hrun|]. split; [exact Hdiff|].
    exact (proj1 (proj2 (Hnone eq_refl))).
Defined.

(** ** Scenarios of the specification *)

(** [kmeans1D] on two well separated groups finds their two centres and
    labels each group with its own cluster. *)
Example kmeans_two_groups :
  Qred <$> (Analysis.kmeans1D [0; 0; 0; 100; 100; 100] 2 2).1 = [0; 100]%Q /\
  (Analysis.kmeans1D [0; 0; 0; 100; 100; 100] 2 2).2 = [0; 0; 0; 1; 1; 1].
Proof. split; reflexivity. Qed.

(** An isolated 3 by 3 block is removed when [minBlobArea] is 10 and kept
    when it is 5. *)
Example small_block_removed :
  Analysis.removeSmallComponents block_3x3 5 5 10 = Some (replicate 25 0) /\
  Analysis.removeSmallComponents block_3x3 5 5 5 = Some block_3x3.
Proof. split; reflexivity. Qed.

(** Filling holes sets the enclosed pixel of a ring and nothing else. *)
Example ring_filled :
  Analysis.fillHoles ring_3x3 5 5 = Some block_3x3.
Proof. reflexivity. Qed.

(** Three boxes, two of them overlapping: the less confident of the two is
    suppressed, and the rest is in descending order of confidence. *)
Example nms_three_boxes :
  ObjectDetection.id <$>
    ObjectDetection.nonMaximumSuppression three_boxes (35 # 100)
  = ["b"; "c"]%string.
Proof. reflexivity. Qed.
